(** * Conference-Agent: the batch enrichment engine of [PharmaCrew]

    A shallow embedding of
      - [crews/pharma_crew/pharma_crew.py]
        ([clean_json_text], [export_to_csv], [preprocess_attendees],
        [PharmaCrew.process_batch], [PharmaCrew.process_batch_async],
        [PharmaCrew.process_batch_with_crew], [PharmaCrew.analyze]),
      - [crews/pharma_crew/async_attendee_processor.py]
        ([AsyncAttendeeProcessor.process_attendee], [process_attendees]),
      - [tools/async_web_search_tool.py]
        ([AsyncWebSearchTool._run_async], [execute_async]),
      - [utils.py] ([extract_company_from_email] and the loop over the rows
        of [preprocess_attendee_data]),
      - [main.py] ([AttendeeFlow.analyze_results] and the crew [main] and
        [AttendeeFlow.process_pharma_attendees] create),
    followed by the properties proved about them.

    Python values are modelled as follows.  A [str] is the list of its code
    points ([pystr]); an exception is carried by the text of [str(e)]; code
    that may raise returns a [reply].  The remote services, the JSON decoder
    of the standard library and the agent framework are the fields of the
    class [World]; every theorem holds for every world.

    The two tiers of concurrency are modelled by their interleavings.  A
    call of [process_attendees] is a state of its coroutines ([fanout]) that
    the event loop advances one coroutine at a time, in any order the
    semaphore allows; [analyze] is a state of its batches ([pool]) that the
    worker threads advance, in any order the width of the pool allows.  The
    properties are stated on every state these steps can reach. *)

From Stdlib Require Import ZArith NArith QArith String Ascii List Lia Btauto.
From stdpp Require Import base option list gmap strings.

Open Scope nat_scope.

(* ===================================================================== *)
(** * Part I: definitions                                                 *)
(* ===================================================================== *)

(* --------------------------------------------------------------------- *)
(** ** Python strings                                                     *)
(* --------------------------------------------------------------------- *)

(** A Python [str] is a sequence of Unicode code points. *)
Abbreviation pystr := (list N).

(** The code points of an ASCII literal of the source. *)
Definition py (s : string) : pystr :=
  map N_of_ascii (list_ascii_of_string s).

(** The double quote, the backtick and the at sign. *)
Definition dquote : N := 34%N.
Definition backtick : N := 96%N.
Definition at_sign : N := 64%N.

(** [quoted s] is the source literal [s] between double quotes. *)
Definition quoted (s : string) : pystr := dquote :: py s ++ [dquote].

(** [str.isspace] on one code point, which is also the class [\s] of a
    [str] pattern: the characters CPython lists as whitespace. *)
Definition is_space (c : N) : bool :=
  ((9 <=? c) && (c <=? 13) || (28 <=? c) && (c <=? 32)
   || (c =? 133) || (c =? 160) || (c =? 5760)
   || (8192 <=? c) && (c <=? 8202)
   || (c =? 8232) || (c =? 8233) || (c =? 8239) || (c =? 8287)
   || (c =? 12288))%N.

Fixpoint drop_while (f : N → bool) (s : pystr) : pystr :=
  match s with
  | c :: s' => if f c then drop_while f s' else s
  | [] => []
  end.

(** [text.strip()] *)
Definition lstrip (s : pystr) : pystr := drop_while is_space s.
Definition rstrip (s : pystr) : pystr := rev (drop_while is_space (rev s)).
Definition strip (s : pystr) : pystr := rstrip (lstrip s).

Fixpoint starts_with (p s : pystr) : bool :=
  match p, s with
  | [], _ => true
  | c :: p', x :: s' => (c =? x)%N && starts_with p' s'
  | _ :: _, [] => false
  end.

(** [needle in hay] on two strings. *)
Fixpoint contains (needle hay : pystr) : bool :=
  starts_with needle hay
  || match hay with
     | [] => false
     | _ :: hay' => contains needle hay'
     end.

(** [s.split(sep)] for a one-character separator. *)
Fixpoint split_on (sep : N) (s : pystr) : list pystr :=
  match s with
  | [] => [[]]
  | c :: s' =>
      if (c =? sep)%N then [] :: split_on sep s'
      else match split_on sep s' with
           | part :: parts => (c :: part) :: parts
           | [] => [[c]]
           end
  end.

(** [parts[-1]] on the result of a split, which is never empty. *)
Definition last_part (parts : list pystr) : pystr := default [] (last parts).

(* --------------------------------------------------------------------- *)
(** ** The regular expressions of the source                              *)
(* --------------------------------------------------------------------- *)

(** The patterns of the source are sequences of: a literal character, a
    character class, an optional literal group [(?:lit)?], and a class under
    the greedy quantifiers [*] and [+]. *)
Inductive citem : Type :=
  | COne (c : N)
  | CRange (lo hi : N)
  | CSpace.

Record cset : Type := { negated : bool; items : list citem }.

Inductive piece : Type :=
  | PChr (c : N)
  | PSet (cs : cset)
  | POpt (lit : pystr)
  | PStar (cs : cset)
  | PPlus (cs : cset).

Definition citem_mem (c : N) (i : citem) : bool :=
  match i with
  | COne x => (c =? x)%N
  | CRange lo hi => ((lo <=? c) && (c <=? hi))%N
  | CSpace => is_space c
  end.

Definition cset_mem (cs : cset) (c : N) : bool :=
  xorb (negated cs) (existsb (citem_mem c) (items cs)).

(** A class under [*]: the longest run first, then shorter ones, each
    followed by the rest of the pattern [k]. The result is the number of
    characters the match consumes. *)
Fixpoint match_star (cs : cset) (k : pystr → option nat) (s : pystr)
  : option nat :=
  match s with
  | c :: s' =>
      if cset_mem cs c then
        match match_star cs k s' with
        | Some n => Some (S n)
        | None => k s
        end
      else k s
  | [] => k []
  end.

(** [match_at p s]: the match of [p] anchored at the start of [s] that the
    backtracking matcher finds first. *)
Fixpoint match_at (p : list piece) (s : pystr) : option nat :=
  match p with
  | [] => Some 0
  | PChr c :: p' =>
      match s with
      | x :: s' => if (x =? c)%N then S <$> match_at p' s' else None
      | [] => None
      end
  | PSet cs :: p' =>
      match s with
      | x :: s' => if cset_mem cs x then S <$> match_at p' s' else None
      | [] => None
      end
  | POpt lit :: p' =>
      if starts_with lit s then
        match match_at p' (drop (length lit) s) with
        | Some n => Some (length lit + n)
        | None => match_at p' s
        end
      else match_at p' s
  | PStar cs :: p' => match_star cs (match_at p') s
  | PPlus cs :: p' =>
      match s with
      | x :: s' =>
          if cset_mem cs x then S <$> match_star cs (match_at p') s' else None
      | [] => None
      end
  end.

(** [re.sub(p, repl, s)] with a constant replacement: scan from the left;
    where the pattern matches, emit [repl] and resume after the match; an
    empty match emits [repl] and copies the character. [skip] counts the
    characters of the current match still to be dropped. *)
Fixpoint sub_from (p : list piece) (repl : pystr) (skip : nat) (s : pystr)
  : pystr :=
  match s with
  | [] =>
      match skip, match_at p [] with
      | 0, Some _ => repl
      | _, _ => []
      end
  | c :: s' =>
      match skip with
      | S k => sub_from p repl k s'
      | 0 =>
          match match_at p s with
          | Some (S n) => repl ++ sub_from p repl n s'
          | Some 0 => repl ++ c :: sub_from p repl 0 s'
          | None => c :: sub_from p repl 0 s'
          end
      end
  end.

Definition re_sub (p : list piece) (repl s : pystr) : pystr :=
  sub_from p repl 0 s.

Definition lit (s : string) : list piece := map PChr (py s).
Definition qlit (s : string) : list piece := map PChr (quoted s).
Definition space : cset := {| negated := false; items := [CSpace] |}.

(** [r'```(?:json)?\s*'] *)
Definition fence_open : list piece :=
  lit "```" ++ [POpt (py "json"); PStar space].

(** [r'\s*```'] *)
Definition fence_close : list piece :=
  PStar space :: lit "```".

(** [\s+or\s+] *)
Definition or_gap : list piece :=
  PPlus space :: lit "or" ++ [PPlus space].

(** The first pattern of the table of [clean_json_text]: the quoted
    literals Pharmaceutical, Healthcare and Other, joined by [\s+or\s+]. *)
Definition category_alt : list piece :=
  qlit "Pharmaceutical" ++ or_gap ++ qlit "Healthcare" ++ or_gap
  ++ qlit "Other".

(** The second pattern of the table: the quoted literals Pharma, Oncology,
    Women's Health, Organ Studies and Not a Lead, joined by [\s+or\s+]. *)
Definition lead_alt : list piece :=
  qlit "Pharma" ++ or_gap ++ qlit "Oncology" ++ or_gap
  ++ qlit "Women's Health" ++ or_gap ++ qlit "Organ Studies" ++ or_gap
  ++ qlit "Not a Lead".

(** The characters the aggressive cleaning keeps: the brackets, the braces,
    the double quote, the comma, the colon, [a-zA-Z0-9], the underscore, the
    hyphen and [\s]. *)
Definition kept_items : list citem :=
  [COne 91; COne 93; COne 123; COne 125; COne 34; COne 44; COne 58;
   CRange 97 122; CRange 65 90; CRange 48 57; COne 95; COne 45; CSpace]%N.

(** The negated class over [kept_items]. *)
Definition noise : list piece :=
  [PSet {| negated := true; items := kept_items |}].

(** [clean_json_text] *)
Definition clean_json_text (text : pystr) : pystr :=
  let text := re_sub fence_open [] text in
  let text := re_sub fence_close [] text in
  let text := strip text in
  let text := re_sub category_alt (quoted "Pharmaceutical") text in
  let text := re_sub lead_alt (quoted "Pharma") text in
  text.

(** The second cleaning of [process_batch_async]: every match of [noise] is
    replaced by the empty string. *)
Definition aggressive_clean (text : pystr) : pystr := re_sub noise [] text.

(* --------------------------------------------------------------------- *)
(** ** Values, exceptions and the outside world                           *)
(* --------------------------------------------------------------------- *)

(** The result of code that may raise; [Raises e] carries [str(e)]. *)
Inductive reply (A : Type) : Type :=
  | Returns (a : A)
  | Raises (e : pystr).
Arguments Returns {A} a.
Arguments Raises {A} e.

#[global] Instance reply_ret : MRet reply := λ A a, Returns a.
#[global] Instance reply_bind : MBind reply := λ A B k m,
  match m with
  | Returns a => k a
  | Raises e => Raises e
  end.

(** [try: body / except Exception as e: handler(e)] *)
Definition try_except {A} (body : reply A) (handler : pystr → reply A)
  : reply A :=
  match body with
  | Returns a => Returns a
  | Raises e => handler e
  end.

(** The values an attendee dictionary holds: the normalizer stores text, and
    [None] where it found nothing. *)
Inductive pyval : Type :=
  | PyNone
  | PyStr (s : pystr).

Abbreviation attendee := (gmap string pyval).

(** [d.get(key, '')] *)
Definition get (d : attendee) (key : string) : pyval :=
  default (PyStr []) (d !! key).

(** Truth value of [v], as in [if v:] and [v or ...]. *)
Definition truthy (v : pyval) : bool :=
  match v with
  | PyStr (_ :: _) => true
  | _ => false
  end.

(** [v or alt], for a text [alt]: always text. *)
Definition or_else (v : pyval) (alt : pystr) : pystr :=
  match v with
  | PyStr (c :: s) => c :: s
  | _ => alt
  end.

(** [v] inside an f-string. *)
Definition fmt (v : pyval) : pystr :=
  match v with
  | PyNone => py "None"
  | PyStr s => s
  end.

(** What [json.loads] produces. A float is kept as its literal. *)
#[warnings="-register-all"]
Inductive jval : Type :=
  | JNone
  | JBool (b : bool)
  | JInt (z : Z)
  | JFloat (literal : pystr)
  | JStr (s : pystr)
  | JList (l : list jval)
  | JDict (entries : list (pystr * jval)).

(** [json.loads(text)]: the value, or [json.JSONDecodeError], or another
    exception (a [RecursionError] on deep nesting, a [ValueError] on an
    integer literal that is too long). *)
Inductive loads_reply : Type :=
  | Parsed (v : jval)
  | JSONDecodeError (e : pystr)
  | OtherError (e : pystr).

(** What the chat completion endpoint returns: the [message.content] of each
    choice, [None] for a choice without content. *)
Abbreviation completion := (list (option pystr)).

(** The collaborators of the engine.
    - [json_loads]: the decoder of the standard library.
    - [create b i query]: the completion the remote service gives to the
      search for item [i] of batch [b].
    - [crew_setup b]: the exception, if any, that building the agent, the
      task (its description formatted with the search results) and the crew
      of batch [b] raises.
    - [kickoff b]: [crew.kickoff()] for batch [b], giving [result.raw].
    The one fact assumed of them is the value of [json.loads] on the text
    the engine itself writes. *)
Class World : Type := {
  json_loads : pystr → loads_reply;
  create : nat → nat → pystr → reply completion;
  crew_setup : nat → option pystr;
  kickoff : nat → reply pystr;
  (** [json.loads('[]')] is the empty list. *)
  loads_empty_list : json_loads (py "[]") = Parsed (JList []);
}.

(* --------------------------------------------------------------------- *)
(** ** [AsyncWebSearchTool]                                               *)
(* --------------------------------------------------------------------- *)

(** [f"No results found for query: '{query}'"] *)
Definition no_results (query : pystr) : pystr :=
  py "No results found for query: '" ++ query ++ py "'".

(** [_run_async], given the answer of the remote service. *)
Definition run_async (answer : reply completion) (query : pystr) : pystr :=
  match answer with
  | Returns (Some (c :: content) :: _) => c :: content
  | Returns _ => no_results query
  | Raises e => py "Error performing web search: " ++ e
  end.

(** [execute_async({"query": query})]: the dictionary has the key [query]. *)
Definition execute_async (answer : pystr → reply completion) (query : pystr)
  : reply pystr :=
  Returns (run_async (answer query) query).

(* --------------------------------------------------------------------- *)
(** ** [AsyncAttendeeProcessor.process_attendee]                          *)
(* --------------------------------------------------------------------- *)

(** The dictionary [process_attendee] returns. *)
Record outcome : Type := {
  person_name : pystr;
  organization : pystr;
  email : pystr;
  company_domain : pystr;
  search_result : pystr;
}.

(** [f"{first_name} {last_name}".strip()], and [Unknown] when it is empty. *)
Definition person_name_of (a : attendee) : pystr :=
  match strip (fmt (get a "first_name") ++ py " " ++ fmt (get a "last_name")) with
  | [] => py "Unknown"
  | name => name
  end.

(** [email.split('@')[-1] if '@' in email else dflt]; the test raises a
    [TypeError] when [email] is [None]. *)
Definition domain_of (email : pyval) (dflt : pystr) : reply pystr :=
  match email with
  | PyNone => Raises (py "argument of type 'NoneType' is not iterable")
  | PyStr s =>
      Returns (if bool_decide (at_sign ∈ s)
               then last_part (split_on at_sign s)
               else dflt)
  end.

Definition text_of (v : pyval) : pystr :=
  match v with
  | PyNone => []
  | PyStr s => s
  end.

Definition search_query_of (name : pystr) (org : pyval) : pystr :=
  let base_query :=
    if truthy org then name ++ py " " ++ fmt org ++ py " "
    else name ++ py " " in
  base_query ++ py " pharmaceutical executive OR researcher OR scientist. "
  ++ py "Is " ++ name
  ++ py " associated with pharmaceutical industry, oncology, women's health, "
  ++ py "or organ studies research? What therapeutic areas does " ++ fmt org
  ++ py " focus on? "
  ++ py "Role in clinical trials or drug development?".

(** [process_attendee], over the search tool [search] of the processor. *)
Definition process_attendee (search : pystr → reply pystr) (a : attendee)
  : reply outcome :=
  try_except
    (let org := get a "organization" in
     let mail := get a "email" in
     let name := person_name_of a in
     domain ← domain_of mail [];
     found ← search (search_query_of name org);
     mret {| person_name := name;
             organization := or_else org (py "Unknown");
             email := text_of mail;
             company_domain := or_else (PyStr domain) (py "unknown.com");
             search_result := found |})
    (λ e,
     domain ← domain_of (get a "email") (py "unknown.com");
     mret {| person_name := person_name_of a;
             organization := or_else (get a "organization") (py "Unknown");
             email := text_of (get a "email");
             company_domain := domain;
             search_result := py "Error: " ++ e |}).

(* --------------------------------------------------------------------- *)
(** ** [AsyncAttendeeProcessor.process_attendees]                         *)
(* --------------------------------------------------------------------- *)

Module AsyncAttendeeProcessor.
(** The fields of the processor; [search_tool i] is the tool as item [i]
    of the batch calls it. *)
Record t : Type := {
  max_concurrent_searches : Z;
  rate_limit_delay : Q;
  search_tool : nat → pystr → reply pystr;
}.
End AsyncAttendeeProcessor.

Abbreviation processor := AsyncAttendeeProcessor.t.

(** [self.rate_limit_delay > 0] *)
Definition delay_is_positive (p : processor) : bool :=
  negb (Qle_bool (AsyncAttendeeProcessor.rate_limit_delay p) 0).

(** Where one [process_with_semaphore(attendee)] coroutine stands. *)
Inductive task : Type :=
  | Waiting                        (* before [async with semaphore] *)
  | Sleeping                       (* permit held, in [asyncio.sleep] *)
  | Searching                      (* permit held, in [process_attendee] *)
  | Finished (r : reply outcome).  (* permit released, result delivered *)

(** What a coroutine has done, as it happens. *)
Inductive event : Type :=
  | Acquired (i : nat)
  | Slept (i : nat) (d : Q)
  | Searched (i : nat)
  | Released (i : nat).

(** The state of one [process_attendees] call: the value of the semaphore,
    the coroutines handed to [asyncio.gather] in the order of the input, the
    first exception a coroutine raised, and what happened so far. *)
Record fanout : Type := {
  permits : nat;
  tasks : list task;
  raised : option pystr;
  trace : list event;
}.

(** The state right after [asyncio.gather] was handed the coroutines. *)
Definition fanout_init (p : processor) (batch : list attendee) : fanout :=
  {| permits := Z.to_nat (AsyncAttendeeProcessor.max_concurrent_searches p);
     tasks := replicate (length batch) Waiting;
     raised := None;
     trace := [] |}.

(** One step of coroutine [i], as the event loop resumes it:
    - [async with semaphore] is entered when a permit is free;
    - the sleep, taken when the delay is positive, ends;
    - [process_attendee] completes, the permit is given back and the result
      (or the exception) reaches [gather]. *)
Definition process_with_semaphore (p : processor) (batch : list attendee)
    (i : nat) (f : fanout) : option fanout :=
  match tasks f !! i, batch !! i with
  | Some Waiting, Some _ =>
      match permits f with
      | S free =>
          Some {| permits := free;
                  tasks := <[i := if delay_is_positive p then Sleeping
                                  else Searching]> (tasks f);
                  raised := raised f;
                  trace := trace f ++ [Acquired i] |}
      | 0 => None
      end
  | Some Sleeping, Some _ =>
      Some {| permits := permits f;
              tasks := <[i := Searching]> (tasks f);
              raised := raised f;
              trace := trace f
                       ++ [Slept i (AsyncAttendeeProcessor.rate_limit_delay p)] |}
  | Some Searching, Some a =>
      let r := process_attendee (AsyncAttendeeProcessor.search_tool p i) a in
      Some {| permits := S (permits f);
              tasks := <[i := Finished r]> (tasks f);
              raised := match raised f, r with
                        | None, Raises e => Some e
                        | first, _ => first
                        end;
              trace := trace f ++ [Searched i; Released i] |}
  | _, _ => None
  end.

(** The results of the coroutines, in the order [gather] was given them,
    once every one has returned. *)
Fixpoint results_of (ts : list task) : option (list outcome) :=
  match ts with
  | [] => Some []
  | Finished (Returns o) :: ts' => (o ::.) <$> results_of ts'
  | _ :: _ => None
  end.

(** What [await asyncio.gather(...)] gives, when it gives something: the
    first exception raised, or the list of all the results. *)
Definition gathered (f : fanout) : option (reply (list outcome)) :=
  match raised f with
  | Some e => Some (Raises e)
  | None => Returns <$> results_of (tasks f)
  end.

(** The event loop runs a coroutine only while [gather] is pending. *)
Definition fanout_step (p : processor) (batch : list attendee)
    (f f' : fanout) : Prop :=
  gathered f = None ∧ ∃ i, process_with_semaphore p batch i f = Some f'.

(** The states a [process_attendees] call on a non-empty batch can be in. *)
Definition fanout_reachable (p : processor) (batch : list attendee)
    (f : fanout) : Prop :=
  rtc (fanout_step p batch) (fanout_init p batch) f.

(** The event loop resuming the coroutines in the order [schedule]. *)
Fixpoint run_schedule (p : processor) (batch : list attendee)
    (schedule : list nat) (f : fanout) : option fanout :=
  match schedule with
  | [] => Some f
  | i :: rest =>
      match gathered f with
      | Some _ => None
      | None =>
          f' ← process_with_semaphore p batch i f;
          run_schedule p batch rest f'
      end
  end.

(** [process_attendees]: [Some r] when the call ends with [r] in the state
    [f] of its coroutines ([None] while it is running). An empty list returns
    at once; [asyncio.Semaphore] refuses a negative value. *)
Definition process_attendees (p : processor) (batch : list attendee)
    (f : fanout) : option (reply (list outcome)) :=
  match batch with
  | [] => Some (Returns [])
  | _ :: _ =>
      if (AsyncAttendeeProcessor.max_concurrent_searches p <? 0)%Z
      then Some (Raises (py "Semaphore initial value must be >= 0"))
      else gathered f
  end.

(** The sum of [w] over a list, and the number of its elements with [P]. *)
Fixpoint tally {A} (w : A → nat) (l : list A) : nat :=
  match l with
  | [] => 0
  | x :: l' => w x + tally w l'
  end.

Definition count_where {A} (P : A → bool) (l : list A) : nat :=
  tally (λ x, if P x then 1 else 0) l.

(** The coroutines inside [async with semaphore], and those whose
    enrichment call is under way. *)
Definition holds_permit (t : task) : bool :=
  match t with
  | Sleeping | Searching => true
  | _ => false
  end.

Definition is_searching (t : task) : bool :=
  match t with
  | Searching => true
  | _ => false
  end.

Definition holders (f : fanout) : nat := count_where holds_permit (tasks f).
Definition in_flight (f : fanout) : nat := count_where is_searching (tasks f).

(* --------------------------------------------------------------------- *)
(** ** [preprocess_attendees] and the batch plan                          *)
(* --------------------------------------------------------------------- *)

(** [l[start:stop]] for integers [start] and [stop]. *)
Definition slice {A} (l : list A) (start stop : Z) : list A :=
  let n := Z.of_nat (length l) in
  let clamp i := if (i <? 0)%Z then Z.max 0 (i + n) else Z.min i n in
  let a := clamp start in
  let b := clamp stop in
  take (Z.to_nat (b - a)) (drop (Z.to_nat a) l).

(** [(total_attendees + batch_size - 1)//batch_size] *)
Definition batch_count (total_attendees batch_size : Z) : reply Z :=
  if (batch_size =? 0)%Z
  then Raises (py "integer division or modulo by zero")
  else Returns ((total_attendees + batch_size - 1) / batch_size)%Z.

(** [preprocess_attendees]; the banner it prints divides by [batch_size]. *)
Definition preprocess_attendees (attendees : list attendee)
    (batch_size batch_index : Z) : reply (list attendee) :=
  let total_attendees := Z.of_nat (length attendees) in
  let batch_start := (batch_index * batch_size)%Z in
  let batch_end := Z.min (batch_start + batch_size) total_attendees in
  let current_batch := slice attendees batch_start batch_end in
  _ ← batch_count total_attendees batch_size;
  mret current_batch.

(* --------------------------------------------------------------------- *)
(** ** [PharmaCrew]: one batch                                            *)
(* --------------------------------------------------------------------- *)

Module PharmaCrew.
Record t : Type := {
  attendees : list attendee;
  batch_size : Z;
  max_workers : Z;
  max_concurrent_searches : Z;
  use_async_processing : bool;
}.
End PharmaCrew.

Abbreviation crew := PharmaCrew.t.

(** What a batch reports on its way, in order: the messages it prints and
    the texts it hands to [json.loads]. *)
Inductive note : Type :=
  | TelemetrySkipped          (* AgentOps telemetry error caught *)
  | Decoding (text : pystr)   (* a call of [json.loads] *)
  | ProcessedOk (n : nat)     (* Batch processed successfully *)
  | ParseError (e : pystr)    (* Error parsing JSON *)
  | Recovered (n : nat)       (* Recovered batch with aggressive cleaning *)
  | Skipped                   (* Could not recover, skipping this batch *)
  | BatchError (e : pystr).   (* Error in (async|crew) processing for batch *)

Definition type_name (v : jval) : string :=
  match v with
  | JNone => "NoneType"
  | JBool _ => "bool"
  | JInt _ => "int"
  | JFloat _ => "float"
  | JStr _ => "str"
  | JList _ => "list"
  | JDict _ => "dict"
  end.

(** [len(v)] *)
Definition len (v : jval) : reply nat :=
  match v with
  | JStr s => Returns (length s)
  | JList l => Returns (length l)
  | JDict entries => Returns (length entries)
  | _ => Raises (py "object of type '" ++ py (type_name v) ++ py "' has no len()")
  end.

(** [list(v)], as [list.extend(v)] walks it: the items of a list, the keys
    of a dictionary, the characters of a text. *)
Definition iterate (v : jval) : reply (list jval) :=
  match v with
  | JList l => Returns l
  | JDict entries => Returns (map (λ kv, JStr kv.1) entries)
  | JStr s => Returns (map (λ c, JStr [c]) s)
  | _ => Raises (py "'" ++ py (type_name v) ++ py "' object is not iterable")
  end.

(** The test on [str(e)] that recognises the telemetry error. *)
Definition is_telemetry_error (e : pystr) : bool :=
  contains (py "NoApiKeyException") e || contains (py "AgentOps") e.

(** From [cleaned_text = clean_json_text(result.raw)] to the [return] of the
    two parsing attempts. *)
Definition decode_results `{World} (raw : pystr) : list note * reply jval :=
  let cleaned_text := clean_json_text raw in
  match json_loads cleaned_text with
  | Parsed batch_results =>
      match len batch_results with
      | Returns n =>
          ([Decoding cleaned_text; ProcessedOk n], Returns batch_results)
      | Raises e => ([Decoding cleaned_text], Raises e)
      end
  | JSONDecodeError e =>
      let cleaned_again := aggressive_clean cleaned_text in
      let attempts :=
        [Decoding cleaned_text; ParseError e; Decoding cleaned_again] in
      match json_loads cleaned_again with
      | Parsed batch_results =>
          match len batch_results with
          | Returns n => (attempts ++ [Recovered n], Returns batch_results)
          | Raises _ => (attempts ++ [Skipped], Returns (JList []))
          end
      | _ => (attempts ++ [Skipped], Returns (JList []))
      end
  | OtherError e => ([Decoding cleaned_text], Raises e)
  end.

(** The classification of batch [b]: the agent, the task and the crew are
    built, [crew.kickoff()] runs, the telemetry error is replaced by the
    text of an empty array, and the result is decoded. *)
Definition classify `{World} (b : nat) : list note * reply jval :=
  match crew_setup b with
  | Some e => ([], Raises e)
  | None =>
      match kickoff b with
      | Returns raw => decode_results raw
      | Raises e =>
          if is_telemetry_error e then
            let '(notes, r) := decode_results (py "[]") in
            (TelemetrySkipped :: notes, r)
          else ([], Raises e)
      end
  end.

(** The outermost [except Exception] of [process_batch_async] and of
    [process_batch_with_crew]: report and return the empty list. *)
Definition at_boundary (x : list note * reply jval) : list note * jval :=
  match x with
  | (notes, Returns v) => (notes, v)
  | (notes, Raises e) => (notes ++ [BatchError e], JList [])
  end.

(** [process_batch_with_crew] *)
Definition process_batch_with_crew `{World} (b : nat) : list note * jval :=
  at_boundary (classify b).

(** [process_batch_async], from the moment [process_attendees] has ended
    with [searched]. *)
Definition process_batch_async `{World} (b : nat)
    (searched : reply (list outcome)) : list note * jval :=
  at_boundary
    match searched with
    | Returns search_results => classify b
    | Raises e => ([], Raises e)
    end.

(** The processor [process_batch_async] creates for batch [b]. *)
Definition processor_of `{World} (c : crew) (b : nat) : processor :=
  {| AsyncAttendeeProcessor.max_concurrent_searches :=
       PharmaCrew.max_concurrent_searches c;
     AsyncAttendeeProcessor.rate_limit_delay := 1 # 2;
     AsyncAttendeeProcessor.search_tool := λ i, execute_async (create b i) |}.

(** Where the [process_batch(b)] call of a worker stands. [Finishing] holds
    what [process_attendees] ended with, and nothing when the batch is
    processed without the asynchronous search. *)
Inductive batch_state : Type :=
  | Pending
  | Gathering (batch : list attendee) (f : fanout)
  | Finishing (searched : option (reply (list outcome)))
  | Completed (notes : list note) (batch_results : jval)
  | Absorbed (notes : list note) (batch_results : jval).

(** The steps of a worker inside [process_batch(b)]. *)
Inductive step_kind : Type :=
  | Enter                  (* the worker takes the batch *)
  | Resume (i : nat)       (* its event loop resumes coroutine [i] *)
  | Gather                 (* [process_attendees] ends *)
  | Finish.                (* the rest of the call, up to its [return] *)

(** [process_batch], step by step. *)
Definition process_batch `{World} (c : crew) (b : nat) (k : step_kind)
    (st : batch_state) : option batch_state :=
  match k, st with
  | Enter, Pending =>
      match preprocess_attendees (PharmaCrew.attendees c)
              (PharmaCrew.batch_size c) (Z.of_nat b) with
      | Raises e => Some (Completed [BatchError e] (JList []))
      | Returns current_batch =>
          if PharmaCrew.use_async_processing c
          then Some (Gathering current_batch
                       (fanout_init (processor_of c b) current_batch))
          else Some (Finishing None)
      end
  | Resume i, Gathering batch f =>
      match process_attendees (processor_of c b) batch f with
      | None =>
          Gathering batch <$> process_with_semaphore (processor_of c b) batch i f
      | Some _ => None
      end
  | Gather, Gathering batch f =>
      Finishing ∘ Some <$> process_attendees (processor_of c b) batch f
  | Finish, Finishing (Some searched) =>
      let '(notes, batch_results) := process_batch_async b searched in
      Some (Completed notes batch_results)
  | Finish, Finishing None =>
      let '(notes, batch_results) := process_batch_with_crew b in
      Some (Completed notes batch_results)
  | _, _ => None
  end.

(* --------------------------------------------------------------------- *)
(** ** [PharmaCrew.analyze]: the pool of workers                          *)
(* --------------------------------------------------------------------- *)

(** The futures of the submitted batches, by batch index, and
    [self.all_results]. *)
Record pool : Type := {
  batches : list batch_state;
  all_results : list jval;
}.

(** A batch occupies a worker from the moment it is taken to the moment its
    future is done. *)
Definition is_running (st : batch_state) : bool :=
  match st with
  | Gathering _ _ | Finishing _ => true
  | _ => false
  end.

Definition running (s : pool) : nat := count_where is_running (batches s).

(** [self.all_results.extend(batch_results)] under the [try] of [analyze]:
    a value that cannot be walked leaves the list as it is. *)
Definition extend (results : list jval) (batch_results : jval) : list jval :=
  match iterate batch_results with
  | Returns l => results ++ l
  | Raises _ => results
  end.

(** What can happen next: a worker advances its batch, or the loop over
    [as_completed] receives a finished batch. *)
Inductive action : Type :=
  | Work (b : nat) (k : step_kind)
  | Absorb (b : nat).

(** One step of the pool of [workers] threads. A batch is taken only when a
    thread is idle. *)
Definition pool_step `{World} (c : crew) (workers : nat) (a : action)
    (s : pool) : option pool :=
  match a with
  | Work b k =>
      st ← batches s !! b;
      st' ← process_batch c b k st;
      match k with
      | Enter =>
          if decide (running s < workers)
          then Some {| batches := <[b := st']> (batches s);
                       all_results := all_results s |}
          else None
      | _ => Some {| batches := <[b := st']> (batches s);
                     all_results := all_results s |}
      end
  | Absorb b =>
      match batches s !! b with
      | Some (Completed notes batch_results) =>
          Some {| batches := <[b := Absorbed notes batch_results]> (batches s);
                  all_results := extend (all_results s) batch_results |}
      | _ => None
      end
  end.

(** The number of batches and the width of the pool:
    [total_batches = (total_attendees + batch_size - 1) // batch_size] and
    [ThreadPoolExecutor(max_workers=min(max_workers, total_batches))], which
    refuses a width that is not positive. *)
Definition plan (c : crew) : reply (nat * nat) :=
  total_batches ← batch_count (Z.of_nat (length (PharmaCrew.attendees c)))
                     (PharmaCrew.batch_size c);
  let width := Z.min (PharmaCrew.max_workers c) total_batches in
  if (width <=? 0)%Z
  then Raises (py "max_workers must be greater than 0")
  else Returns (Z.to_nat total_batches, Z.to_nat width).

(** Every batch of [range(total_batches)] submitted, [all_results] empty. *)
Definition pool_init (total_batches : nat) : pool :=
  {| batches := replicate total_batches Pending; all_results := [] |}.

Definition pool_next `{World} (c : crew) (workers : nat) (s s' : pool) : Prop :=
  ∃ a, pool_step c workers a s = Some s'.

(** The states the pool of [analyze] can be in; there is a pool only when
    there are attendees and the planning succeeds. *)
Definition pool_reachable `{World} (c : crew) (s : pool) : Prop :=
  PharmaCrew.attendees c ≠ []
  ∧ ∃ total_batches workers,
      plan c = Returns (total_batches, workers)
      ∧ rtc (pool_next c workers) (pool_init total_batches) s.

(** The pool taking the steps [actions] in order. *)
Fixpoint run_pool `{World} (c : crew) (workers : nat) (actions : list action)
    (s : pool) : option pool :=
  match actions with
  | [] => Some s
  | a :: rest => s' ← pool_step c workers a s; run_pool c workers rest s'
  end.

Definition is_absorbed (st : batch_state) : bool :=
  match st with
  | Absorbed _ _ => true
  | _ => false
  end.

(** [analyze]: [Some results] when the call returns [results] with its pool
    in state [s] ([None] while batches are outstanding). Without attendees,
    and when planning raises, it returns the empty list at once. *)
Definition analyze `{World} (c : crew) (s : pool) : option (list jval) :=
  match PharmaCrew.attendees c with
  | [] => Some []
  | _ :: _ =>
      match plan c with
      | Raises _ => Some []
      | Returns _ =>
          if forallb is_absorbed (batches s) then Some (all_results s)
          else None
      end
  end.

(** What a batch has put into [all_results]. *)
Definition absorbed (st : batch_state) : list jval :=
  match st with
  | Absorbed _ v =>
      match iterate v with
      | Returns records => records
      | Raises _ => []
      end
  | _ => []
  end.

(* --------------------------------------------------------------------- *)
(** ** Vocabulary of the properties                                       *)
(* --------------------------------------------------------------------- *)


(** The text of an alternation: quoted members joined by the word [or]
    between two gaps. *)
Definition alternation (first : string) (rest : list (pystr * pystr * string))
  : pystr :=
  quoted first
  ++ flat_map (λ '(before, after, member),
                 before ++ py "or" ++ after ++ quoted member) rest.









(** The characters that survive the aggressive cleaning: the brackets, the
    braces, the double quote, the comma, the colon, the underscore, the
    hyphen, the ASCII letters and digits, and whitespace. *)
Definition is_alnum (c : N) : bool :=
  ((97 <=? c) && (c <=? 122) || (65 <=? c) && (c <=? 90)
   || (48 <=? c) && (c <=? 57))%N.

Definition allowed (c : N) : bool :=
  bool_decide (c ∈ py "[]{}" ++ [dquote] ++ py ",:_-")
  || is_alnum c || is_space c.

(** An attendee whose [email] is text, as the normalizer guarantees (a
    missing key reads as the empty text). *)
Definition has_mail (a : attendee) : Prop := ∃ mail, get a "email" = PyStr mail.

(** The coroutine an event belongs to, and the events of one coroutine. *)
Definition event_task (e : event) : nat :=
  match e with
  | Acquired i | Slept i _ | Searched i | Released i => i
  end.

Definition events_of (i : nat) (tr : list event) : list event :=
  List.filter (λ e, event_task e =? i) tr.

(** The claim that the pacing delay comes before the permit: whenever
    coroutine [i] has acquired, it has slept before. *)
Definition sleeps_before_acquiring (tr : list event) (i : nat) (d : Q) : Prop :=
  ∀ pre post, tr = pre ++ Acquired i :: post → Slept i d ∈ pre.

(** The steps a coroutine, a fanout and a batch still have before them. *)
Definition task_weight (t : task) : nat :=
  match t with
  | Waiting => 3
  | Sleeping => 2
  | Searching => 1
  | Finished _ => 0
  end.

Definition remaining (f : fanout) : nat := tally task_weight (tasks f).

Definition batch_weight (total_attendees : nat) (st : batch_state) : nat :=
  match st with
  | Pending => 3 * total_attendees + 4
  | Gathering _ f => remaining f + 3
  | Finishing _ => 2
  | Completed _ _ => 1
  | Absorbed _ _ => 0
  end.

Definition outstanding (c : crew) (s : pool) : nat :=
  tally (batch_weight (length (PharmaCrew.attendees c))) (batches s).

(** The enrichment calls under way in a batch, and in the whole pool. *)
Definition batch_in_flight (st : batch_state) : nat :=
  match st with
  | Gathering _ f => in_flight f
  | _ => 0
  end.

Definition total_in_flight (s : pool) : nat := tally batch_in_flight (batches s).

(** The records batch [b] delivers when its classification succeeds; none
    when it raises. *)
Definition classified `{World} (b : nat) : list jval :=
  match classify b with
  | (_, Returns v) =>
      match iterate v with
      | Returns records => records
      | Raises _ => []
      end
  | (_, Raises _) => []
  end.

(* --------------------------------------------------------------------- *)
(** ** Invariants                                                         *)
(* --------------------------------------------------------------------- *)

(** What holds of every state of a [process_attendees] call: one
    coroutine per attendee; every permit is free or held by a coroutine
    inside [async with semaphore]; a delivered result is what
    [process_attendee] gives for the attendee at that position; and the
    exception [gather] holds is one a coroutine raised. *)
Record fanout_inv (p : processor) (batch : list attendee) (f : fanout)
  : Prop := {
  inv_length : length (tasks f) = length batch;
  inv_permits :
    permits f + holders f
    = Z.to_nat (AsyncAttendeeProcessor.max_concurrent_searches p);
  inv_results : ∀ i r,
    tasks f !! i = Some (Finished r) →
    ∃ a, batch !! i = Some a
      ∧ r = process_attendee (AsyncAttendeeProcessor.search_tool p i) a;
  inv_raised :
    match raised f with
    | None => ∀ i r, tasks f !! i = Some (Finished r) → ∃ o, r = Returns o
    | Some e => ∃ i, tasks f !! i = Some (Finished (Raises e))
    end;
}.

(** What coroutine [i] has done by the time it is in state [t]. *)
Definition script (p : processor) (i : nat) (t : task) : list event :=
  let woken :=
    if delay_is_positive p
    then [Slept i (AsyncAttendeeProcessor.rate_limit_delay p)] else [] in
  match t with
  | Waiting => []
  | Sleeping => [Acquired i]
  | Searching => Acquired i :: woken
  | Finished _ => Acquired i :: woken ++ [Searched i; Released i]
  end.

(** The trace of a call, coroutine by coroutine, is the script of the state
    the coroutine is in; a coroutine sleeps only under a positive delay. *)
Definition trace_inv (p : processor) (f : fanout) : Prop :=
  ∀ i, events_of i (trace f) = from_option (script p i) [] (tasks f !! i)
       ∧ (tasks f !! i = Some Sleeping → delay_is_positive p = true).

(** What holds of every state of the pool of [analyze]: one future per
    planned batch; no more batches running than worker threads; a batch in
    its fanout works on its own slice of the attendees, in a state that
    fanout can reach; and [all_results] holds what the absorbed batches
    returned, in some order. *)
Record pool_inv `{World} (c : crew) (total_batches workers : nat) (s : pool)
  : Prop := {
  pool_length : length (batches s) = total_batches;
  pool_width : running s ≤ workers;
  pool_fanout : ∀ b batch f,
    batches s !! b = Some (Gathering batch f) →
    preprocess_attendees (PharmaCrew.attendees c) (PharmaCrew.batch_size c)
      (Z.of_nat b) = Returns batch
    ∧ fanout_reachable (processor_of c b) batch f;
  pool_results : all_results s ≡ₚ concat (map absorbed (batches s));
}.

(** What a batch ends with is what its classification gives, or the empty
    list. *)
Definition pool_returned `{World} (s : pool) : Prop :=
  ∀ b notes v,
    batches s !! b = Some (Completed notes v)
    ∨ batches s !! b = Some (Absorbed notes v) →
    (notes, v) = process_batch_with_crew b ∨ v = JList [].

(** With text for every email, what a batch ends with is what its
    classification gives. *)
Record pool_settled `{World} (s : pool) : Prop := {
  settled_search : ∀ b r,
    batches s !! b = Some (Finishing (Some r)) → ∃ outs, r = Returns outs;
  settled_completed : ∀ b notes v,
    batches s !! b = Some (Completed notes v) →
    (notes, v) = process_batch_with_crew b;
  settled_absorbed : ∀ b notes v,
    batches s !! b = Some (Absorbed notes v) →
    (notes, v) = process_batch_with_crew b;
}.

(* --------------------------------------------------------------------- *)
(** ** Sample inputs                                                      *)
(* --------------------------------------------------------------------- *)

(** An attendee as the normalizer writes it. *)
Definition person (first last mail org : string) : attendee :=
  {[ "first_name" := PyStr (py first); "last_name" := PyStr (py last);
     "email" := PyStr (py mail); "organization" := PyStr (py org) ]}.

Definition seven : list attendee :=
  [person "Ada" "A" "ada@acme.io" "Acme"; person "Bob" "B" "bob@beta.org" "";
   person "Cy" "C" "cy@acme.io" "Acme"; person "Di" "D" "di" "Delta";
   person "Ed" "E" "ed@eps.com" "Eps"; person "Flo" "F" "flo@eps.com" "";
   person "Gus" "G" "gus@g@gamma.net" "Gamma"].

(** A processor with one permit, the delay of [process_batch_async] and a
    search that answers every query. *)
Definition sample_processor : processor :=
  {| AsyncAttendeeProcessor.max_concurrent_searches := 1;
     AsyncAttendeeProcessor.rate_limit_delay := 1 # 2;
     AsyncAttendeeProcessor.search_tool := λ _ _, Returns (py "found") |}.

(** The same processor with two permits and a search that fails for the
    second item of the batch. *)
Definition flaky_processor : processor :=
  {| AsyncAttendeeProcessor.max_concurrent_searches := 2;
     AsyncAttendeeProcessor.rate_limit_delay := 1 # 2;
     AsyncAttendeeProcessor.search_tool := λ i _,
       match i with
       | 1 => Raises (py "timeout")
       | _ => Returns (py "found")
       end |}.

(** A world for the examples. Its decoder knows two texts: the empty array
    and an array with one record; the classification of batch 0 comes back
    fenced, that of batch 1 fails on telemetry, that of batch 2 fails
    otherwise, that of batch 3 comes back with a stray character, and any
    other is no array at all. *)
Definition sample_text : pystr :=
  py "[{" ++ quoted "name" ++ py ": " ++ quoted "Ada" ++ py "}]".

Definition sample_record : jval := JDict [(py "name", JStr (py "Ada"))].

Definition sample_loads (text : pystr) : loads_reply :=
  if bool_decide (text = py "[]") then Parsed (JList [])
  else if bool_decide (text = sample_text) then Parsed (JList [sample_record])
  else JSONDecodeError (py "Expecting value").

Definition sample_kickoff (b : nat) : reply pystr :=
  match b with
  | 0 => Returns (py "```json" ++ [10%N] ++ sample_text ++ [10%N] ++ py "```")
  | 1 => Raises (py "AgentOps: no API key")
  | 2 => Raises (py "connection reset")
  | 3 => Returns (sample_text ++ py "$")
  | _ => Returns (py "I could not classify <these> attendees.")
  end.

#[global] Instance sample_world : World := {|
  json_loads := sample_loads;
  create := λ _ _ _, Returns [Some (py "found")];
  crew_setup := λ _, None;
  kickoff := sample_kickoff;
  loads_empty_list := eq_refl;
|}.




Definition sample_crew : crew :=
  {| PharmaCrew.attendees := seven;
     PharmaCrew.batch_size := 3;
     PharmaCrew.max_workers := 2;
     PharmaCrew.max_concurrent_searches := 2;
     PharmaCrew.use_async_processing := true |}.

(** One batch of [n] attendees from its start to its absorption, the
    coroutines one after the other. *)
Definition batch_actions (b n : nat) : list action :=
  Work b Enter
  :: flat_map (λ i, [Work b (Resume i); Work b (Resume i); Work b (Resume i)])
       (seq 0 n)
  ++ [Work b Gather; Work b Finish; Absorb b].

(* --------------------------------------------------------------------- *)
(** ** [utils.extract_company_from_email]                                 *)
(* --------------------------------------------------------------------- *)

(** [re.search(p, s)]: the leftmost position where [p] matches, with the
    length of the match there. *)
Fixpoint re_search (p : list piece) (s : pystr) : option (nat * nat) :=
  match match_at p s with
  | Some n => Some (0, n)
  | None =>
      match s with
      | [] => None
      | _ :: s' => prod_map S id <$> re_search p s'
      end
  end.

Definition dot : N := 46%N.

(** The class of every character but the dot. *)
Definition not_dot : cset := {| negated := true; items := [COne dot] |}.

(** The pattern of [extract_company_from_email]: an at sign, a group of one
    or more characters that are not dots, a dot. *)
Definition company_re : list piece := [PChr at_sign; PPlus not_dot; PChr dot].

(** [extract_company_from_email]. Group 1 of the match is the match without
    its first and its last character. *)
Definition extract_company_from_email (email : pyval) : pyval :=
  match email with
  | PyNone => PyNone
  | PyStr s =>
      if negb (truthy email) || negb (bool_decide (at_sign ∈ s)) then PyNone
      else
        match re_search company_re s with
        | Some (start, n) => PyStr (take (n - 2) (drop (S start) s))
        | None => PyNone
        end
  end.

(* --------------------------------------------------------------------- *)
(** ** [utils.preprocess_attendee_data]: the loop over the rows           *)
(* --------------------------------------------------------------------- *)

(** A cell of the data frame: missing, text, or a value of another type
    (a number, a date), named by its type. *)
Inductive cell : Type :=
  | NaN
  | Text (s : pystr)
  | Other (type : pystr).

(** The four columns the loop reads. *)
Record row : Type := {
  Email : cell;
  Organization : cell;
  First_Name : cell;
  Last_Name : cell;
}.

(** [row[col].strip() if not pd.isna(row[col]) else ''] *)
Definition stripped (c : cell) : reply pystr :=
  match c with
  | NaN => Returns []
  | Text s => Returns (strip s)
  | Other type =>
      Raises (py "'" ++ type ++ py "' object has no attribute 'strip'")
  end.

Module AttendeeInfo.
(** The dictionary [attendee_info], which always has these five keys. *)
Record t : Type := {
  first_name : pystr;
  last_name : pystr;
  email : pystr;
  organization : pyval;
  company_from_email : pyval;
}.
End AttendeeInfo.

Abbreviation info := AttendeeInfo.t.

(** The dictionary as the rest of the program reads it. *)
Definition as_attendee (i : info) : attendee :=
  {[ "first_name" := PyStr (AttendeeInfo.first_name i);
     "last_name" := PyStr (AttendeeInfo.last_name i);
     "email" := PyStr (AttendeeInfo.email i);
     "organization" := AttendeeInfo.organization i;
     "company_from_email" := AttendeeInfo.company_from_email i ]}.

(** [len(v)] on a value of an attendee dictionary. *)
Definition len_of (v : pyval) : reply nat :=
  match v with
  | PyStr s => Returns (length s)
  | PyNone => Raises (py "object of type 'NoneType' has no len()")
  end.

(** A Python [dict] in the order of insertion: [d.get(key)] and
    [d[key] = v], which keeps the place of a key that is present. *)
Fixpoint entry {K V} `{EqDecision K} (key : K) (d : list (K * V)) : option V :=
  match d with
  | [] => None
  | (k, v) :: d' => if decide (k = key) then Some v else entry key d'
  end.

Fixpoint store {K V} `{EqDecision K} (key : K) (v : V) (d : list (K * V))
  : list (K * V) :=
  match d with
  | [] => [(key, v)]
  | (k, w) :: d' =>
      if decide (k = key) then (k, v) :: d' else (k, w) :: store key v d'
  end.

(** The body of the loop for one row, on the dictionary
    [attendees_by_email]. *)
Definition preprocess_row (attendees_by_email : list (pystr * info)) (r : row)
  : reply (list (pystr * info)) :=
  mail ← stripped (Email r);
  if negb (truthy (PyStr mail)) then mret attendees_by_email
  else
    org_text ← stripped (Organization r);
    let org :=
      if truthy (PyStr org_text) then PyStr org_text
      else extract_company_from_email (PyStr mail) in
    first ← stripped (First_Name r);
    last ← stripped (Last_Name r);
    let attendee_info :=
      {| AttendeeInfo.first_name := first;
         AttendeeInfo.last_name := last;
         AttendeeInfo.email := mail;
         AttendeeInfo.organization := org;
         AttendeeInfo.company_from_email :=
           extract_company_from_email (PyStr mail) |} in
    match entry mail attendees_by_email with
    | Some existing =>
        let attendee_info :=
          if negb (truthy org) && truthy (AttendeeInfo.organization existing)
          then {| AttendeeInfo.first_name := first;
                  AttendeeInfo.last_name := last;
                  AttendeeInfo.email := mail;
                  AttendeeInfo.organization := AttendeeInfo.organization existing;
                  AttendeeInfo.company_from_email :=
                    extract_company_from_email (PyStr mail) |}
          else attendee_info in
        n ← len_of org;
        m ← len_of (AttendeeInfo.organization existing);
        if (m <? n)
           || negb (truthy (PyStr (AttendeeInfo.first_name existing)))
              && truthy (PyStr first)
           || negb (truthy (PyStr (AttendeeInfo.last_name existing)))
              && truthy (PyStr last)
        then mret (store mail attendee_info attendees_by_email)
        else mret attendees_by_email
    | None => mret (store mail attendee_info attendees_by_email)
    end.

Fixpoint preprocess_rows (rows : list row) (attendees_by_email : list (pystr * info))
  : reply (list (pystr * info)) :=
  match rows with
  | [] => Returns attendees_by_email
  | r :: rest =>
      d ← preprocess_row attendees_by_email r;
      preprocess_rows rest d
  end.

(** [preprocess_attendee_data], from the rows of the data frame to its
    [return]: the values of the dictionary, or [None] when the loop raised. *)
Definition preprocess_attendee_data (rows : list row) : option (list attendee) :=
  match preprocess_rows rows [] with
  | Returns d => Some (map (as_attendee ∘ snd) d)
  | Raises _ => None
  end.

(* --------------------------------------------------------------------- *)
(** ** [AsyncWebSearchTool.execute_async]: the choice of the query        *)
(* --------------------------------------------------------------------- *)

(** What a caller hands to [execute_async]: a dictionary, a text, or a
    value of another type. *)
Inductive tool_input : Type :=
  | InDict (entries : list (pystr * jval))
  | InStr (s : pystr)
  | InOther.

(** How the choice ends: with the value handed to [_run_async], or with the
    text returned without a search. *)
Inductive selection : Type :=
  | Query (v : jval)
  | Answer (text : pystr).

(** [isinstance(v, str)] *)
Definition is_text (v : jval) : bool :=
  match v with
  | JStr _ => true
  | _ => false
  end.

(** The three tests on a dictionary: the key [query], the key
    [description], the first value that is text. *)
Definition query_of (entries : list (pystr * jval)) (otherwise : pystr)
  : selection :=
  match entry (py "query") entries with
  | Some v => Query v
  | None =>
      match entry (py "description") entries with
      | Some v => Query v
      | None =>
          match List.find (λ kv, is_text kv.2) entries with
          | Some kv => Query kv.2
          | None => Answer otherwise
          end
      end
  end.

(** [execute_async] up to its last line. *)
Definition query_of_input `{World} (input_data : tool_input) : reply selection :=
  match input_data with
  | InDict entries =>
      Returns (query_of entries (py "Error: No valid query found in the input"))
  | InStr s =>
      match json_loads s with
      | Parsed (JDict entries) =>
          Returns (query_of entries (py "Error: No valid query found in the JSON"))
      | Parsed _ => Returns (Query (JStr s))
      | JSONDecodeError _ => Returns (Query (JStr s))
      | OtherError e => Raises e
      end
  | InOther => Returns (Answer (py "Error: Invalid input type"))
  end.

(* --------------------------------------------------------------------- *)
(** ** [export_to_csv]                                                    *)
(* --------------------------------------------------------------------- *)

(** [list(v.keys())]; only a dictionary has keys. *)
Definition keys_of (v : jval) : option (list pystr) :=
  match v with
  | JDict entries => Some (map fst entries)
  | _ => None
  end.

(** [DictWriter._dict_to_list]: the cells of one row in the order of the
    field names, the empty text for a missing key; a key that is not a field
    name, or a row that is no dictionary, raises. *)
Definition dict_to_list (fieldnames : list pystr) (rowdict : jval)
  : option (list jval) :=
  match rowdict with
  | JDict entries =>
      if forallb (λ k, bool_decide (k ∈ fieldnames)) (map fst entries)
      then Some (map (λ k, default (JStr []) (entry k entries)) fieldnames)
      else None
  | _ => None
  end.

(** The loop [for row in results: writer.writerow(row)]: the rows written,
    and whether the loop raised. *)
Fixpoint write_rows (fieldnames : list pystr) (results : list jval)
  : list (list jval) * bool :=
  match results with
  | [] => ([], false)
  | r :: rest =>
      match dict_to_list fieldnames r with
      | Some cells =>
          let '(rows, failed) := write_rows fieldnames rest in
          (cells :: rows, failed)
      | None => ([], true)
      end
  end.

(** What [export_to_csv] leaves behind: the rows of the file it wrote, if it
    opened one, and whether it reported an error. [opened] tells whether
    [open] succeeds; writing to the open file is taken to succeed. *)
Record export : Type := {
  written : option (list (list jval));
  reported : bool;
}.

Definition export_to_csv (opened : bool) (results : list jval) : export :=
  match results with
  | [] => {| written := None; reported := false |}
  | first :: _ =>
      match keys_of first with
      | None => {| written := None; reported := true |}
      | Some fieldnames =>
          if opened then
            let '(rows, failed) := write_rows fieldnames results in
            {| written := Some (map JStr fieldnames :: rows);
               reported := failed |}
          else {| written := None; reported := true |}
      end
  end.

(* --------------------------------------------------------------------- *)
(** ** Vocabulary of the further properties                               *)
(* --------------------------------------------------------------------- *)

(** The email of a row as the loop reads it: the stripped text, empty for a
    missing cell. *)
Definition row_mail (r : row) : pystr :=
  match Email r with
  | Text s => strip s
  | _ => []
  end.

(** A cell without text: missing, or whitespace only. *)
Definition blank (c : cell) : bool :=
  match c with
  | NaN => true
  | Text s => bool_decide (strip s = [])
  | Other _ => false
  end.

Definition is_other (c : cell) : bool :=
  match c with
  | Other _ => true
  | _ => false
  end.

(** The elements of a list in the order of their first occurrence. *)
Definition see (seen : list pystr) (x : pystr) : list pystr :=
  if bool_decide (x ∈ seen) then seen else seen ++ [x].

Definition first_occurrences (l : list pystr) : list pystr := foldl see [] l.

Definition has_text (m : pystr) : bool := bool_decide (m ≠ []).

(** A row the loop can always handle: no cell of another type, and an
    organization in its cell or in its email when it has an email. *)
Definition row_ok (r : row) : Prop :=
  is_other (Email r) = false ∧ is_other (Organization r) = false
  ∧ is_other (First_Name r) = false ∧ is_other (Last_Name r) = false
  ∧ (row_mail r ≠ [] →
     blank (Organization r) = false
     ∨ extract_company_from_email (PyStr (row_mail r)) ≠ PyNone).

(** The record the loop builds for a row. *)
Definition info_of (mail org_text first last : pystr) : info :=
  {| AttendeeInfo.first_name := first;
     AttendeeInfo.last_name := last;
     AttendeeInfo.email := mail;
     AttendeeInfo.organization :=
       if truthy (PyStr org_text) then PyStr org_text
       else extract_company_from_email (PyStr mail);
     AttendeeInfo.company_from_email :=
       extract_company_from_email (PyStr mail) |}.

(** What [all_results] receives from a decoded value: the items of an
    array, the keys of an object, the characters of a text, and nothing
    from a value without a length. *)
Definition contribution (v : jval) : list jval :=
  match v with
  | JList l => l
  | JDict entries => map (λ kv, JStr kv.1) entries
  | JStr s => map (λ c, JStr [c]) s
  | _ => []
  end.

(** The calls of [json.loads] among the notes of a batch. *)
Definition is_decoding (n : note) : bool :=
  match n with
  | Decoding _ => true
  | _ => false
  end.

Definition is_recovered (n : note) : bool :=
  match n with
  | Recovered _ => true
  | _ => false
  end.

(** The calls of [process_attendee] that have ended, as the trace records
    them, and the coroutines that have returned. *)
Definition is_searched (e : event) : bool :=
  match e with
  | Searched _ => true
  | _ => false
  end.

Definition is_finished (t : task) : bool :=
  match t with
  | Finished _ => true
  | _ => false
  end.

Definition processed (f : fanout) : nat := count_where is_searched (trace f).

(** What batch [b] has put into [all_results] in the state [s]. *)
Definition delivered_by (s : pool) (b : nat) : list jval :=
  from_option absorbed [] (batches s !! b).

(** A value [DictWriter] accepts as a row under [fieldnames]. *)
Definition fits (fieldnames : list pystr) (rowdict : jval) : bool :=
  match dict_to_list fieldnames rowdict with
  | Some _ => true
  | None => false
  end.

(** The value [execute_async] takes as query from a dictionary: the value
    under [query], else the value under [description], else the first
    value that is text. *)
Definition chosen (entries : list (pystr * jval)) (v : jval) : Prop :=
  entry (py "query") entries = Some v
  ∨ entry (py "query") entries = None
    ∧ (entry (py "description") entries = Some v
       ∨ entry (py "description") entries = None
         ∧ ∃ pre key post, entries = pre ++ (key, v) :: post
             ∧ is_text v = true
             ∧ Forall (λ kv, is_text kv.2 = false) pre).

(* --------------------------------------------------------------------- *)
(** ** [main]: the crew of the command line                               *)
(* --------------------------------------------------------------------- *)

(** The [PharmaCrew] that [main] creates from [--batch], [--max-searches]
    and [--sync-mode]; [AttendeeFlow.process_pharma_attendees] creates the
    one of [3], [5] and the asynchronous search. *)
Definition main_crew (attendees : list attendee) (batch max_searches : Z)
    (sync_mode : bool) : crew :=
  {| PharmaCrew.attendees := attendees;
     PharmaCrew.batch_size := batch;
     PharmaCrew.max_workers := batch;
     PharmaCrew.max_concurrent_searches := max_searches;
     PharmaCrew.use_async_processing := negb sync_mode |}.

(* --------------------------------------------------------------------- *)
(** ** [AttendeeFlow.analyze_results]: attendees by organization          *)
(* --------------------------------------------------------------------- *)

#[global] Instance pyval_eq_dec : EqDecision pyval.
Proof. solve_decision. Defined.

(** [attendee.get('organization', 'Unknown')] *)
Definition organization_of (a : attendee) : pyval :=
  default (PyStr (py "Unknown")) (a !! "organization").

(** The body of the counting loop on the dictionary [org_counts]. *)
Definition count_organization (org_counts : list (pyval * nat)) (a : attendee)
  : list (pyval * nat) :=
  let org := organization_of a in
  match entry org org_counts with
  | Some n => store org (n + 1) org_counts
  | None => store org 1 org_counts
  end.

(** The dictionary [analyze_results] returns. *)
Definition analyze_results (attendees : list attendee) : list (pyval * nat) :=
  foldl count_organization [] attendees.

(** The attendees of one organization. *)
Definition works_for (org : pyval) (a : attendee) : bool :=
  bool_decide (organization_of a = org).

(** The backticks a text starts with. *)
Fixpoint ticks (s : pystr) : nat :=
  match s with
  | c :: s' => if (c =? backtick)%N then S (ticks s') else 0
  | [] => 0
  end.

(* --------------------------------------------------------------------- *)
(** ** Further sample inputs                                              *)
(* --------------------------------------------------------------------- *)

(** Four rows of an attendee file: Ada with spaces around her email, a row
    without an email, Bob without an organization, and Ada again with a
    longer organization and no names. *)
Definition text_row (mail org first last : string) : row :=
  {| Email := Text (py mail); Organization := Text (py org);
     First_Name := Text (py first); Last_Name := Text (py last) |}.

Definition sample_rows : list row :=
  [text_row " ada@acme.io " "Acme" "Ada" "A";
   {| Email := NaN; Organization := NaN; First_Name := NaN; Last_Name := NaN |};
   {| Email := Text (py "bob@beta.org"); Organization := NaN;
      First_Name := Text (py "Bob"); Last_Name := NaN |};
   text_row "ada@acme.io" "Acme Corp" " " ""].

(** What the loop makes of them. *)
Definition sample_attendees : list attendee :=
  [as_attendee (info_of (py "ada@acme.io") (py "Acme Corp") [] []);
   as_attendee (info_of (py "bob@beta.org") [] (py "Bob") [])].

(** A row whose email holds no company, and which names no organization. *)
Definition row_of_di : row :=
  {| Email := Text (py "di"); Organization := NaN;
     First_Name := Text (py "Di"); Last_Name := NaN |}.

(** An attendee whose email is [None]. *)
Definition nobody : attendee := {[ "first_name" := PyStr (py "No"); "email" := PyNone ]}.

(** The sample crew without the asynchronous search, and a crew of one
    attendee with a negative batch size. *)
Definition sync_crew : crew := main_crew seven 3 2 true.

Definition negative_crew : crew :=
  {| PharmaCrew.attendees := take 1 seven;
     PharmaCrew.batch_size := -3;
     PharmaCrew.max_workers := 2;
     PharmaCrew.max_concurrent_searches := 2;
     PharmaCrew.use_async_processing := true |}.

(** Three results for the export: the second has a key the first has not. *)
Definition sample_results : list jval :=
  [sample_record;
   JDict [(py "name", JStr (py "Bob")); (py "lead", JStr (py "Pharma"))];
   sample_record].

(** A processor whose semaphore has no permit. *)
Definition stuck_processor : processor :=
  {| AsyncAttendeeProcessor.max_concurrent_searches := 0;
     AsyncAttendeeProcessor.rate_limit_delay := 1 # 2;
     AsyncAttendeeProcessor.search_tool := λ _ _, Returns (py "found") |}.

(* ===================================================================== *)
(** * Part II: properties                                                 *)
(* ===================================================================== *)

(* --------------------------------------------------------------------- *)
(** ** The definitions at work                                            *)
(* --------------------------------------------------------------------- *)

(** A fenced array is unwrapped. *)
Example clean_fenced_array :
  clean_json_text (py "```json" ++ [10%N] ++ sample_text ++ [10%N] ++ py "```")
  = sample_text.
Proof. reflexivity. Qed.

(** The first row of the table, the gaps being of any whitespace. *)
Example clean_category_alternation :
  clean_json_text
    (py "{" ++ quoted "category" ++ py ": "
     ++ alternation "Pharmaceutical"
          [(py " ", [9%N; 32%N], "Healthcare"); ([10%N], py " ", "Other")]
     ++ py "}")
  = py "{" ++ quoted "category" ++ py ": " ++ quoted "Pharmaceutical" ++ py "}".
Proof. reflexivity. Qed.

(** The aggressive cleaning drops what is not allowed. *)
Example aggressive_clean_drops_noise :
  aggressive_clean (py "[a$b(c)] d-e_f.g") = py "[abc] d-e_fg".
Proof. reflexivity. Qed.

(** A replacement at every empty match, as [re.sub] does. *)
Example re_sub_empty_matches :
  re_sub [PStar space] (py "-") (py "ab  d") = py "-a-b--d-".
Proof. reflexivity. Qed.

Example split_on_at :
  split_on at_sign (py "a@b@c") = [py "a"; py "b"; py "c"].
Proof. reflexivity. Qed.

(** Slices as Python cuts them. *)
Example slice_clamps :
  slice [1; 2; 3; 4; 5] 3 9 = [4; 5] ∧ slice [1; 2; 3; 4; 5] 0 (-3) = [1; 2]
  ∧ slice [1; 2; 3; 4; 5] 4 2 = [].
Proof. repeat split; reflexivity. Qed.

Example telemetry_is_recognised :
  is_telemetry_error (py "agentops.NoApiKeyException: no key") = true
  ∧ is_telemetry_error (py "connection reset") = false.
Proof. split; reflexivity. Qed.

(** The search tool turns a failure of the remote call into text. *)
Example run_async_failure :
  run_async (Raises (py "timeout")) (py "q")
  = py "Error performing web search: timeout".
Proof. reflexivity. Qed.

(* --------------------------------------------------------------------- *)
(** ** Batches                                                            *)
(* --------------------------------------------------------------------- *)

Section Batches.
Context {A : Type}.
Implicit Types (l : list A) (n k i : nat).

(** A slice between two positions inside the list. *)
Lemma slice_inside l (a b : Z) :
  (0 ≤ a ≤ b)%Z → (b ≤ Z.of_nat (length l))%Z →
  slice l a b = take (Z.to_nat b - Z.to_nat a) (drop (Z.to_nat a) l).
Proof.
  intros Ha Hb. unfold slice.
  destruct (Z.ltb_spec a 0) as [?|_]; [lia|].
  destruct (Z.ltb_spec b 0) as [?|_]; [lia|].
  rewrite !Z.min_l by lia. f_equal. lia.
Qed.


(** Cutting [l] into [k] chunks of [n] and gluing them back. *)
Lemma chunks_concat n k l :
  length l ≤ k * n →
  concat (map (λ i, take n (drop (i * n) l)) (seq 0 k)) = l.
Proof.
  revert l. induction k as [|k IH]; intros l Hk.
  - destruct l; [done | simpl in Hk; lia].
  - rewrite <- cons_seq, <- fmap_S_seq. cbn [map concat].
    change (0 * n) with 0. rewrite drop_0.
    transitivity (take n l ++ drop n l); [|apply take_drop]. f_equal.
    etransitivity; [|apply (IH (drop n l)); rewrite length_drop; lia].
    f_equal. rewrite map_map. apply map_ext. intros i.
    rewrite drop_drop. do 2 f_equal; lia.
Qed.

Lemma chunk_length n i l :
  length (take n (drop (i * n) l)) = n `min` (length l - i * n).
Proof. by rewrite length_take, length_drop. Qed.

(** Chunk [m .. m + n) of [l], read by position. *)
Lemma chunk_lookup n m j l :
  take n (drop m l) !! j
  = if decide (m + j < (m + n) `min` length l) then l !! (m + j) else None.
Proof.
  case_decide as Hj.
  - rewrite lookup_take_lt by lia. apply lookup_drop.
  - destruct (decide (j < n)).
    + rewrite lookup_take_lt by done. rewrite lookup_drop.
      apply lookup_ge_None. lia.
    + apply lookup_ge_None. rewrite length_take. lia.
Qed.
End Batches.

(** The count of batches is the ceiling of [N / B]. *)
Lemma batch_count_ceil (N B : Z) :
  (0 ≤ N)%Z → (0 < B)%Z →
  ∃ k : nat, batch_count N B = Returns (Z.of_nat k)
    ∧ (N ≤ Z.of_nat k * B < N + B)%Z.
Proof.
  intros HN HB. unfold batch_count.
  destruct (Z.eqb_spec B 0) as [?|_]; [lia|].
  exists (Z.to_nat ((N + B - 1) / B)).
  assert (0 ≤ (N + B - 1) / B)%Z by (apply Z.div_pos; lia).
  rewrite Z2Nat.id by done. split; [done|].
  pose proof (Z.div_mod (N + B - 1) B ltac:(lia)).
  pose proof (Z.mod_pos_bound (N + B - 1) B HB). nia.
Qed.

Lemma preprocess_attendees_chunk (atts : list attendee) (B : Z) (i : nat) :
  (0 < B)%Z → i * Z.to_nat B ≤ length atts →
  preprocess_attendees atts B (Z.of_nat i)
  = Returns (take (Z.to_nat B) (drop (i * Z.to_nat B) atts)).
Proof.
  intros HB Hi. unfold preprocess_attendees, batch_count.
  destruct (Z.eqb_spec B 0) as [?|_]; [lia|]. cbn.
  f_equal. rewrite slice_inside by lia.
  replace (Z.to_nat (Z.of_nat i * B)) with (i * Z.to_nat B) by lia.
  destruct (decide (Z.to_nat B ≤ length atts - i * Z.to_nat B)) as [Hle|Hgt].
  - f_equal. lia.
  - rewrite !take_ge; [done | rewrite length_drop; lia..].
Qed.

(** C2. For a list of [N] attendees and a batch size [B > 0] the engine
    plans [k] batches, [k] the ceiling of [N / B] (the least [k] with
    [N <= k * B]); batch [i] holds exactly the attendees at the positions
    from [i * B] up to [min ((i + 1) * B) N], so the batches, in order, make
    up the list again; every batch but the last has [B] items, and the last
    has [N mod B], or [B] when [B] divides [N]. *)
Theorem batches_partition_the_list (atts : list attendee) (B : Z) :
  (0 < B)%Z →
  let N := length atts in
  let size := Z.to_nat B in
  ∃ k : nat,
    batch_count (Z.of_nat N) B = Returns (Z.of_nat k)
    ∧ (Z.of_nat N ≤ Z.of_nat k * B < Z.of_nat N + B)%Z
    ∧ (∀ i, i < k →
         ∃ batch,
           preprocess_attendees atts B (Z.of_nat i) = Returns batch
           ∧ (∀ j, batch !! j
                   = if decide (i * size + j < (i * size + size) `min` N)
                     then atts !! (i * size + j) else None)
           ∧ length batch
             = if decide (S i < k) then size
               else if decide (N `mod` size = 0) then size else N `mod` size)
    ∧ concat (map (λ i, take size (drop (i * size) atts)) (seq 0 k)) = atts.
Proof.
  intros HB N size.
  destruct (batch_count_ceil (Z.of_nat N) B) as (k & Hk & Hceil); [lia..|].
  assert (Hsize : Z.of_nat size = B) by (unfold size; lia).
  assert (Hbounds : N ≤ k * size < N + size) by nia.
  exists k. split; [done|]. split; [done|]. split.
  - intros i Hi. eexists. split; [|split].
    + apply preprocess_attendees_chunk; [done | fold size; nia].
    + intros j. apply chunk_lookup.
    + fold size. rewrite chunk_length. fold N.
      assert (0 < size) by lia.
      pose proof (Nat.div_mod_eq N size) as Hdiv.
      pose proof (Nat.mod_upper_bound N size ltac:(lia)) as Hmod.
      set (q := N `div` size) in *. set (r := N `mod` size) in *.
      case_decide as Hlast.
      * assert (S i * size ≤ (k - 1) * size) by (apply Nat.mul_le_mono_r; lia).
        nia.
      * assert (k = S i) as -> by lia.
        case_decide as Hr.
        -- assert (q = S i) by nia. nia.
        -- assert (q = i) by nia. nia.
  - apply chunks_concat. lia.
Qed.

(** Seven attendees in batches of three: three batches, of 3, 3 and 1. *)
Lemma seven_by_three :
  ∃ first second third,
    preprocess_attendees seven 3 0 = Returns first
    ∧ preprocess_attendees seven 3 1 = Returns second
    ∧ preprocess_attendees seven 3 2 = Returns third
    ∧ batch_count 7 3 = Returns 3%Z
    ∧ (length first, length second, length third) = (3, 3, 1)
    ∧ first ++ second ++ third = seven.
Proof.
  destruct (batches_partition_the_list seven 3 ltac:(lia))
    as (k & Hk & _ & Hbatch & Hall).
  assert (k = 3) as ->.
  { remember (Z.of_nat k) as z eqn:Hz. vm_compute in Hk.
    injection Hk as <-. lia. }
  destruct (Hbatch 0 ltac:(lia)) as (first & H0 & _ & L0).
  destruct (Hbatch 1 ltac:(lia)) as (second & H1 & _ & L1).
  destruct (Hbatch 2 ltac:(lia)) as (third & H2 & _ & L2).
  exists first, second, third.
  split; [exact H0|]. split; [exact H1|]. split; [exact H2|].
  split; [exact Hk|]. split.
  - rewrite L0, L1, L2. reflexivity.
  - rewrite preprocess_attendees_chunk in H0, H1, H2
      by (vm_compute; first [reflexivity | lia]).
    injection H0 as <-. injection H1 as <-. injection H2 as <-.
    reflexivity.
Defined.

(* --------------------------------------------------------------------- *)
(** ** The company domain                                                 *)
(* --------------------------------------------------------------------- *)

Lemma split_on_not_nil sep s : split_on sep s ≠ [].
Proof.
  destruct s as [|c s]; [done|]. cbn.
  destruct (c =? sep)%N; [done|]. by destruct (split_on sep s).
Qed.

Lemma split_on_without sep s : sep ∉ s → split_on sep s = [s].
Proof.
  induction s as [|c s IH]; [done|]. intros Hs. cbn.
  apply not_elem_of_cons in Hs as [Hc Hs].
  destruct (N.eqb_spec c sep) as [->|_]; [done|]. by rewrite IH.
Qed.

Lemma last_part_cons part parts :
  parts ≠ [] → last_part (part :: parts) = last_part parts.
Proof. by destruct parts. Qed.

Lemma split_on_app sep s1 s2 :
  ∃ parts, parts ≠ []
    ∧ split_on sep (s1 ++ sep :: s2) = parts ++ split_on sep s2.
Proof.
  induction s1 as [|c s1 (parts & Hne & IH)]; cbn.
  - exists [[]]. by rewrite N.eqb_refl.
  - rewrite IH. destruct (c =? sep)%N.
    + by exists ([] :: parts).
    + destruct parts as [|part parts]; [done|]. by exists ((c :: part) :: parts).
Qed.

(** [s.split(sep)[-1]] is what follows the last [sep]. *)
Lemma last_part_after_last sep pre host :
  sep ∉ host → last_part (split_on sep (pre ++ sep :: host)) = host.
Proof.
  intros Hhost. destruct (split_on_app sep pre host) as (parts & Hne & ->).
  rewrite split_on_without by done. unfold last_part. by rewrite last_snoc.
Qed.

Section Attendee.
Context (search : pystr → reply pystr).

(** [process_attendee] on an attendee whose [email] is text: the search
    returns and the body builds the record, or it raises and the handler
    does. *)
Lemma process_attendee_text (a : attendee) mail :
  get a "email" = PyStr mail →
  let host := if bool_decide (at_sign ∈ mail)
              then last_part (split_on at_sign mail) else [] in
  process_attendee search a
  = match search (search_query_of (person_name_of a) (get a "organization")) with
    | Returns found =>
        Returns {| person_name := person_name_of a;
           organization := or_else (get a "organization") (py "Unknown");
           email := mail;
           company_domain := or_else (PyStr host) (py "unknown.com");
           search_result := found |}
    | Raises e =>
        Returns {| person_name := person_name_of a;
           organization := or_else (get a "organization") (py "Unknown");
           email := mail;
           company_domain := if bool_decide (at_sign ∈ mail)
                             then last_part (split_on at_sign mail)
                             else py "unknown.com";
           search_result := py "Error: " ++ e |}
    end.
Proof.
  intros Hmail. unfold process_attendee. rewrite !Hmail. cbn.
  by destruct (search _).
Qed.
End Attendee.

(** C3, as the code has it. For an item whose [email] is text (or is
    missing), [process_attendee] returns a record and raises nothing; its
    [company_domain] is the sentinel [unknown.com] when the email has no at
    sign, and otherwise all that follows the last at sign of the email, the
    top-level domain included, when that is not empty. *)
Theorem company_domain_follows_the_last_at (search : pystr → reply pystr)
    (a : attendee) (mail : pystr) :
  get a "email" = PyStr mail →
  ∃ o, process_attendee search a = Returns o
    ∧ (at_sign ∉ mail → company_domain o = py "unknown.com")
    ∧ (∀ pre host, mail = pre ++ at_sign :: host → at_sign ∉ host →
         host ≠ [] → company_domain o = host).
Proof.
  intros Hmail. rewrite (process_attendee_text search a mail Hmail).
  destruct (search _) as [found|e]; eexists; (split; [done|]); cbn; split.
  - intros Hno. by rewrite bool_decide_eq_false_2.
  - intros pre host -> Hhost Hne.
    rewrite bool_decide_eq_true_2 by set_solver.
    rewrite last_part_after_last by done. by destruct host.
  - intros Hno. by rewrite bool_decide_eq_false_2.
  - intros pre host -> Hhost Hne.
    rewrite bool_decide_eq_true_2 by set_solver.
    by rewrite last_part_after_last.
Qed.

(** C3 as stated fails: the email [x@acme.io] gives the domain [acme.io],
    not [acme]. *)
Lemma domain_of_x_at_acme_io :
  ∃ o, process_attendee (λ _, Returns (py "found"))
         {[ "email" := PyStr (py "x@acme.io") ]} = Returns o
    ∧ company_domain o = py "acme.io"
    ∧ company_domain o ≠ py "acme".
Proof. eexists. split; [reflexivity|]. split; [reflexivity|]. discriminate. Qed.

Lemma company_domain_witness :
  ∃ o, process_attendee (λ _, Raises (py "timeout"))
         (person "Gus" "G" "gus@g@gamma.net" "Gamma") = Returns o
    ∧ company_domain o = py "gamma.net".
Proof.
  destruct (company_domain_follows_the_last_at (λ _, Raises (py "timeout"))
              (person "Gus" "G" "gus@g@gamma.net" "Gamma")
              (py "gus@g@gamma.net") eq_refl)
    as (o & Ho & _ & Hhost).
  exists o. split; [exact Ho|].
  apply (Hhost (py "gus@g") (py "gamma.net")); [reflexivity | | discriminate].
  apply (bool_decide_unpack _). vm_compute. exact I.
Defined.

(* --------------------------------------------------------------------- *)
(** ** Matching and substitution                                          *)
(* --------------------------------------------------------------------- *)

Lemma starts_with_app l s : starts_with l (l ++ s) = true.
Proof. induction l as [|c l IH]; [done|]. cbn. by rewrite N.eqb_refl. Qed.

Lemma starts_with_spec l s : starts_with l s = true ↔ ∃ rest, s = l ++ rest.
Proof.
  split.
  - revert s. induction l as [|c l IH]; intros s H; [by exists s|].
    destruct s as [|x s]; [done|]. cbn in H.
    apply andb_true_iff in H as [->%N.eqb_eq [rest ->]%IH]. by exists rest.
  - intros [rest ->]. apply starts_with_app.
Qed.

Lemma contains_spec l s : contains l s = true ↔ ∃ a b, s = a ++ l ++ b.
Proof.
  induction s as [|c s IH]; cbn; rewrite orb_true_iff, starts_with_spec.
  - split.
    + intros [[rest H]|?]; [|done]. by exists [], rest.
    + intros (a & b & H). left. destruct a; [by exists b|done].
  - rewrite IH. split.
    + intros [[rest H]|(a & b & ->)]; [by exists [], rest|].
      by exists (c :: a), b.
    + intros (a & b & H). destruct a as [|x a]; [left; by exists b|].
      injection H as -> ->. right. by exists a, b.
Qed.

(** A string without [l] has no piece with [l]. *)
Lemma contains_infix l a s b :
  contains l (a ++ s ++ b) = false → contains l s = false.
Proof.
  intros H. apply not_true_is_false. intros (a' & b' & ->)%contains_spec.
  apply not_true_iff_false in H. apply H, contains_spec.
  exists (a ++ a'), (b' ++ b). by rewrite <- !app_assoc.
Qed.

Lemma drop_while_suffix f s : ∃ a, s = a ++ drop_while f s.
Proof.
  induction s as [|c s [a IH]]; [by exists []|]. cbn.
  destruct (f c); [|by exists []]. exists (c :: a). cbn. by f_equal.
Qed.

(** [strip] cuts a piece out of its argument. *)
Lemma strip_infix s : ∃ a b, s = a ++ strip s ++ b.
Proof.
  unfold strip, rstrip, lstrip.
  destruct (drop_while_suffix is_space s) as [a Ha].
  destruct (drop_while_suffix is_space (rev (drop_while is_space s))) as [b Hb].
  exists a, (rev b). rewrite <- rev_app_distr, <- Hb, rev_involutive. done.
Qed.

(** A pattern that begins with the literal [l]. *)
Lemma match_at_lit l p s :
  match_at (map PChr l ++ p) s
  = if starts_with l s then (λ n, length l + n) <$> match_at p (drop (length l) s)
    else None.
Proof.
  revert s. induction l as [|c l IH]; intros s; cbn.
  - rewrite drop_0. by destruct (match_at p s).
  - destruct s as [|x s]; [done|]. rewrite (N.eqb_sym c x).
    destruct (x =? c)%N; [|done]. cbn. rewrite IH.
    destruct (starts_with l s); [|done]. by destruct (match_at p _).
Qed.

Lemma match_star_bound cs k s n :
  (∀ s' m, k s' = Some m → m ≤ length s') →
  match_star cs k s = Some n → n ≤ length s.
Proof.
  intros Hk. revert n. induction s as [|c s IH]; intros n; cbn.
  - apply Hk.
  - destruct (cset_mem cs c); [|apply (Hk (c :: s))].
    destruct (match_star cs k s) as [m|]; [|apply (Hk (c :: s))].
    intros [= <-]. specialize (IH m eq_refl). lia.
Qed.

(** A match lies inside the string. *)
Lemma match_at_bound p s n : match_at p s = Some n → n ≤ length s.
Proof.
  revert s n. induction p as [|[c|cs|l|cs|cs] p IH]; intros s n; cbn.
  - intros [= <-]. lia.
  - destruct s as [|x s]; [done|]. destruct (x =? c)%N; [|done].
    destruct (match_at p s) as [m|] eqn:E; [|done]. intros [= <-].
    apply IH in E. cbn. lia.
  - destruct s as [|x s]; [done|]. destruct (cset_mem cs x); [|done].
    destruct (match_at p s) as [m|] eqn:E; [|done]. intros [= <-].
    apply IH in E. cbn. lia.
  - destruct (starts_with l s) eqn:El; [|apply IH].
    destruct (match_at p (drop _ s)) as [m|] eqn:E; [|apply IH].
    intros [= <-]. apply IH in E. apply starts_with_spec in El as [rest ->].
    rewrite drop_app_length in E. rewrite length_app. lia.
  - apply match_star_bound. apply IH.
  - destruct s as [|x s]; [done|]. destruct (cset_mem cs x); [|done].
    destruct (match_star cs (match_at p) s) as [m|] eqn:E; [|done].
    intros [= <-]. apply match_star_bound in E; [|apply IH]. cbn. lia.
Qed.

Lemma sub_from_skip p repl n s :
  n ≤ length s → sub_from p repl n s = re_sub p repl (drop n s).
Proof.
  revert s. induction n as [|n IH]; intros s Hn; [done|].
  destruct s as [|c s]; [cbn in Hn; lia|]. cbn in *. apply IH. lia.
Qed.

(** Where the pattern matches, the match is replaced and the scan resumes
    after it. *)
Lemma re_sub_match p repl s n :
  match_at p s = Some (S n) →
  re_sub p repl s = repl ++ re_sub p repl (drop (S n) s).
Proof.
  intros Hm. pose proof (match_at_bound _ _ _ Hm) as Hn.
  destruct s as [|c s]; [cbn in Hn; lia|].
  unfold re_sub at 1. cbn [sub_from]. rewrite Hm. f_equal.
  change (drop (S n) (c :: s)) with (drop n s).
  apply sub_from_skip. cbn in Hn. lia.
Qed.

(** Where it does not, the character is copied. *)
Lemma re_sub_copy p repl c s :
  match_at p (c :: s) = None →
  re_sub p repl (c :: s) = c :: re_sub p repl s.
Proof. intros Hm. unfold re_sub. cbn [sub_from]. by rewrite Hm. Qed.

(** A stretch in which no match begins is copied. *)
Lemma re_sub_prefix p repl pre rest :
  (∀ i, i < length pre → match_at p (drop i (pre ++ rest)) = None) →
  re_sub p repl (pre ++ rest) = pre ++ re_sub p repl rest.
Proof.
  induction pre as [|c pre IH]; intros Hpre; [done|]. cbn [app].
  rewrite re_sub_copy by (apply (Hpre 0); cbn; lia).
  f_equal. apply IH. intros i Hi. apply (Hpre (S i)). cbn; lia.
Qed.

(** A text without the literal the pattern begins with is left as it is. *)
Lemma re_sub_without_literal l p repl s :
  l ≠ [] → contains l s = false → re_sub (map PChr l ++ p) repl s = s.
Proof.
  intros Hl. induction s as [|c s IH]; cbn [contains]; intros Hs.
  - unfold re_sub. cbn. rewrite match_at_lit. by destruct l.
  - apply orb_false_iff in Hs as [Hhere Hs].
    rewrite re_sub_copy by (by rewrite match_at_lit, Hhere).
    by rewrite IH.
Qed.

Lemma match_star_fails cs k s :
  (∀ i, k (drop i s) = None) → match_star cs k s = None.
Proof.
  induction s as [|c s IH]; intros Hk; cbn.
  - apply (Hk 0).
  - rewrite IH by (intros i; apply (Hk (S i))).
    destruct (cset_mem cs c); apply (Hk 0).
Qed.

(** Neither fence pattern matches in a text without a backtick. *)
Lemma re_sub_fence_open s :
  backtick ∉ s → re_sub fence_open [] s = s.
Proof.
  intros Hs. apply (re_sub_without_literal (py "```")); [done|].
  apply not_true_is_false. intros (a & b & ->)%contains_spec.
  apply Hs. set_solver.
Qed.

Lemma re_sub_fence_close s :
  backtick ∉ s → re_sub fence_close [] s = s.
Proof.
  induction s as [|c s IH]; intros Hs; [done|].
  rewrite re_sub_copy, IH; [done | set_solver |].
  apply match_star_fails. intros i.
  change (lit "```") with (map PChr (py "```") ++ []). rewrite match_at_lit.
  destruct (starts_with _ _) eqn:E; [|done].
  apply starts_with_spec in E as [rest E]. exfalso. apply Hs.
  rewrite <- (take_drop i (c :: s)), E. set_solver.
Qed.






(* --------------------------------------------------------------------- *)
(** ** The table of alternations                                          *)
(* --------------------------------------------------------------------- *)


(* --------------------------------------------------------------------- *)
(** ** Alternations inside a text                                         *)
(* --------------------------------------------------------------------- *)

Lemma drop_while_app_false f w c s :
  f c = false → drop_while f (w ++ c :: s) = drop_while f w ++ c :: s.
Proof.
  intros Hc. induction w as [|x w IH]; cbn.
  - by rewrite Hc.
  - by destruct (f x).
Qed.

Lemma space_not_backtick g : forallb is_space g = true → backtick ∉ g.
Proof.
  intros Hg Hin. rewrite forallb_forall in Hg.
  by specialize (Hg _ (proj1 (list_elem_of_In _ _) Hin)).
Qed.

Lemma lstrip_suffix s : ∃ a, s = a ++ lstrip s.
Proof. apply drop_while_suffix. Qed.

(* --------------------------------------------------------------------- *)
(** ** The table of alternations in [clean_json_text]                     *)
(* --------------------------------------------------------------------- *)


Lemma starts_with_prefix l m s :
  starts_with (l ++ m) s = true → starts_with l s = true.
Proof.
  intros (rest & ->)%starts_with_spec. rewrite <- app_assoc.
  apply starts_with_app.
Qed.










Lemma not_space_P : is_space 80 = false.
Proof. reflexivity. Qed.






















(* --------------------------------------------------------------------- *)
(** ** The two parsing attempts                                           *)
(* --------------------------------------------------------------------- *)

Lemma allowed_kept c : existsb (citem_mem c) kept_items = allowed c.
Proof.
  unfold allowed, is_alnum, kept_items. cbn [existsb citem_mem].
  assert (bool_decide (c ∈ py "[]{}" ++ [dquote] ++ py ",:_-")
          = ((c =? 91) || (c =? 93) || (c =? 123) || (c =? 125) || (c =? 34)
             || (c =? 44) || (c =? 58) || (c =? 95) || (c =? 45))%N) as ->.
  { apply eq_true_iff_eq. rewrite bool_decide_eq_true.
    rewrite !orb_true_iff, !N.eqb_eq. cbn. set_solver. }
  btauto.
Qed.

Lemma match_at_set cs c s :
  match_at [PSet cs] (c :: s) = if cset_mem cs c then Some 1 else None.
Proof. cbn [match_at]. by destruct (cset_mem cs c). Qed.

(** The aggressive cleaning keeps the allowed characters, in their order,
    and drops every other one. *)
Lemma aggressive_clean_filter s : aggressive_clean s = List.filter allowed s.
Proof.
  unfold aggressive_clean. induction s as [|c s IH]; [done|].
  assert (match_at noise (c :: s) = if allowed c then None else Some 1) as Hm.
  { unfold noise. rewrite match_at_set. unfold cset_mem. cbn [negated items].
    rewrite allowed_kept. by destruct (allowed c). }
  cbn [List.filter]. destruct (allowed c).
  - by rewrite re_sub_copy, IH.
  - rewrite (re_sub_match _ _ _ 0 Hm). cbn [drop app]. by rewrite drop_0.
Qed.

Section Repair.
Context `{World}.

End Repair.


(* --------------------------------------------------------------------- *)
(** ** The fanout of one batch                                            *)
(* --------------------------------------------------------------------- *)

Section Tally.
Context {A : Type} (w : A → nat).
Implicit Types (l : list A).

Lemma tally_insert l i x y :
  l !! i = Some x → tally w (<[i:=y]> l) + w x = tally w l + w y.
Proof.
  revert i. induction l as [|z l IH]; intros [|i] Hi; try done; simpl in *.
  - injection Hi as ->. lia.
  - specialize (IH i Hi). lia.
Qed.

Lemma tally_replicate n x : tally w (replicate n x) = n * w x.
Proof. induction n as [|n IH]; [done|]. cbn. rewrite IH. lia. Qed.

Lemma tally_pos l : 0 < tally w l → ∃ i x, l !! i = Some x ∧ 0 < w x.
Proof.
  induction l as [|z l IH]; cbn; [lia|]. intros Hpos.
  destruct (decide (0 < w z)) as [?|Hz]; [by exists 0, z|].
  destruct IH as (i & x & Hi & Hx); [lia|]. by exists (S i), x.
Qed.

Lemma tally_bound l n : (∀ x, x ∈ l → w x ≤ n) → tally w l ≤ length l * n.
Proof.
  induction l as [|z l IH]; cbn; [lia|]. intros Hl.
  assert (w z ≤ n) by (apply Hl; set_solver).
  assert (tally w l ≤ length l * n) by (apply IH; set_solver). lia.
Qed.
End Tally.

Lemma tally_le {A} (v w : A → nat) (l : list A) :
  (∀ x, v x ≤ w x) → tally v l ≤ tally w l.
Proof.
  intros Hvw. induction l as [|z l IH]; cbn; [lia|]. specialize (Hvw z). lia.
Qed.

Lemma count_where_insert {A} (P : A → bool) (l : list A) i x y :
  l !! i = Some x →
  count_where P (<[i:=y]> l) + (if P x then 1 else 0)
  = count_where P l + (if P y then 1 else 0).
Proof. apply (tally_insert (λ x, if P x then 1 else 0)). Qed.

Lemma count_where_pos {A} (P : A → bool) (l : list A) :
  0 < count_where P l → ∃ i x, l !! i = Some x ∧ P x = true.
Proof.
  intros (i & x & Hi & Hx)%tally_pos. exists i, x. split; [done|].
  destruct (P x); [done|lia].
Qed.

Lemma count_where_le {A} (P : A → bool) (l : list A) :
  count_where P l ≤ length l.
Proof.
  unfold count_where. etransitivity; [apply (tally_bound _ _ 1)|lia].
  intros x _. destruct (P x); lia.
Qed.

Section Fanout.
Context (p : processor) (batch : list attendee).
Implicit Types (f : fanout) (i : nat).

Local Notation tool := (AsyncAttendeeProcessor.search_tool p).
Local Notation cap := (AsyncAttendeeProcessor.max_concurrent_searches p).
Local Notation delay := (AsyncAttendeeProcessor.rate_limit_delay p).

Lemma fanout_inv_init : fanout_inv p batch (fanout_init p batch).
Proof.
  split; cbn.
  - apply length_replicate.
  - unfold holders, count_where. cbn. rewrite tally_replicate. cbn. lia.
  - intros i r [[=] _]%lookup_replicate.
  - intros i r [[=] _]%lookup_replicate.
Qed.

(** The three steps of a coroutine, case by case. *)
Lemma process_with_semaphore_Some i f f' :
  process_with_semaphore p batch i f = Some f' →
  ∃ a, batch !! i = Some a ∧
    ((tasks f !! i = Some Waiting ∧ ∃ free, permits f = S free
        ∧ f' = {| permits := free;
                  tasks := <[i := if delay_is_positive p then Sleeping
                                  else Searching]> (tasks f);
                  raised := raised f;
                  trace := trace f ++ [Acquired i] |})
     ∨ (tasks f !! i = Some Sleeping
        ∧ f' = {| permits := permits f;
                  tasks := <[i := Searching]> (tasks f);
                  raised := raised f;
                  trace := trace f ++ [Slept i delay] |})
     ∨ (tasks f !! i = Some Searching
        ∧ f' = {| permits := S (permits f);
                  tasks := <[i := Finished (process_attendee (tool i) a)]>
                             (tasks f);
                  raised := match raised f, process_attendee (tool i) a with
                            | None, Raises e => Some e
                            | first, _ => first
                            end;
                  trace := trace f ++ [Searched i; Released i] |})).
Proof.
  unfold process_with_semaphore.
  destruct (tasks f !! i) as [[| | |r]|] eqn:Et;
    destruct (batch !! i) as [a|] eqn:Ea; try done.
  - destruct (permits f) as [|free] eqn:Ep; [done|]. intros [= <-].
    exists a. split; [done|]. left. split; [done|]. by exists free.
  - intros [= <-]. exists a. split; [done|]. right. left. done.
  - intros [= <-]. exists a. split; [done|]. right. right. done.
Qed.

Lemma fanout_inv_step i f f' :
  fanout_inv p batch f → process_with_semaphore p batch i f = Some f' →
  fanout_inv p batch f'.
Proof.
  intros [Hlen Hper Hres Hrai] (a & Ha & Hstep)%process_with_semaphore_Some.
  destruct Hstep as [(Ht & free & Hfree & ->)|[(Ht & ->)|(Ht & ->)]];
    split; cbn [permits tasks raised trace].
  - by rewrite length_insert.
  - unfold holders in *. cbn [tasks].
    pose proof (count_where_insert holds_permit _ i _
                  (if delay_is_positive p then Sleeping else Searching) Ht)
      as Hc. cbn in Hc. destruct (delay_is_positive p); cbn in Hc; lia.
  - intros j r Hj. destruct (decide (i = j)) as [->|Hne].
    + rewrite list_lookup_insert_eq in Hj by (by eapply lookup_lt_Some).
      by destruct (delay_is_positive p).
    + rewrite list_lookup_insert_ne in Hj by done. by eapply Hres.
  - destruct (raised f) as [e|].
    + destruct Hrai as [j Hj]. exists j.
      rewrite list_lookup_insert_ne; [done|]. intros ->. congruence.
    + intros j r Hj. destruct (decide (i = j)) as [->|Hne].
      * rewrite list_lookup_insert_eq in Hj by (by eapply lookup_lt_Some).
        by destruct (delay_is_positive p).
      * rewrite list_lookup_insert_ne in Hj by done. by eapply Hrai.
  - by rewrite length_insert.
  - unfold holders in *. cbn [tasks].
    pose proof (count_where_insert holds_permit _ i _ Searching Ht) as Hc.
    cbn in Hc. lia.
  - intros j r Hj. destruct (decide (i = j)) as [->|Hne].
    + by rewrite list_lookup_insert_eq in Hj by (by eapply lookup_lt_Some).
    + rewrite list_lookup_insert_ne in Hj by done. by eapply Hres.
  - destruct (raised f) as [e|].
    + destruct Hrai as [j Hj]. exists j.
      rewrite list_lookup_insert_ne; [done|]. intros ->. congruence.
    + intros j r Hj. destruct (decide (i = j)) as [->|Hne].
      * by rewrite list_lookup_insert_eq in Hj by (by eapply lookup_lt_Some).
      * rewrite list_lookup_insert_ne in Hj by done. by eapply Hrai.
  - by rewrite length_insert.
  - unfold holders in *. cbn [tasks].
    pose proof (count_where_insert holds_permit _ i _
                  (Finished (process_attendee (tool i) a)) Ht) as Hc.
    cbn in Hc. lia.
  - intros j r Hj. destruct (decide (i = j)) as [->|Hne].
    + rewrite list_lookup_insert_eq in Hj by (by eapply lookup_lt_Some).
      injection Hj as <-. by exists a.
    + rewrite list_lookup_insert_ne in Hj by done. by eapply Hres.
  - assert (i < length (tasks f)) as Hi by (by eapply lookup_lt_Some).
    destruct (raised f) as [e|].
    + destruct Hrai as [j Hj]. exists j.
      rewrite list_lookup_insert_ne; [done|]. intros ->. congruence.
    + destruct (process_attendee (tool i) a) as [o|e] eqn:Er.
      * intros j r Hj. destruct (decide (i = j)) as [->|Hne].
        -- rewrite list_lookup_insert_eq in Hj by done.
           injection Hj as <-. by exists o.
        -- rewrite list_lookup_insert_ne in Hj by done. by eapply Hrai.
      * exists i. by rewrite list_lookup_insert_eq.
Qed.

Lemma fanout_reachable_inv f :
  fanout_reachable p batch f → fanout_inv p batch f.
Proof.
  intros Hreach. eapply (rtc_ind_r (fanout_inv p batch)); [| |exact Hreach].
  - apply fanout_inv_init.
  - intros f1 f2 _ [_ [i Hstep]] Hinv. by eapply fanout_inv_step.
Qed.

(** The results [gather] returns are, position by position, those of the
    coroutines. *)
Lemma results_of_Some ts outs :
  results_of ts = Some outs ↔ ts = map (λ o, Finished (Returns o)) outs.
Proof.
  revert outs. induction ts as [|t ts IH]; intros outs; cbn.
  - split; [intros [= <-]; done | by destruct outs].
  - destruct t as [| | |[o|e]]; try (split; [done | by destruct outs]).
    destruct (results_of ts) as [outs'|]; cbn.
    + split.
      * intros [= <-]. cbn. f_equal. by apply IH.
      * destruct outs as [|o' outs]; [done|]. cbn. intros [= -> Hts].
        f_equal. f_equal. apply IH in Hts. congruence.
    + split; [done|]. destruct outs as [|o' outs]; [done|]. cbn.
      intros [= -> Hts]. by apply IH in Hts.
Qed.

Lemma results_of_None ts :
  results_of ts = None →
  ∃ i t, ts !! i = Some t ∧ ∀ o, t ≠ Finished (Returns o).
Proof.
  induction ts as [|t ts IH]; [done|]. cbn. intros Hts.
  destruct t as [| | |[o|e]]; try (by exists 0; eexists).
  destruct (results_of ts); [done|].
  destruct IH as (i & t & Hi & Ht); [done|]. by exists (S i), t.
Qed.

(** What a finished call returns: one record per attendee, the record at
    each position being the one [process_attendee] gives for the attendee
    at that position. *)
Lemma gathered_positional f outs :
  fanout_inv p batch f → gathered f = Some (Returns outs) →
  length outs = length batch
  ∧ ∀ i a, batch !! i = Some a →
      ∃ o, outs !! i = Some o ∧ process_attendee (tool i) a = Returns o.
Proof.
  intros [Hlen _ Hres _]. unfold gathered.
  destruct (raised f); [done|].
  destruct (results_of (tasks f)) as [outs'|] eqn:E; [|done].
  intros [= ->]. apply results_of_Some in E. rewrite E in *.
  rewrite length_map in Hlen. split; [done|]. intros i a Ha.
  destruct (lookup_lt_is_Some_2 outs i) as [o Ho];
    [rewrite Hlen; by eapply lookup_lt_Some|].
  exists o. split; [done|].
  destruct (Hres i (Returns o)) as (a' & Ha' & Hr);
    [by rewrite list_lookup_fmap, Ho|]. congruence.
Qed.

(** With text for every email no coroutine raises. *)
Lemma gathered_returns f r :
  Forall has_mail batch → fanout_inv p batch f → gathered f = Some r →
  ∃ outs, r = Returns outs.
Proof.
  intros Hmail [_ _ Hres Hrai]. unfold gathered.
  destruct (raised f) as [e|].
  - destruct Hrai as [i Hi]. destruct (Hres _ _ Hi) as (a & Ha & Hr).
    rewrite Forall_lookup in Hmail. destruct (Hmail i a Ha) as [mail Hm].
    rewrite (process_attendee_text _ _ _ Hm) in Hr.
    by destruct (tool i _).
  - destruct (results_of (tasks f)) as [outs|]; [|done].
    intros [= <-]. by exists outs.
Qed.

(** A call that has not ended can go on, when the semaphore has a
    permit to give: no coroutine waits for ever. *)
Lemma fanout_progress f :
  (0 < cap)%Z → fanout_inv p batch f → gathered f = None →
  ∃ f', fanout_step p batch f f'.
Proof.
  intros Hcap [Hlen Hper Hres Hrai] Hgath.
  assert (∃ i f', process_with_semaphore p batch i f = Some f')
    as (i & f' & Hstep); [|by exists f'; split; [|exists i]].
  unfold gathered in Hgath. destruct (raised f); [done|].
  destruct (results_of (tasks f)) eqn:E; [done|].
  apply results_of_None in E as (i & t & Hi & Ht).
  assert (∀ j t, tasks f !! j = Some t → ∃ a, batch !! j = Some a) as Hin.
  { intros j t' Hj. apply lookup_lt_is_Some_2. rewrite <- Hlen.
    by eapply lookup_lt_Some. }
  destruct (decide (0 < holders f)) as [Hh|Hh].
  - apply count_where_pos in Hh as (j & t' & Hj & Hp).
    destruct (Hin j t' Hj) as [a Ha]. exists j.
    unfold process_with_semaphore. rewrite Hj, Ha.
    destruct t'; try done; by eexists.
  - destruct (Hin i t Hi) as [a Ha].
    destruct t as [| | |[o|e]].
    + exists i. unfold process_with_semaphore. rewrite Hi, Ha.
      destruct (permits f) eqn:Ep; [lia|]. by eexists.
    + exists i. unfold process_with_semaphore. rewrite Hi, Ha. by eexists.
    + exists i. unfold process_with_semaphore. rewrite Hi, Ha. by eexists.
    + by destruct (Ht o).
    + by destruct (Hrai i _ Hi).
Qed.

(** Every step brings the call closer to its end. *)
Lemma fanout_variant f f' :
  fanout_step p batch f f' → remaining f' < remaining f.
Proof.
  intros [_ [i (a & Ha & Hstep)%process_with_semaphore_Some]].
  unfold remaining.
  destruct Hstep as [(Ht & free & Hfree & ->)|[(Ht & ->)|(Ht & ->)]];
    cbn [tasks];
    match goal with
    | |- tally _ (<[_:=?t]> _) < _ =>
        pose proof (tally_insert task_weight _ i _ t Ht) as Hw
    end; cbn in Hw; [destruct (delay_is_positive p); cbn in Hw|..]; lia.
Qed.
(** So every call reaches its end. *)
Lemma fanout_terminates f :
  (0 < cap)%Z → fanout_inv p batch f →
  ∃ f', rtc (fanout_step p batch) f f' ∧ is_Some (gathered f').
Proof.
  intros Hcap. remember (remaining f) as n eqn:Hn. revert f Hn.
  induction (lt_wf n) as [n _ IH]. intros f -> Hinv.
  destruct (gathered f) as [r|] eqn:Hg.
  - exists f. split; [apply rtc_refl|]. by rewrite Hg.
  - destruct (fanout_progress f Hcap Hinv Hg) as [f1 Hstep].
    destruct (IH (remaining f1)) with (f := f1) as (f' & Hrtc & Hend);
      [by apply fanout_variant | done | |].
    + destruct Hstep as [_ [i Hi]]. by eapply fanout_inv_step.
    + exists f'. split; [by eapply rtc_l|done].
Qed.
End Fanout.

Section Fanout_trace.
Context (p : processor) (batch : list attendee).
Implicit Types (f : fanout) (i : nat).

Local Notation delay := (AsyncAttendeeProcessor.rate_limit_delay p).

Lemma events_of_app i tr tr' :
  events_of i (tr ++ tr') = events_of i tr ++ events_of i tr'.
Proof. apply List.filter_app. Qed.

Lemma trace_inv_init : trace_inv p (fanout_init p batch).
Proof.
  intros i. cbn. destruct (replicate _ _ !! i) eqn:E; [|done].
  by apply lookup_replicate in E as [-> _].
Qed.

Lemma trace_inv_step i f f' :
  trace_inv p f → process_with_semaphore p batch i f = Some f' →
  trace_inv p f'.
Proof.
  intros Hinv (a & Ha & Hstep)%process_with_semaphore_Some j.
  destruct (Hinv j) as [Hev Hsl].
  assert (i < length (tasks f)) as Hi.
  { destruct Hstep as [(Ht & _)|[(Ht & _)|(Ht & _)]]; by eapply lookup_lt_Some. }
  destruct (decide (i = j)) as [<-|Hne].
  - destruct Hstep as [(Ht & free & Hfree & ->)|[(Ht & ->)|(Ht & ->)]];
      cbn [tasks trace]; rewrite events_of_app, Hev, Ht,
        list_lookup_insert_eq by done; unfold events_of; cbn;
      rewrite ?Nat.eqb_refl.
    + unfold script. destruct (delay_is_positive p); done.
    + specialize (Hsl Ht). unfold script. rewrite Hsl. done.
    + unfold script. destruct (delay_is_positive p); done.
  - assert (i =? j = false) as Hij by (by apply Nat.eqb_neq).
    destruct Hstep as [(Ht & free & Hfree & ->)|[(Ht & ->)|(Ht & ->)]];
      cbn [tasks trace]; rewrite events_of_app, Hev,
        list_lookup_insert_ne by done; unfold events_of; cbn;
      rewrite ?Hij, app_nil_r; done.
Qed.

Lemma fanout_reachable_trace f :
  fanout_reachable p batch f → trace_inv p f.
Proof.
  intros Hreach. eapply (rtc_ind_r (trace_inv p)); [| |exact Hreach].
  - apply trace_inv_init.
  - intros f1 f2 _ [_ [i Hstep]] Hinv. by eapply trace_inv_step.
Qed.
End Fanout_trace.

Section Fanout_claims.
Context (p : processor) (batch : list attendee).
Implicit Types (f : fanout) (i : nat).

Local Notation tool := (AsyncAttendeeProcessor.search_tool p).
Local Notation cap := (AsyncAttendeeProcessor.max_concurrent_searches p).
Local Notation delay := (AsyncAttendeeProcessor.rate_limit_delay p).

Lemma process_attendees_gathered f :
  (0 ≤ cap)%Z → batch ≠ [] → process_attendees p batch f = gathered f.
Proof.
  intros Hcap Hne. unfold process_attendees. destruct batch; [done|].
  by destruct (Z.ltb_spec cap 0) as [?|_]; [lia|].
Qed.

Lemma process_attendees_returned f outs :
  batch ≠ [] → process_attendees p batch f = Some (Returns outs) →
  gathered f = Some (Returns outs).
Proof.
  intros Hne. unfold process_attendees. destruct batch; [done|].
  by destruct (_ <? _)%Z.
Qed.

Lemma process_attendees_nil f : process_attendees p [] f = Some (Returns []).
Proof. done. Qed.

(** Never more enrichment calls under way than permits. *)
Lemma in_flight_bound f :
  fanout_inv p batch f → in_flight f ≤ holders f ≤ Z.to_nat cap.
Proof.
  intros [_ Hper _ _]. split; [|lia].
  unfold in_flight, holders, count_where. apply tally_le.
  intros []; cbn; lia.
Qed.

(** C4. With text for every email and a positive number of permits, a
    [process_attendees] call comes to its end from wherever it is: while it
    has not ended it can take a step, every step brings it closer to its
    end, and what it returns at its end is a list
    with exactly one record per attendee of the batch, none missing and
    none before the others are in. Where the search of an item raises, the
    record of that item is there all the same, its [search_result] being
    [Error: ] followed by the text of the exception. The search tool of
    the source does not raise: a failure of the remote call comes back as
    the text of the error. *)
Theorem every_item_yields_one_outcome f :
  Forall has_mail batch → (0 < cap)%Z → fanout_reachable p batch f →
  (∃ f' outs, rtc (fanout_step p batch) f f'
     ∧ process_attendees p batch f' = Some (Returns outs))
  ∧ (process_attendees p batch f = None → ∃ f', fanout_step p batch f f')
  ∧ (∀ f', fanout_step p batch f f' → remaining f' < remaining f)
  ∧ (∀ r, process_attendees p batch f = Some r →
       ∃ outs, r = Returns outs
         ∧ length outs = length batch
         ∧ ∀ i a, batch !! i = Some a →
             ∃ o, outs !! i = Some o
               ∧ process_attendee (tool i) a = Returns o
               ∧ ∀ e, tool i (search_query_of (person_name_of a)
                                (get a "organization")) = Raises e →
                      search_result o = py "Error: " ++ e)
  ∧ (∀ answer query,
       ∃ text, execute_async answer query = Returns text
         ∧ ∀ e, answer query = Raises e →
             text = py "Error performing web search: " ++ e).
Proof.
  intros Hmail Hcap Hreach.
  pose proof (fanout_reachable_inv _ _ _ Hreach) as Hinv.
  enough ((∃ f' outs, rtc (fanout_step p batch) f f'
             ∧ process_attendees p batch f' = Some (Returns outs))
          ∧ (process_attendees p batch f = None →
               ∃ f', fanout_step p batch f f')
          ∧ (∀ f', fanout_step p batch f f' → remaining f' < remaining f)
          ∧ (∀ r, process_attendees p batch f = Some r →
               ∃ outs, r = Returns outs
                 ∧ length outs = length batch
                 ∧ ∀ i a, batch !! i = Some a →
                     ∃ o, outs !! i = Some o
                       ∧ process_attendee (tool i) a = Returns o
                       ∧ ∀ e, tool i (search_query_of (person_name_of a)
                                        (get a "organization")) = Raises e →
                              search_result o = py "Error: " ++ e))
    as (? & ? & ? & ?).
  { repeat (split; [done|]). intros answer query. eexists. split; [done|].
    intros e He. unfold run_async. by rewrite He. }
  destruct (decide (batch = [])) as [Hnil|Hne].
  - split; [|split; [|split]].
    + exists f, []. split; [apply rtc_refl|]. by rewrite Hnil.
    + intros Hnone. by rewrite Hnil in Hnone.
    + apply fanout_variant.
    + intros r Hr. rewrite Hnil in Hr. injection Hr as <-. exists [].
      rewrite Hnil. split; [done|]. split; [done|]. by intros i a.
  - rewrite process_attendees_gathered by (done || lia).
    split; [|split; [|split]].
    + destruct (fanout_terminates p batch f Hcap Hinv)
        as (f' & Hrtc & [r Hr]).
      assert (fanout_inv p batch f') as Hinv'
        by (eapply fanout_reachable_inv, rtc_trans; eauto).
      destruct (gathered_returns p batch f' r Hmail Hinv' Hr) as [outs ->].
      exists f', outs. split; [done|].
      by rewrite process_attendees_gathered by (done || lia).
    + by apply fanout_progress.
    + apply fanout_variant.
    + intros r Hr.
      destruct (gathered_returns p batch f r Hmail Hinv Hr) as [outs ->].
      exists outs. split; [done|].
      destruct (gathered_positional p batch f outs Hinv Hr) as [Hlen Hpos].
      split; [done|]. intros i a Ha. destruct (Hpos i a Ha) as (o & Ho & Hr').
      exists o. split; [done|]. split; [done|]. intros e He.
      rewrite Forall_lookup in Hmail. destruct (Hmail i a Ha) as [mail Hm].
      rewrite (process_attendee_text _ _ _ Hm), He in Hr'.
      by injection Hr' as <-.
Qed.

(** C10. The list [process_attendees] returns is in the order of its
    input: it is as long as the input, and the record at each position is
    the one [process_attendee] made for the attendee at that position;
    the empty list of attendees gives the empty list. *)
Theorem outcomes_keep_the_input_order f outs :
  fanout_reachable p batch f →
  process_attendees p batch f = Some (Returns outs) →
  length outs = length batch
  ∧ (∀ i a o, batch !! i = Some a → outs !! i = Some o →
       process_attendee (tool i) a = Returns o)
  ∧ (∀ f0, process_attendees p [] f0 = Some (Returns [])).
Proof.
  intros Hreach Hret. pose proof (fanout_reachable_inv _ _ _ Hreach) as Hinv.
  assert (length outs = length batch
          ∧ ∀ i a, batch !! i = Some a →
              ∃ o, outs !! i = Some o ∧ process_attendee (tool i) a = Returns o)
    as [Hlen Hpos].
  { destruct (decide (batch = [])) as [Hnil|Hne].
    - rewrite Hnil in *. injection Hret as <-. split; [done|]. by intros i a.
    - apply (gathered_positional p batch f outs Hinv).
      by apply process_attendees_returned. }
  split; [done|]. split; [|done].
  intros i a o Ha Ho. destruct (Hpos i a Ha) as (o' & Ho' & Hr). congruence.
Qed.

(** C8, as the code has it. Under a positive delay every coroutine of the
    fanout first acquires a permit, then sleeps the delay, then searches,
    then gives the permit back: its events are a beginning of that
    sequence, and while it sleeps it has acquired and not released. The
    delay is served inside [async with semaphore]. *)
Theorem delay_is_served_inside_the_permit f i :
  delay_is_positive p = true → fanout_reachable p batch f →
  events_of i (trace f)
    `prefix_of` [Acquired i; Slept i delay; Searched i; Released i]
  ∧ (tasks f !! i = Some Sleeping →
       events_of i (trace f) = [Acquired i]
       ∧ 0 < holders f
       ∧ permits f + holders f = Z.to_nat cap).
Proof.
  intros Hd Hreach.
  destruct (fanout_reachable_trace _ _ _ Hreach i) as [Hev _].
  pose proof (fanout_reachable_inv _ _ _ Hreach) as [_ Hper _ _].
  rewrite Hev. split.
  - destruct (tasks f !! i) as [[| | |r]|]; cbn; unfold script; rewrite ?Hd.
    + by exists [Acquired i; Slept i delay; Searched i; Released i].
    + by exists [Slept i delay; Searched i; Released i].
    + by exists [Searched i; Released i].
    + by exists [].
    + by exists [Acquired i; Slept i delay; Searched i; Released i].
  - intros Hs. rewrite Hs. split; [done|]. split; [|done].
    unfold holders.
    pose proof (count_where_insert holds_permit _ i _ Waiting Hs) as Hc.
    cbn in Hc. lia.
Qed.
End Fanout_claims.

Lemma delay_inside_witness :
  ∃ f, tasks f !! 0 = Some Sleeping
    ∧ events_of 0 (trace f) = [Acquired 0]
    ∧ 0 < holders f.
Proof.
  pose (p := sample_processor).
  pose (f := {| permits := 0; tasks := [Sleeping; Waiting]; raised := None;
                trace := [Acquired 0] |}).
  assert (fanout_reachable p (take 2 seven) f) as Hreach.
  { eapply rtc_l; [|apply rtc_refl].
    split; [reflexivity|]. exists 0. reflexivity. }
  destruct (delay_is_served_inside_the_permit p (take 2 seven) f 0 eq_refl Hreach)
    as [_ Hsleep].
  exists f. split; [reflexivity|].
  destruct (Hsleep eq_refl) as (Hev & Hh & _). split; [exact Hev | exact Hh].
Defined.

(** C8 as stated fails: a coroutine acquires its permit without having
    slept. *)
Lemma permit_is_acquired_before_the_delay :
  ∃ f, fanout_reachable sample_processor (take 2 seven) f
    ∧ ¬ sleeps_before_acquiring (trace f) 0 (1 # 2).
Proof.
  exists {| permits := 0; tasks := [Sleeping; Waiting]; raised := None;
            trace := [Acquired 0] |}.
  split.
  - eapply rtc_l; [|apply rtc_refl].
    split; [reflexivity|]. exists 0. reflexivity.
  - intros Hclaim. specialize (Hclaim [] [] eq_refl). set_solver.
Qed.

Lemma run_schedule_reachable p batch schedule f f' :
  run_schedule p batch schedule f = Some f' →
  rtc (fanout_step p batch) f f'.
Proof.
  revert f. induction schedule as [|i rest IH]; intros f; cbn.
  - intros [= <-]. apply rtc_refl.
  - destruct (gathered f) eqn:Eg; [done|].
    destruct (process_with_semaphore p batch i f) as [f1|] eqn:E1; [|done].
    cbn. intros Hrest. eapply rtc_l; [|by apply IH].
    split; [done|]. by exists i.
Qed.

Lemma two_of_seven_have_mail : Forall has_mail (take 2 seven).
Proof. repeat constructor; eexists; reflexivity. Defined.

(** Two attendees, the search of the second failing: two records, the
    second carrying the error. *)
Lemma every_item_witness :
  ∃ f outs,
    run_schedule flaky_processor (take 2 seven) [0; 1; 1; 0; 1; 0]
      (fanout_init flaky_processor (take 2 seven)) = Some f
    ∧ process_attendees flaky_processor (take 2 seven) f = Some (Returns outs)
    ∧ length outs = 2
    ∧ search_result <$> outs !! 1 = Some (py "Error: timeout").
Proof.
  destruct (run_schedule flaky_processor (take 2 seven) [0; 1; 1; 0; 1; 0]
              (fanout_init flaky_processor (take 2 seven))) as [f|] eqn:Hrun;
    [|vm_compute in Hrun; discriminate].
  destruct (every_item_yields_one_outcome flaky_processor (take 2 seven) f
              two_of_seven_have_mail ltac:(reflexivity)
              (run_schedule_reachable _ _ _ _ _ Hrun))
    as (_ & _ & _ & Hend & _).
  assert (∃ r, process_attendees flaky_processor (take 2 seven) f = Some r)
    as [r Hr].
  { vm_compute in Hrun. injection Hrun as <-. eexists. reflexivity. }
  destruct (Hend r Hr) as (outs & -> & Hlen & Hpos).
  exists f, outs. split; [reflexivity|]. split; [exact Hr|].
  split; [exact Hlen|].
  destruct (Hpos 1 _ eq_refl) as (o & -> & _ & Herr).
  cbn. f_equal. apply Herr. reflexivity.
Defined.

Lemma outcomes_order_witness :
  ∃ f outs,
    run_schedule flaky_processor (take 2 seven) [1; 0; 1; 1; 0; 0]
      (fanout_init flaky_processor (take 2 seven)) = Some f
    ∧ process_attendees flaky_processor (take 2 seven) f = Some (Returns outs)
    ∧ person_name <$> outs = [py "Ada A"; py "Bob B"].
Proof.
  destruct (run_schedule flaky_processor (take 2 seven) [1; 0; 1; 1; 0; 0]
              (fanout_init flaky_processor (take 2 seven))) as [f|] eqn:Hrun;
    [|vm_compute in Hrun; discriminate].
  assert (∃ outs, process_attendees flaky_processor (take 2 seven) f
                  = Some (Returns outs)) as [outs Hr].
  { vm_compute in Hrun. injection Hrun as <-. eexists. reflexivity. }
  destruct (outcomes_keep_the_input_order flaky_processor (take 2 seven) f outs
              (run_schedule_reachable _ _ _ _ _ Hrun) Hr) as (Hlen & Hpos & _).
  exists f, outs. split; [reflexivity|]. split; [exact Hr|].
  destruct outs as [|o0 [|o1 [|o2 outs]]]; try discriminate Hlen.
  pose proof (Hpos 0 _ o0 eq_refl eq_refl) as H0.
  pose proof (Hpos 1 _ o1 eq_refl eq_refl) as H1.
  vm_compute in H0, H1. injection H0 as <-. injection H1 as <-. reflexivity.
Defined.

(* --------------------------------------------------------------------- *)
(** ** The pool of batches                                                *)
(* --------------------------------------------------------------------- *)

Lemma concat_map_insert {A B} (g : A → list B) (l : list A) i x y :
  l !! i = Some x →
  concat (map g (<[i:=y]> l)) ++ g x ≡ₚ concat (map g l) ++ g y.
Proof.
  revert i. induction l as [|z l IH]; intros [|i] Hi; try done; simpl in *.
  - injection Hi as ->. rewrite <- !app_assoc.
    by rewrite (Permutation_app_comm (g y)), !app_assoc,
      (Permutation_app_comm (g x)).
  - rewrite <- !app_assoc. by rewrite (IH i Hi).
Qed.

Lemma concat_map_filter {A B} (g : A → list B) (P : A → bool) (l : list A) :
  (∀ x, x ∈ l → P x = false → g x = []) →
  concat (map g (List.filter P l)) = concat (map g l).
Proof.
  induction l as [|z l IH]; [done|]. intros Hl. cbn.
  destruct (P z) eqn:Ez; cbn; rewrite IH by set_solver; [done|].
  by rewrite Hl by set_solver.
Qed.

Lemma tally_scaled {A} (v : A → nat) (P : A → bool) (n : nat) (l : list A) :
  (∀ x, x ∈ l → v x ≤ (if P x then n else 0)) →
  tally v l ≤ count_where P l * n.
Proof.
  induction l as [|z l IH]; cbn; [lia|]. intros Hl.
  assert (v z ≤ (if P z then n else 0)) by (apply Hl; set_solver).
  assert (tally v l ≤ count_where P l * n) by (apply IH; set_solver).
  unfold count_where in *. cbn. destruct (P z); lia.
Qed.

Lemma forallb_false {A} (P : A → bool) (l : list A) :
  forallb P l = false → ∃ i x, l !! i = Some x ∧ P x = false.
Proof.
  induction l as [|z l IH]; [done|]. cbn. intros Hl.
  destruct (P z) eqn:Ez; [|by exists 0, z].
  destruct (IH Hl) as (i & x & Hi & Hx). by exists (S i), x.
Qed.

Lemma slice_length {A} (l : list A) a b : length (slice l a b) ≤ length l.
Proof.
  unfold slice. rewrite length_take, length_drop. lia.
Qed.

Lemma Forall_slice {A} (P : A → Prop) (l : list A) a b :
  Forall P l → Forall P (slice l a b).
Proof. intros Hl. unfold slice. by apply Forall_take, Forall_drop. Qed.

Lemma preprocess_attendees_Returns atts B i batch :
  preprocess_attendees atts B i = Returns batch →
  length batch ≤ length atts ∧ (∀ P, Forall P atts → Forall P batch).
Proof.
  unfold preprocess_attendees. destruct (batch_count _ _); [|done].
  cbn. intros [= <-]. split; [apply slice_length|].
  intros P. apply Forall_slice.
Qed.

(** A lookup in a list updated at [b], read at [b']: the two cases. *)
Ltac insert_cases H b b' :=
  destruct (decide (b = b')) as [<-|?];
  [rewrite list_lookup_insert_eq in H by done
  |rewrite list_lookup_insert_ne in H by done].

Section Pool.
Context `{World} (c : crew).
Implicit Types (s : pool) (b : nat) (st : batch_state).

Local Notation atts := (PharmaCrew.attendees c).
Local Notation cap := (PharmaCrew.max_concurrent_searches c).

(** A step of a worker, case by case. *)
Lemma process_batch_Some b k st st' :
  process_batch c b k st = Some st' →
  (k = Enter ∧ st = Pending
   ∧ ((∃ e, preprocess_attendees atts (PharmaCrew.batch_size c) (Z.of_nat b)
            = Raises e ∧ st' = Completed [BatchError e] (JList []))
      ∨ (∃ batch, preprocess_attendees atts (PharmaCrew.batch_size c)
                    (Z.of_nat b) = Returns batch
           ∧ st' = if PharmaCrew.use_async_processing c
                   then Gathering batch (fanout_init (processor_of c b) batch)
                   else Finishing None)))
  ∨ (∃ i batch f f', k = Resume i ∧ st = Gathering batch f
       ∧ process_attendees (processor_of c b) batch f = None
       ∧ process_with_semaphore (processor_of c b) batch i f = Some f'
       ∧ st' = Gathering batch f')
  ∨ (∃ batch f r, k = Gather ∧ st = Gathering batch f
       ∧ process_attendees (processor_of c b) batch f = Some r
       ∧ st' = Finishing (Some r))
  ∨ (∃ searched notes v, k = Finish ∧ st = Finishing searched
       ∧ (notes, v) = match searched with
                      | Some r => process_batch_async b r
                      | None => process_batch_with_crew b
                      end
       ∧ st' = Completed notes v).
Proof.
  unfold process_batch. destruct k as [|i| |], st as [|batch f|[r|]|? ?|? ?];
    try done.
  - intros Hst. left. split; [done|]. split; [done|].
    destruct (preprocess_attendees _ _ _) as [batch|e].
    + right. exists batch. split; [done|].
      by destruct (PharmaCrew.use_async_processing c); injection Hst as <-.
    + left. exists e. by injection Hst as <-.
  - destruct (process_attendees _ batch f) eqn:Ep; [done|].
    destruct (process_with_semaphore _ batch i f) as [f'|] eqn:Es; [|done].
    intros [= <-]. right. left. by exists i, batch, f, f'.
  - destruct (process_attendees _ batch f) as [r|] eqn:Ep; [|done].
    intros [= <-]. right. right. left. by exists batch, f, r.
  - destruct (process_batch_async b r) as [notes v] eqn:E. intros [= <-].
    right. right. right. by exists (Some r), notes, v.
  - destruct (process_batch_with_crew b) as [notes v] eqn:E. intros [= <-].
    right. right. right. by exists None, notes, v.
Qed.

(** A step of the pool, case by case. *)
Lemma pool_step_Some workers a s s' :
  pool_step c workers a s = Some s' →
  (∃ b k st st', a = Work b k ∧ batches s !! b = Some st
     ∧ process_batch c b k st = Some st'
     ∧ (k = Enter → running s < workers)
     ∧ s' = {| batches := <[b := st']> (batches s);
               all_results := all_results s |})
  ∨ (∃ b notes v, a = Absorb b ∧ batches s !! b = Some (Completed notes v)
       ∧ s' = {| batches := <[b := Absorbed notes v]> (batches s);
                 all_results := extend (all_results s) v |}).
Proof.
  destruct a as [b k|b]; cbn.
  - destruct (batches s !! b) as [st|] eqn:Eb; [|done]. cbn.
    destruct (process_batch c b k st) as [st'|] eqn:Es; [|done]. cbn.
    intros Hs'. left. exists b, k, st, st'.
    destruct k; try (injection Hs' as <-; by repeat split).
    destruct (decide (running s < workers)); [|done].
    injection Hs' as <-. by repeat split.
  - destruct (batches s !! b) as [[| | |notes v|]|] eqn:Eb; try done.
    intros [= <-]. right. by exists b, notes, v.
Qed.

Lemma plan_Returns total_batches workers :
  plan c = Returns (total_batches, workers) →
  0 < workers ∧ (Z.of_nat workers ≤ PharmaCrew.max_workers c)%Z
  ∧ workers ≤ total_batches
  ∧ batch_count (Z.of_nat (length atts)) (PharmaCrew.batch_size c)
    = Returns (Z.of_nat total_batches).
Proof.
  unfold plan. destruct (batch_count _ _) as [total|e] eqn:E; [|done]. cbn.
  destruct (Z.leb_spec (Z.min (PharmaCrew.max_workers c) total) 0); [done|].
  intros [= <- <-]. split; [lia|]. split; [lia|]. split; [lia|].
  f_equal. lia.
Qed.

Lemma process_attendees_None b batch f :
  process_attendees (processor_of c b) batch f = None → gathered f = None.
Proof.
  unfold process_attendees. destruct batch; [done|]. by destruct (_ <? _)%Z.
Qed.

Lemma absorbed_running st : is_running st = true → absorbed st = [].
Proof. by destruct st. Qed.

Lemma pool_inv_init total_batches workers :
  pool_inv c total_batches workers (pool_init total_batches).
Proof.
  split; cbn.
  - apply length_replicate.
  - unfold running, count_where. rewrite tally_replicate. cbn. lia.
  - intros b batch f [[=] _]%lookup_replicate.
  - induction total_batches as [|n IH]; [done|]. exact IH.
Qed.

Lemma pool_inv_step total_batches workers a s s' :
  pool_inv c total_batches workers s →
  pool_step c workers a s = Some s' →
  pool_inv c total_batches workers s'.
Proof.
  intros [Hlen Hwid Hfan Hres] Hstep.
  apply pool_step_Some in Hstep
    as [(b & k & st & st' & -> & Hb & Hk & Hfree & ->)
       |(b & notes & v & -> & Hb & ->)].
  - assert (b < length (batches s)) as Hlt by (by eapply lookup_lt_Some).
    pose proof (count_where_insert is_running _ b _ st' Hb) as Hrun.
    pose proof (concat_map_insert absorbed _ b _ st' Hb) as Hcat.
    apply process_batch_Some in Hk
      as [(-> & -> & Hk)|[(i & batch & f & f' & -> & -> & Hnone & Hi & ->)
         |[(batch & f & r & -> & -> & Hsome & ->)
          |(searched & notes & v & -> & -> & Hv & ->)]]];
      split; cbn [batches all_results];
      try (by rewrite length_insert);
      try (unfold running in *; cbn [batches]; cbn in Hrun; lia).
    + unfold running in *. cbn [batches]. specialize (Hfree eq_refl).
      destruct (is_running st'); cbn in Hrun; lia.
    + intros b' batch f Hb'. insert_cases Hb' b b'; [|by apply Hfan].
      destruct Hk as [(e & _ & ->)|(batch' & Hpre & ->)]; [done|].
      destruct (PharmaCrew.use_async_processing c); [|done].
      injection Hb' as <- <-. split; [done|]. apply rtc_refl.
    + assert (absorbed st' = []) as Hst'.
      { destruct Hk as [(e & _ & ->)|(batch' & _ & ->)]; [done|].
        by destruct (PharmaCrew.use_async_processing c). }
      rewrite Hst' in Hcat. cbn in Hcat. rewrite !app_nil_r in Hcat.
      by rewrite Hcat.
    + intros b' batch' f0 Hb'. insert_cases Hb' b b'; [|by apply Hfan].
      injection Hb' as <- <-. destruct (Hfan b batch f Hb) as [Hpre Hreach].
      split; [done|]. eapply rtc_r; [exact Hreach|].
      split; [by eapply process_attendees_None|by exists i].
    + cbn in Hcat. rewrite !app_nil_r in Hcat. by rewrite Hcat.
    + intros b' batch' f0 Hb'. insert_cases Hb' b b'; [done|by apply Hfan].
    + cbn in Hcat. rewrite !app_nil_r in Hcat. by rewrite Hcat.
    + intros b' batch' f0 Hb'. insert_cases Hb' b b'; [done|by apply Hfan].
    + cbn in Hcat. rewrite !app_nil_r in Hcat. by rewrite Hcat.
  - assert (b < length (batches s)) as Hlt by (by eapply lookup_lt_Some).
    pose proof (count_where_insert is_running _ b _ (Absorbed notes v) Hb)
      as Hrun.
    pose proof (concat_map_insert absorbed _ b _ (Absorbed notes v) Hb)
      as Hcat.
    split; cbn [batches all_results].
    + by rewrite length_insert.
    + unfold running in *. cbn [batches]. cbn in Hrun. lia.
    + intros b' batch' f0 Hb'. insert_cases Hb' b b'; [done|by apply Hfan].
    + cbn [absorbed] in Hcat. rewrite app_nil_r in Hcat. rewrite Hcat.
      unfold extend. destruct (iterate v).
      * by rewrite Hres.
      * by rewrite app_nil_r.
Qed.

Lemma pool_reachable_inv s :
  pool_reachable c s →
  ∃ total_batches workers,
    plan c = Returns (total_batches, workers)
    ∧ pool_inv c total_batches workers s.
Proof.
  intros (_ & total_batches & workers & Hplan & Hreach).
  exists total_batches, workers. split; [done|].
  eapply (rtc_ind_r (pool_inv c total_batches workers)); [| |exact Hreach].
  - apply pool_inv_init.
  - intros s1 s2 _ [a Hstep] Hinv. by eapply pool_inv_step.
Qed.

Lemma pool_step_work workers b k st st' s :
  batches s !! b = Some st → process_batch c b k st = Some st' →
  (k = Enter → running s < workers) →
  pool_step c workers (Work b k) s
  = Some {| batches := <[b := st']> (batches s);
            all_results := all_results s |}.
Proof.
  intros Hb Hk Hfree. unfold pool_step. rewrite Hb. cbn [mbind option_bind].
  rewrite Hk. cbn [mbind option_bind].
  destruct k; try done. by rewrite decide_True by auto.
Qed.

Lemma process_batch_Enter b : is_Some (process_batch c b Enter Pending).
Proof.
  unfold process_batch. destruct (preprocess_attendees _ _ _); [|done].
  by destruct (PharmaCrew.use_async_processing c).
Qed.

Lemma process_batch_Finish b searched :
  is_Some (process_batch c b Finish (Finishing searched)).
Proof.
  unfold process_batch. destruct searched as [r|].
  - by destruct (process_batch_async b r).
  - by destruct (process_batch_with_crew b).
Qed.

(** The pool never runs out of steps before every batch is absorbed, when
    the semaphores have a permit to give. *)
Lemma pool_progress total_batches workers s :
  (0 < cap)%Z → 0 < workers →
  pool_inv c total_batches workers s →
  forallb is_absorbed (batches s) = false →
  ∃ s', pool_next c workers s s'.
Proof.
  intros Hcap Hw [Hlen Hwid Hfan Hres] Hopen.
  assert (∀ b st, batches s !! b = Some st → is_running st = true →
            ∃ s', pool_next c workers s s') as Hwork.
  { intros b st Hb Hrun. destruct st as [|batch f|searched|? ?|? ?]; try done.
    - destruct (process_attendees (processor_of c b) batch f) as [r|] eqn:Ep.
      + eexists. exists (Work b Gather).
        eapply pool_step_work; [done| |done]. cbn. by rewrite Ep.
      + destruct (Hfan b batch f Hb) as [_ Hreach].
        destruct (fanout_progress (processor_of c b) batch f)
          as (f' & _ & i & Hi);
          [done | by apply fanout_reachable_inv
          | by eapply process_attendees_None |].
        eexists. exists (Work b (Resume i)).
        eapply pool_step_work; [done| |done]. cbn. by rewrite Ep, Hi.
    - destruct (process_batch_Finish b searched) as [st' Hst'].
      eexists. exists (Work b Finish). by eapply pool_step_work. }
  apply forallb_false in Hopen as (b & st & Hb & Hst).
  destruct st as [|batch f|searched|notes v|? ?]; try done.
  - destruct (decide (running s < workers)) as [Hfree|Hfull].
    + destruct (process_batch_Enter b) as [st' Hst'].
      eexists. exists (Work b Enter). by eapply pool_step_work.
    + destruct (count_where_pos is_running (batches s))
        as (b' & st' & Hb' & Hrun); [unfold running in *; lia|].
      by eapply Hwork.
  - by eapply Hwork.
  - by eapply Hwork.
  - eexists. exists (Absorb b). cbn. by rewrite Hb.
Qed.

(** Every step of the pool brings the run closer to its end. *)
Lemma pool_variant total_batches workers s s' :
  pool_inv c total_batches workers s →
  pool_next c workers s s' → outstanding c s' < outstanding c s.
Proof.
  intros [Hlen Hwid Hfan Hres] [a Hstep]. unfold outstanding.
  apply pool_step_Some in Hstep
    as [(b & k & st & st' & -> & Hb & Hk & Hfree & ->)
       |(b & notes & v & -> & Hb & ->)]; cbn [batches].
  - pose proof (tally_insert (batch_weight (length atts)) _ b _ st' Hb) as Hw.
    enough (batch_weight (length atts) st' < batch_weight (length atts) st)
      by lia.
    apply process_batch_Some in Hk
      as [(-> & -> & Hk)|[(i & batch & f & f' & -> & -> & Hnone & Hi & ->)
         |[(batch & f & r & -> & -> & Hsome & ->)
          |(searched & notes & v & -> & -> & Hv & ->)]]]; cbn.
    + destruct Hk as [(e & _ & ->)|(batch & Hpre & ->)]; cbn; [lia|].
      destruct (PharmaCrew.use_async_processing c); cbn; [|lia].
      apply preprocess_attendees_Returns in Hpre as [Hle _].
      unfold remaining. cbn. rewrite tally_replicate. cbn. lia.
    + enough (remaining f' < remaining f) by lia.
      apply (fanout_variant (processor_of c b) batch).
      split; [by eapply process_attendees_None|by exists i].
    + lia.
    + lia.
  - pose proof (tally_insert (batch_weight (length atts)) _ b _
                  (Absorbed notes v) Hb) as Hw. cbn in Hw. lia.
Qed.

(** So every run reaches the state in which all batches are absorbed. *)
Lemma pool_terminates total_batches workers s :
  (0 < cap)%Z → 0 < workers → pool_inv c total_batches workers s →
  ∃ s', rtc (pool_next c workers) s s'
    ∧ forallb is_absorbed (batches s') = true.
Proof.
  intros Hcap Hw. remember (outstanding c s) as n eqn:Hn. revert s Hn.
  induction (lt_wf n) as [n _ IH]. intros s -> Hinv.
  destruct (forallb is_absorbed (batches s)) eqn:Habs.
  - exists s. split; [apply rtc_refl|done].
  - destruct (pool_progress _ _ s Hcap Hw Hinv Habs) as [s1 Hstep].
    destruct (IH (outstanding c s1)) with (s := s1) as (s' & Hrtc & Hend);
      [by eapply pool_variant | done | |].
    + destruct Hstep as [a Ha]. by eapply pool_inv_step.
    + exists s'. split; [by eapply rtc_l|done].
Qed.

Lemma process_attendees_returns b batch f r :
  Forall has_mail batch → (0 ≤ cap)%Z →
  fanout_reachable (processor_of c b) batch f →
  process_attendees (processor_of c b) batch f = Some r →
  ∃ outs, r = Returns outs.
Proof.
  intros Hmail Hcap Hreach. destruct (decide (batch = [])) as [->|Hne].
  - intros [= <-]. by exists [].
  - rewrite process_attendees_gathered by done.
    apply (gathered_returns (processor_of c b) batch); [done|].
    by apply fanout_reachable_inv.
Qed.

Lemma pool_settled_init total_batches : pool_settled (pool_init total_batches).
Proof.
  split; cbn; intros;
    match goal with
    | H : replicate _ _ !! _ = Some _ |- _ =>
        by apply lookup_replicate in H as [[=] _]
    end.
Qed.

Lemma pool_settled_step total_batches workers a s s' :
  Forall has_mail atts → (0 ≤ cap)%Z →
  plan c = Returns (total_batches, workers) →
  pool_inv c total_batches workers s → pool_settled s →
  pool_step c workers a s = Some s' → pool_settled s'.
Proof.
  intros Hmail Hcap Hplan [Hlen Hwid Hfan Hres] [Hsea Hcom Habs] Hstep.
  apply plan_Returns in Hplan as (_ & _ & _ & Hcount).
  apply pool_step_Some in Hstep
    as [(b & k & st & st' & -> & Hb & Hk & Hfree & ->)
       |(b & notes & v & -> & Hb & ->)].
  - assert (b < length (batches s)) as Hlt by (by eapply lookup_lt_Some).
    assert (∀ b' st0, <[b:=st']> (batches s) !! b' = Some st0 →
              (b' = b ∧ st0 = st') ∨ batches s !! b' = Some st0) as Hcase.
    { intros b' st0 Hb'. destruct (decide (b = b')) as [<-|Hne].
      - rewrite list_lookup_insert_eq in Hb' by done. left. by injection Hb'.
      - rewrite list_lookup_insert_ne in Hb' by done. by right. }
    apply process_batch_Some in Hk
      as [(-> & -> & Hk)|[(i & batch & f & f' & -> & -> & Hnone & Hi & ->)
         |[(batch & f & r & -> & -> & Hsome & ->)
          |(searched & notes & v & -> & -> & Hv & ->)]]].
    + destruct Hk as [(e & Hpre & ->)|(batch & Hpre & ->)].
      { unfold preprocess_attendees in Hpre. by rewrite Hcount in Hpre. }
      split; cbn [batches]; intros;
        match goal with
        | Hb' : <[_:=_]> _ !! _ = Some _ |- _ =>
            apply Hcase in Hb' as [[-> Hst]|Hold]
        end;
        try (by destruct (PharmaCrew.use_async_processing c)); eauto.
    + split; cbn [batches]; intros;
        match goal with
        | Hb' : <[_:=_]> _ !! _ = Some _ |- _ =>
            apply Hcase in Hb' as [[-> Hst]|Hold]
        end;
        try done; eauto.
    + destruct (Hfan b batch f Hb) as [Hpre Hreach].
      apply preprocess_attendees_Returns in Hpre as [_ Hall].
      split; cbn [batches]; intros;
        match goal with
        | Hb' : <[_:=_]> _ !! _ = Some _ |- _ =>
            apply Hcase in Hb' as [[-> Hst]|Hold]
        end;
        try done; eauto.
      injection Hst as <-.
      eapply process_attendees_returns;
        [apply Hall, Hmail | done | exact Hreach | exact Hsome].
    + split; cbn [batches]; intros;
        match goal with
        | Hb' : <[_:=_]> _ !! _ = Some _ |- _ =>
            apply Hcase in Hb' as [[-> Hst]|Hold]
        end;
        try done; eauto.
      injection Hst as <- <-. destruct searched as [r|]; [|done].
      destruct (Hsea b r Hb) as [outs ->]. exact Hv.
  - assert (b < length (batches s)) as Hlt by (by eapply lookup_lt_Some).
    split; cbn [batches]; intros;
      match goal with
      | Hb' : <[_:=_]> _ !! ?b' = Some _ |- _ =>
          destruct (decide (b = b')) as [<-|Hne];
          [rewrite list_lookup_insert_eq in Hb' by done
          |rewrite list_lookup_insert_ne in Hb' by done]
      end; try done; eauto.
    match goal with Hb' : Some _ = Some _ |- _ => injection Hb' as <- <- end.
    eauto.
Qed.

Lemma pool_reachable_settled s :
  Forall has_mail atts → (0 ≤ cap)%Z → pool_reachable c s → pool_settled s.
Proof.
  intros Hmail Hcap (_ & total_batches & workers & Hplan & Hreach).
  enough (pool_inv c total_batches workers s ∧ pool_settled s) as [_ ?]
    by done.
  eapply (rtc_ind_r (λ s, pool_inv c total_batches workers s ∧ pool_settled s));
    [| |exact Hreach].
  - split; [apply pool_inv_init|apply pool_settled_init].
  - intros s1 s2 _ [a Hstep] [Hinv Hset]. split.
    + by eapply pool_inv_step.
    + by eapply pool_settled_step.
Qed.

Lemma pool_returned_step workers a s s' :
  pool_returned s → pool_step c workers a s = Some s' → pool_returned s'.
Proof.
  intros Hret Hstep b' notes' v' Hb'.
  apply pool_step_Some in Hstep
    as [(b & k & st & st' & -> & Hb & Hk & Hfree & ->)
       |(b & notes & v & -> & Hb & ->)]; cbn [batches] in Hb'.
  - assert (b < length (batches s)) as Hlt by (by eapply lookup_lt_Some).
    destruct (decide (b = b')) as [<-|Hne];
      [|rewrite !list_lookup_insert_ne in Hb' by done; by eapply Hret].
    rewrite !list_lookup_insert_eq in Hb' by done.
    apply process_batch_Some in Hk
      as [(-> & -> & Hk)|[(i & batch & f & f' & -> & -> & Hnone & Hi & ->)
         |[(batch & f & r & -> & -> & Hsome & ->)
          |(searched & notes & v & -> & -> & Hv & ->)]]].
    + destruct Hk as [(e & _ & ->)|(batch & _ & ->)].
      * destruct Hb' as [[= <- <-]|[=]]. by right.
      * by destruct (PharmaCrew.use_async_processing c), Hb'.
    + by destruct Hb'.
    + by destruct Hb'.
    + destruct Hb' as [[= <- <-]|[=]].
      destruct searched as [[outs|e]|]; [by left| |by left].
      right. by injection Hv.
  - assert (b < length (batches s)) as Hlt by (by eapply lookup_lt_Some).
    destruct (decide (b = b')) as [<-|Hne];
      [|rewrite !list_lookup_insert_ne in Hb' by done; by eapply Hret].
    rewrite !list_lookup_insert_eq in Hb' by done.
    destruct Hb' as [[=]|[= <- <-]]. eapply Hret. by left.
Qed.

Lemma pool_reachable_returned s : pool_reachable c s → pool_returned s.
Proof.
  intros (_ & total_batches & workers & Hplan & Hreach).
  eapply (rtc_ind_r pool_returned); [| |exact Hreach].
  - intros b notes v [[[=] _]%lookup_replicate|[[=] _]%lookup_replicate].
  - intros s1 s2 _ [a Hstep] Hret. by eapply pool_returned_step.
Qed.

(** What is absorbed from a batch is what its classification delivers. *)
Lemma absorbed_classified b notes v :
  (notes, v) = process_batch_with_crew b →
  absorbed (Absorbed notes v) = classified b.
Proof.
  unfold process_batch_with_crew, classified, at_boundary. cbn.
  destruct (classify b) as [notes' [v'|e]]; by intros [= -> ->].
Qed.

(** A batch whose [crew.kickoff()] raises delivers nothing. *)
Lemma classified_kickoff_raises b e :
  kickoff b = Raises e → classified b = [].
Proof.
  intros Hk. unfold classified, classify. destruct (crew_setup b); [done|].
  rewrite Hk. destruct (is_telemetry_error e); [|done].
  unfold decode_results.
  change (clean_json_text (py "[]")) with (py "[]").
  by rewrite loads_empty_list.
Qed.

Lemma analyze_reachable s :
  pool_reachable c s →
  analyze c s = if forallb is_absorbed (batches s) then Some (all_results s)
                else None.
Proof.
  intros (Hne & total_batches & workers & Hplan & _). unfold analyze.
  destruct atts; [done|]. by rewrite Hplan.
Qed.
End Pool.

(* --------------------------------------------------------------------- *)
(** ** The run as a whole                                                 *)
(* --------------------------------------------------------------------- *)

Lemma map_by_position {A B} (g : A → B) (h : nat → B) (l : list A) n :
  (∀ i x, l !! i = Some x → g x = h (n + i)) →
  map g l = map h (seq n (length l)).
Proof.
  revert n. induction l as [|x l IH]; intros n Hl; [done|]. cbn. f_equal.
  - rewrite (Hl 0 x eq_refl). f_equal. lia.
  - apply IH. intros i y Hi. rewrite (Hl (S i) y Hi). f_equal. lia.
Qed.

Lemma tally_by_position {A} (v : A → nat) (w : nat → nat) (l : list A) n :
  (∀ i x, l !! i = Some x → v x ≤ w (n + i)) →
  tally v l ≤ tally w (seq n (length l)).
Proof.
  revert n. induction l as [|x l IH]; intros n Hl; [done|]. cbn.
  pose proof (Hl 0 x eq_refl) as H0. rewrite Nat.add_0_r in H0.
  assert (tally v l ≤ tally w (seq (S n) (length l))); [|lia].
  apply IH. intros i y Hi. specialize (Hl (S i) y Hi).
  by replace (S n + i) with (n + S i) by lia.
Qed.

Lemma delete_beyond {A} (l : list A) j : l !! j = None → delete j l = l.
Proof.
  revert j. induction l as [|x l IH]; intros [|j] Hj; try done; cbn in *.
  by rewrite IH.
Qed.

Lemma concat_delete_nil {A} (ls : list (list A)) j :
  ls !! j = Some [] → concat (delete j ls) = concat ls.
Proof.
  revert j. induction ls as [|l ls IH]; intros [|j] Hj; try done; cbn in *.
  - by injection Hj as ->.
  - by rewrite IH.
Qed.

Lemma length_concat_map {A B} (g : A → list B) (l : list A) :
  length (concat (map g l)) = tally (λ x, length (g x)) l.
Proof.
  induction l as [|x l IH]; [done|]. cbn. by rewrite length_app, IH.
Qed.

Lemma run_pool_steps `{World} c workers actions s s' :
  run_pool c workers actions s = Some s' → rtc (pool_next c workers) s s'.
Proof.
  revert s. induction actions as [|a rest IH]; intros s; cbn.
  - intros [= <-]. apply rtc_refl.
  - destruct (pool_step c workers a s) as [s1|] eqn:E1; [|done]. cbn.
    intros Hrest. eapply rtc_l; [by exists a|by apply IH].
Qed.

Section Run.
Context `{World} (c : crew).
Implicit Types (s : pool) (b : nat).

Local Notation atts := (PharmaCrew.attendees c).
Local Notation cap := (PharmaCrew.max_concurrent_searches c).

(** C1. A run of [analyze] comes to its end from wherever it is, when the
    semaphores have a permit to give: while it is under way it can take a
    step, and every step brings it closer to its end. The list it returns
    then is made, in some order, of what its batches delivered, and what a
    batch delivered is what its classification decoded or nothing: a batch
    whose pipeline raised, or whose text could not be decoded, delivered
    nothing, so the list is no longer than the records of the batches that
    succeeded. When [crew.kickoff()] raises for a batch, the list holds
    exactly what the other batches delivered, and with text for every email
    each of these delivered all its records. *)
Theorem failed_batches_contribute_nothing s :
  pool_reachable c s →
  ∃ total_batches workers,
    plan c = Returns (total_batches, workers)
    ∧ ((0 < cap)%Z →
         ∃ s' results, rtc (pool_next c workers) s s'
           ∧ analyze c s' = Some results)
    ∧ ((0 < cap)%Z → analyze c s = None → ∃ s', pool_next c workers s s')
    ∧ (∀ s', pool_next c workers s s' → outstanding c s' < outstanding c s)
    ∧ ∀ results, analyze c s = Some results →
        ∃ delivered : list (list jval),
          length delivered = total_batches
          ∧ results ≡ₚ concat delivered
          ∧ (∀ b records, delivered !! b = Some records →
               records = [] ∨ records = classified b)
          ∧ (Forall has_mail atts → (0 ≤ cap)%Z →
               delivered = map classified (seq 0 total_batches))
          ∧ length results
            ≤ tally (λ b, length (classified b)) (seq 0 total_batches)
          ∧ (∀ b notes e, classify b = (notes, Raises e) → classified b = [])
          ∧ (∀ b notes,
               classify b = (notes ++ [Skipped], Returns (JList [])) →
               classified b = [])
          ∧ ∀ j e, kickoff j = Raises e →
              results ≡ₚ concat (delete j delivered).
Proof.
  intros Hreach.
  destruct (pool_reachable_inv c s Hreach)
    as (total_batches & workers & Hplan & Hinv).
  pose proof (pool_reachable_returned c s Hreach) as Hret.
  destruct (plan_Returns c _ _ Hplan) as (Hw & _ & _ & _).
  exists total_batches, workers. split; [done|].
  rewrite (analyze_reachable c s Hreach). split; [|split; [|split]].
  - intros Hcap.
    destruct (pool_terminates c _ _ s Hcap Hw Hinv) as (s' & Hrtc & Hend).
    exists s', (all_results s'). split; [done|].
    rewrite analyze_reachable, Hend; [done|].
    destruct Hreach as (Hne & k & w & Hplan' & Hsteps).
    rewrite Hplan in Hplan'. injection Hplan' as <- <-.
    split; [done|]. exists total_batches, workers. split; [done|].
    by eapply rtc_trans.
  - intros Hcap.
    destruct (forallb is_absorbed (batches s)) eqn:Eabs; [done|]. intros _.
    by eapply pool_progress.
  - intros s'. by eapply pool_variant.
  - intros results. destruct (forallb is_absorbed (batches s)) eqn:Eabs;
      [|done]. intros [= <-].
    destruct Hinv as [Hlen _ _ Hres]. rewrite forallb_forall in Eabs.
    assert (∀ b st, batches s !! b = Some st →
              ∃ notes v, st = Absorbed notes v) as Hall.
    { intros b st Hb.
      assert (is_absorbed st = true) as Hst
        by (apply Eabs, list_elem_of_In, list_elem_of_lookup; eauto).
      destruct st as [| | | |notes v]; try done. by exists notes, v. }
    assert (∀ b records, map absorbed (batches s) !! b = Some records →
              records = [] ∨ records = classified b) as Hdel.
    { intros b records Hb. rewrite list_lookup_fmap in Hb.
      destruct (batches s !! b) as [st|] eqn:Est; [|done].
      injection Hb as <-. destruct (Hall b st Est) as (notes & v & ->).
      destruct (Hret b notes v) as [Hv| ->]; [by right| |by left].
      right. by apply absorbed_classified. }
    exists (map absorbed (batches s)).
    split; [by rewrite length_map|]. split; [done|]. split; [done|].
    split; [|split; [|split; [|split]]].
    + intros Hmail Hcap.
      destruct (pool_reachable_settled c s Hmail Hcap Hreach) as [_ _ Habs].
      rewrite <- Hlen. apply map_by_position. intros b st Hb.
      destruct (Hall b st Hb) as (notes & v & ->).
      by apply absorbed_classified, Habs.
    + rewrite Hres, length_concat_map, <- Hlen.
      apply tally_by_position. intros b st Hb.
      destruct (Hdel b (absorbed st)) as [->| ->];
        [by rewrite list_lookup_fmap, Hb|cbn; lia|done].
    + intros b notes e Hb. unfold classified. by rewrite Hb.
    + intros b notes Hb. unfold classified. by rewrite Hb.
    + intros j e Hj. rewrite Hres.
      destruct (map absorbed (batches s) !! j) as [records|] eqn:Ej.
      * destruct (Hdel j records Ej) as [->| ->].
        -- by rewrite (concat_delete_nil _ _ Ej).
        -- rewrite (classified_kickoff_raises _ _ Hj) in Ej.
           by rewrite (concat_delete_nil _ _ Ej).
      * by rewrite delete_beyond.
Qed.

(** C9. At every moment of a run no more batches are running than the
    pool has threads, which are no more than [max_workers]; in the fanout
    of each running batch no more searches are under way than
    [max_concurrent_searches]; so in all no more than [max_workers] times
    [max_concurrent_searches]. *)
Theorem calls_in_flight_are_bounded s :
  (0 ≤ cap)%Z → pool_reachable c s →
  ∃ total_batches workers,
    plan c = Returns (total_batches, workers)
    ∧ running s ≤ workers
    ∧ (Z.of_nat workers ≤ PharmaCrew.max_workers c)%Z
    ∧ (∀ b batch f, batches s !! b = Some (Gathering batch f) →
         (Z.of_nat (in_flight f) ≤ cap)%Z)
    ∧ (Z.of_nat (total_in_flight s) ≤ PharmaCrew.max_workers c * cap)%Z.
Proof.
  intros Hcap Hreach.
  destruct (pool_reachable_inv c s Hreach)
    as (total_batches & workers & Hplan & [Hlen Hwid Hfan Hres]).
  destruct (plan_Returns c _ _ Hplan) as (_ & Hw & _ & _).
  assert (∀ b batch f, batches s !! b = Some (Gathering batch f) →
            in_flight f ≤ Z.to_nat cap) as Hin.
  { intros b batch f Hb. destruct (Hfan b batch f Hb) as [_ Hf].
    apply fanout_reachable_inv, in_flight_bound in Hf. cbn in Hf. lia. }
  exists total_batches, workers. split; [done|]. split; [done|].
  split; [done|]. split.
  - intros b batch f Hb. specialize (Hin b batch f Hb). lia.
  - assert (total_in_flight s ≤ running s * Z.to_nat cap) as Htotal.
    { apply tally_scaled. intros st [b Hb]%list_elem_of_lookup.
      destruct st as [|batch f| | |]; cbn; try lia. by eapply Hin. }
    nia.
Qed.

End Run.

(** Seven attendees in three batches: the first is classified, the second
    fails on telemetry, the third fails otherwise; the run returns the one
    record of the first. *)
Lemma aggregate_witness :
  ∃ s,
    run_pool sample_crew 2
      (batch_actions 1 3 ++ batch_actions 0 3 ++ batch_actions 2 1)
      (pool_init 3) = Some s
    ∧ analyze sample_crew s = Some [sample_record].
Proof.
  destruct (run_pool sample_crew 2
              (batch_actions 1 3 ++ batch_actions 0 3 ++ batch_actions 2 1)
              (pool_init 3)) as [s|] eqn:Hrun;
    [|vm_compute in Hrun; discriminate].
  assert (pool_reachable sample_crew s) as Hreach.
  { split; [discriminate|]. exists 3, 2. split; [reflexivity|].
    by eapply run_pool_steps. }
  assert (Forall has_mail seven) as Hmail
    by (repeat constructor; eexists; reflexivity).
  destruct (failed_batches_contribute_nothing sample_crew s Hreach)
    as (total_batches & workers & Hplan & _ & _ & _ & Hend).
  injection Hplan as <- <-.
  assert (∃ results, analyze sample_crew s = Some results) as [results Hr].
  { vm_compute in Hrun. injection Hrun as <-. eexists. reflexivity. }
  destruct (Hend results Hr) as (delivered & _ & Hperm & _ & Hall & _).
  exists s. split; [reflexivity|]. rewrite Hr. f_equal.
  rewrite (Hall Hmail ltac:(discriminate)) in Hperm.
  change (concat (map classified (seq 0 3))) with [sample_record] in Hperm.
  by apply Permutation_singleton_r in Hperm.
Defined.

(** Two batches in their fanout, three searches under way. *)
Lemma calls_in_flight_witness :
  ∃ s,
    run_pool sample_crew 2
      [Work 0 Enter; Work 1 Enter;
       Work 0 (Resume 0); Work 0 (Resume 0); Work 0 (Resume 1);
       Work 0 (Resume 1); Work 1 (Resume 2); Work 1 (Resume 2)]
      (pool_init 3) = Some s
    ∧ running s = 2 ∧ total_in_flight s = 3
    ∧ (Z.of_nat (total_in_flight s) ≤ 2 * 2)%Z.
Proof.
  destruct (run_pool sample_crew 2
              [Work 0 Enter; Work 1 Enter;
               Work 0 (Resume 0); Work 0 (Resume 0); Work 0 (Resume 1);
               Work 0 (Resume 1); Work 1 (Resume 2); Work 1 (Resume 2)]
              (pool_init 3)) as [s|] eqn:Hrun;
    [|vm_compute in Hrun; discriminate].
  assert (pool_reachable sample_crew s) as Hreach.
  { split; [discriminate|]. exists 3, 2. split; [reflexivity|].
    by eapply run_pool_steps. }
  destruct (calls_in_flight_are_bounded sample_crew s ltac:(discriminate) Hreach)
    as (total_batches & workers & _ & _ & _ & _ & Htotal).
  exists s. split; [reflexivity|].
  split; [|split; [|exact Htotal]];
    vm_compute in Hrun; injection Hrun as <-; reflexivity.
Defined.



(* --------------------------------------------------------------------- *)
(** ** The company in an email                                            *)
(* --------------------------------------------------------------------- *)

Lemma re_search_Some p s start n :
  re_search p s = Some (start, n) ↔
  match_at p (drop start s) = Some n ∧ start ≤ length s
  ∧ ∀ j, j < start → match_at p (drop j s) = None.
Proof.
  revert start n. induction s as [|c s IH]; intros start n; cbn [re_search].
  - destruct (match_at p []) as [m|] eqn:Hm.
    + split.
      * intros [= <- <-]. split_and!; [done|done|]. intros; lia.
      * intros (H1 & H2 & _). cbn in H2. assert (start = 0) as -> by lia.
        cbn in H1. congruence.
    + split; [done|]. intros (H1 & _ & _). rewrite drop_nil in H1. congruence.
  - destruct (match_at p (c :: s)) as [m|] eqn:Hm.
    + split.
      * intros [= <- <-]. split_and!; [done|cbn; lia|]. intros; lia.
      * intros (H1 & H2 & H3). destruct start as [|start].
        -- cbn in H1. congruence.
        -- specialize (H3 0 ltac:(lia)). cbn in H3. congruence.
    + split.
      * destruct (re_search p s) as [[i m]|] eqn:Hs; [|done]. cbn.
        intros [= <- <-]. destruct (proj1 (IH i m) eq_refl) as (H1 & H2 & H3).
        split_and!; [done|cbn; lia|].
        intros [|j] Hj; [done|]. cbn. apply H3. lia.
      * intros (H1 & H2 & H3). destruct start as [|start].
        { cbn in H1. congruence. }
        cbn in H1, H2.
        assert (re_search p s = Some (start, n)) as ->; [|done].
        apply IH. split_and!; [done|lia|].
        intros j Hj. apply (H3 (S j)). lia.
Qed.

Lemma not_dot_mem c : cset_mem not_dot c = negb (c =? dot)%N.
Proof. unfold cset_mem. cbn. by rewrite orb_false_r. Qed.

(** The run of characters that are not dots, up to the first dot. *)
Lemma match_star_not_dot_Some run post :
  dot ∉ run →
  match_star not_dot (match_at [PChr dot]) (run ++ dot :: post)
  = Some (S (length run)).
Proof.
  induction run as [|c run IH]; intros Hrun.
  - cbn [app match_star]. by rewrite not_dot_mem, N.eqb_refl.
  - apply not_elem_of_cons in Hrun as [Hc Hrun].
    cbn [app match_star length]. rewrite not_dot_mem.
    destruct (N.eqb_spec c dot) as [->|_]; [done|]. cbn [negb].
    by rewrite IH.
Qed.

Lemma match_star_not_dot_None s :
  dot ∉ s → match_star not_dot (match_at [PChr dot]) s = None.
Proof.
  induction s as [|c s IH]; intros Hs; [done|].
  apply not_elem_of_cons in Hs as [Hc Hs].
  cbn [match_star]. rewrite not_dot_mem.
  destruct (N.eqb_spec c dot) as [->|Hne]; [done|]. cbn [negb].
  rewrite IH by done. cbn. by destruct (N.eqb_spec c dot).
Qed.

(** A text is a run without a dot followed by a dot, or has no dot. *)
Lemma first_dot (s : pystr) :
  dot ∉ s ∨ ∃ run post, s = run ++ dot :: post ∧ dot ∉ run.
Proof.
  induction s as [|c s [IH|(run & post & -> & Hrun)]].
  - left. set_solver.
  - destruct (decide (c = dot)) as [->|Hc].
    + right. exists [], s. split; [done|]. set_solver.
    + left. set_solver.
  - destruct (decide (c = dot)) as [->|Hc].
    + right. exists [], (run ++ dot :: post). split; [done|]. set_solver.
    + right. exists (c :: run), post. split; [done|]. set_solver.
Qed.

Lemma match_at_company_eq s :
  match_at company_re s
  = match s with
    | x :: c :: s' =>
        if (x =? at_sign)%N && negb (c =? dot)%N
        then (S <$> (S <$> match_star not_dot (match_at [PChr dot]) s'))
        else None
    | _ => None
    end.
Proof.
  destruct s as [|x [|c s]]; cbn [match_at company_re].
  - done.
  - by destruct (x =? at_sign)%N.
  - rewrite not_dot_mem. destruct (x =? at_sign)%N; [|done].
    by destruct (c =? dot)%N.
Qed.

(** Where the pattern of [extract_company_from_email] matches. *)
Lemma match_at_company s n :
  match_at company_re s = Some n ↔
  ∃ run post, s = at_sign :: run ++ dot :: post
    ∧ run ≠ [] ∧ dot ∉ run ∧ n = length run + 2.
Proof.
  rewrite match_at_company_eq. split.
  - destruct s as [|x [|c s]]; [done|done|].
    destruct (N.eqb_spec x at_sign) as [->|_]; [|done].
    destruct (N.eqb_spec c dot) as [->|Hc]; [done|]. cbn [negb andb].
    destruct (first_dot s) as [Hno|(run & post & -> & Hrun)].
    + by rewrite (match_star_not_dot_None s Hno).
    + rewrite (match_star_not_dot_Some run post Hrun). cbn. intros [= <-].
      exists (c :: run), post. split_and!; [done|done|set_solver|cbn; lia].
  - intros (run & post & -> & Hne & Hrun & ->).
    destruct run as [|c run]; [done|].
    apply not_elem_of_cons in Hrun as [Hc Hrun].
    cbn [app]. rewrite N.eqb_refl.
    destruct (N.eqb_spec c dot) as [->|_]; [done|]. cbn [negb andb].
    rewrite (match_star_not_dot_Some run post Hrun). cbn. do 2 f_equal. lia.
Qed.

Lemma match_at_company_None s :
  match_at company_re s = None ↔
  ∀ run post, s = at_sign :: run ++ dot :: post → dot ∉ run → run = [].
Proof.
  split.
  - intros Hnone run post -> Hrun. destruct run as [|c run]; [done|].
    assert (match_at company_re (at_sign :: (c :: run) ++ dot :: post)
            = Some (length (c :: run) + 2)) as Hm.
    { apply match_at_company. by exists (c :: run), post. }
    congruence.
  - intros Hall. destruct (match_at company_re s) as [n|] eqn:Hm; [|done].
    apply match_at_company in Hm as (run & post & -> & Hne & Hrun & _).
    by specialize (Hall run post eq_refl Hrun).
Qed.

(** Where [extract_company_from_email] finds a company. *)
Lemma extract_company_iff s company :
  extract_company_from_email (PyStr s) = PyStr company ↔
  ∃ pre post,
    s = pre ++ at_sign :: company ++ dot :: post
    ∧ company ≠ [] ∧ dot ∉ company
    ∧ ∀ p1 p2, pre = p1 ++ at_sign :: p2 → ∃ p3, p2 = dot :: p3.
Proof.
  unfold extract_company_from_email.
  split.
  - destruct (truthy (PyStr s)); [|done]. cbn [negb orb].
    destruct (bool_decide (at_sign ∈ s)); [|done]. cbn [negb].
    destruct (re_search company_re s) as [[start n]|] eqn:Hs; [|done].
    apply re_search_Some in Hs as (Hm & Hlen & Hleft).
    apply match_at_company in Hm as (run & post & Hd & Hne & Hrun & ->).
    intros [= <-]. exists (take start s), post.
    assert (take (length run + 2 - 2) (drop (S start) s) = run) as Hrun'.
    { replace (S start) with (start + 1) by lia.
      rewrite <- drop_drop, Hd. cbn [drop]. rewrite drop_0.
      replace (length run + 2 - 2) with (length run) by lia.
      by rewrite take_app_length. }
    rewrite Hrun'. split_and!; [|done|done|].
    + rewrite <- Hd. by rewrite take_drop.
    + intros p1 p2 Hpre.
      assert (length p1 < start) as Hlt.
      { apply (f_equal length) in Hpre. rewrite length_take, length_app in Hpre.
        cbn in Hpre. lia. }
      specialize (Hleft _ Hlt).
      assert (drop (length p1) s = at_sign :: p2 ++ drop start s) as Hdrop.
      { rewrite <- (take_drop start s) at 1. rewrite Hpre.
        rewrite <- app_assoc. by rewrite drop_app_length. }
      rewrite Hdrop, Hd in Hleft.
      destruct p2 as [|c p2].
      * exfalso. cbn [app] in Hleft.
        assert (at_sign :: run = []) as Habs; [|done].
        apply (proj1 (match_at_company_None _) Hleft _ post); [done|].
        apply not_elem_of_cons. by split.
      * destruct (decide (c = dot)) as [->|Hc]; [by eexists|]. exfalso.
        destruct (first_dot p2) as [Hno|(r & q & -> & Hr)].
        -- assert (c :: p2 ++ at_sign :: run = []) as Habs; [|done].
           apply (proj1 (match_at_company_None _) Hleft _ post).
           ++ cbn. by rewrite <- !app_assoc.
           ++ set_solver.
        -- assert (c :: r = []) as Habs; [|done].
           apply (proj1 (match_at_company_None _) Hleft _
                    (q ++ at_sign :: run ++ dot :: post)).
           ++ cbn. by rewrite <- !app_assoc.
           ++ set_solver.
  - intros (pre & post & -> & Hne & Hco & Hpre).
    assert (re_search company_re (pre ++ at_sign :: company ++ dot :: post)
            = Some (length pre, length company + 2)) as Hs.
    { apply re_search_Some. split_and!.
      - rewrite drop_app_length. apply match_at_company. by exists company, post.
      - rewrite length_app. lia.
      - intros j Hj. apply match_at_company_None. intros run q Hd Hrun.
        destruct (decide (run = [])) as [|Hnil]; [done|]. exfalso.
        rewrite drop_app_le in Hd by lia.
        destruct (drop j pre) as [|x rest] eqn:Hdj.
        { apply (f_equal length) in Hdj. rewrite length_drop in Hdj.
          cbn in Hdj. lia. }
        cbn in Hd. injection Hd as -> Hd.
        destruct (Hpre (take j pre) rest) as (p3 & ->).
        { by rewrite <- Hdj, take_drop. }
        destruct run as [|c run]; [done|]. cbn in Hd. injection Hd as <- _.
        set_solver. }
    rewrite Hs.
    replace (negb (truthy (PyStr (pre ++ at_sign :: company ++ dot :: post))))
      with false by (by destruct pre).
    rewrite bool_decide_eq_true_2 by set_solver. cbn [negb orb].
    f_equal. replace (S (length pre)) with (length pre + 1) by lia.
    rewrite <- drop_drop, drop_app_length. cbn [drop]. rewrite drop_0.
    replace (length company + 2 - 2) with (length company) by lia.
    by rewrite take_app_length.
Qed.

(** X1. [extract_company_from_email] returns [None] for [None]; for a text it
    returns a company exactly when the text has an at sign followed by a
    non-empty run without a dot and then a dot, and the company is that run
    behind the first such at sign: every earlier at sign is directly followed
    by a dot. The company is never empty and holds no dot. *)
Theorem company_is_the_label_behind_the_first_at :
  extract_company_from_email PyNone = PyNone
  ∧ ∀ s company,
      extract_company_from_email (PyStr s) = PyStr company ↔
      ∃ pre post,
        s = pre ++ at_sign :: company ++ dot :: post
        ∧ company ≠ [] ∧ dot ∉ company
        ∧ ∀ p1 p2, pre = p1 ++ at_sign :: p2 → ∃ p3, p2 = dot :: p3.
Proof. split; [done|]. apply extract_company_iff. Qed.

(** X2. For an email with a single at sign, a non-empty first label and a dot
    behind it, the company of [extract_company_from_email] is the first
    label of the domain [process_attendee] derives: the domain is the
    company, the dot and what follows. *)
Theorem company_is_the_first_label_of_the_domain
    (search : pystr → reply pystr) (a : attendee) (local label rest : pystr) :
  get a "email" = PyStr (local ++ at_sign :: label ++ dot :: rest) →
  at_sign ∉ local → at_sign ∉ label → at_sign ∉ rest →
  label ≠ [] → dot ∉ label →
  extract_company_from_email (get a "email") = PyStr label
  ∧ ∃ o, process_attendee search a = Returns o
      ∧ company_domain o = label ++ dot :: rest.
Proof.
  intros Hmail Hlocal Hlabel Hrest Hne Hdot. split.
  - rewrite Hmail. apply extract_company_iff. exists local, rest.
    split_and!; [done|done|done|]. intros p1 p2 ->. set_solver.
  - rewrite (process_attendee_text search a _ Hmail).
    assert (at_sign ∉ label ++ dot :: rest) as Hhost by set_solver.
    rewrite bool_decide_eq_true_2 by set_solver.
    rewrite last_part_after_last by done.
    destruct (search _); eexists; (split; [done|]); cbn; by destruct label.
Qed.

Lemma company_of_ada_at_acme_io :
  extract_company_from_email
    (get (person "Ada" "A" "ada@acme.io" "Acme") "email") = PyStr (py "acme")
  ∧ ∃ o, process_attendee (λ _, Returns (py "found"))
           (person "Ada" "A" "ada@acme.io" "Acme") = Returns o
      ∧ company_domain o = py "acme.io".
Proof.
  apply (company_is_the_first_label_of_the_domain (λ _, Returns (py "found"))
           (person "Ada" "A" "ada@acme.io" "Acme")
           (py "ada") (py "acme") (py "io")).
  - reflexivity.
  - apply (bool_decide_unpack _). vm_compute. exact I.
  - apply (bool_decide_unpack _). vm_compute. exact I.
  - apply (bool_decide_unpack _). vm_compute. exact I.
  - discriminate.
  - apply (bool_decide_unpack _). vm_compute. exact I.
Defined.
(* --------------------------------------------------------------------- *)
(** ** The rows of the attendee file                                      *)
(* --------------------------------------------------------------------- *)

Lemma drop_while_idemp f s : drop_while f (drop_while f s) = drop_while f s.
Proof.
  induction s as [|c s IH]; [done|]. cbn.
  destruct (f c) eqn:Hc; [done|]. cbn. by rewrite Hc.
Qed.

Lemma drop_while_head f s c s' : drop_while f s = c :: s' → f c = false.
Proof.
  induction s as [|x s IH]; [done|]. cbn.
  destruct (f x) eqn:Hx; [done|]. by intros [= <- <-].
Qed.

Lemma drop_while_false f c s : f c = false → drop_while f (c :: s) = c :: s.
Proof. intros Hc. cbn. by rewrite Hc. Qed.

(** Dropping at the end keeps a first character that is not dropped. *)
Lemma drop_while_snoc_keep f c s :
  f c = false →
  ∃ t, rev (drop_while f (rev (c :: s))) = c :: t.
Proof.
  intros Hc. induction s as [|x s IH] using rev_ind.
  - exists []. cbn. by rewrite Hc.
  - destruct IH as (t & IH).
    change (c :: s ++ [x]) with ((c :: s) ++ [x]). rewrite rev_unit.
    cbn [drop_while]. destruct (f x).
    + by exists t.
    + exists (s ++ [x]). rewrite <- (rev_unit (c :: s) x). by rewrite rev_involutive.
Qed.

Lemma strip_idemp s : strip (strip s) = strip s.
Proof.
  unfold strip, lstrip. destruct (drop_while is_space s) as [|c t] eqn:Ht.
  - done.
  - pose proof (drop_while_head _ _ _ _ Ht) as Hc.
    destruct (drop_while_snoc_keep is_space c t Hc) as (u & Hu).
    unfold rstrip at 2. rewrite Hu. rewrite drop_while_false by done.
    rewrite <- Hu. unfold rstrip. rewrite rev_involutive.
    by rewrite drop_while_idemp.
Qed.

Lemma entry_store {K V} `{EqDecision K} (k k' : K) (v : V) (d : list (K * V)) :
  entry k (store k' v d) = if decide (k' = k) then Some v else entry k d.
Proof.
  induction d as [|[x w] d IH]; cbn.
  - by destruct (decide (k' = k)).
  - destruct (decide (x = k')) as [->|Hx]; cbn.
    + destruct (decide (k' = k)); [done|]. done.
    + destruct (decide (x = k)) as [->|Hk].
      * destruct (decide (k' = k)); [congruence|done].
      * done.
Qed.

Lemma entry_None {V} (k : pystr) (d : list (pystr * V)) :
  entry k d = None ↔ k ∉ map fst d.
Proof.
  induction d as [|[x w] d IH]; cbn.
  - split; [set_solver|done].
  - destruct (decide (x = k)) as [->|Hx].
    + split; [done|set_solver].
    + rewrite IH. set_solver.
Qed.

Lemma store_keys {V} (k : pystr) (v : V) (d : list (pystr * V)) :
  map fst (store k v d)
  = if bool_decide (k ∈ map fst d) then map fst d else map fst d ++ [k].
Proof.
  induction d as [|[x w] d IH]; cbn; [done|].
  destruct (decide (x = k)) as [->|Hx]; cbn.
  - rewrite bool_decide_eq_true_2 by set_solver. done.
  - rewrite IH. destruct (bool_decide (k ∈ map fst d)) eqn:Hk.
    + apply bool_decide_eq_true in Hk.
      rewrite bool_decide_eq_true_2 by set_solver. done.
    + apply bool_decide_eq_false in Hk.
      rewrite bool_decide_eq_false_2 by set_solver. done.
Qed.

Lemma store_elem {V} (k : pystr) (v : V) (d : list (pystr * V)) kv :
  kv ∈ store k v d → kv = (k, v) ∨ kv ∈ d.
Proof.
  induction d as [|[x w] d IH]; cbn.
  - set_solver.
  - destruct (decide (x = k)) as [->|Hx]; set_solver.
Qed.

(** What a step of the loop that does not raise has done. *)
Lemma preprocess_row_Returns d r d' :
  preprocess_row d r = Returns d' →
  ∃ mail, stripped (Email r) = Returns mail
    ∧ (mail = [] ∧ d' = d
       ∨ mail ≠ []
         ∧ ∃ org_text first last,
             stripped (Organization r) = Returns org_text
             ∧ stripped (First_Name r) = Returns first
             ∧ stripped (Last_Name r) = Returns last
             ∧ match entry mail d with
               | None => d' = store mail (info_of mail org_text first last) d
               | Some existing =>
                   AttendeeInfo.organization (info_of mail org_text first last)
                     ≠ PyNone
                   ∧ AttendeeInfo.organization existing ≠ PyNone
                   ∧ (d' = d
                      ∨ d' = store mail (info_of mail org_text first last) d)
               end).
Proof.
  unfold preprocess_row. intros Hrow.
  destruct (stripped (Email r)) as [mail|e]; [|done].
  cbn [mbind reply_bind mret reply_ret] in Hrow.
  exists mail. split; [done|].
  destruct mail as [|c mail].
  { left. split; [done|]. cbn in Hrow. by injection Hrow. }
  right. split; [done|].
  change (negb (truthy (PyStr (c :: mail)))) with false in Hrow. cbv iota in Hrow.
  destruct (stripped (Organization r)) as [org_text|e]; [|done].
  cbn [mbind reply_bind mret reply_ret] in Hrow.
  destruct (stripped (First_Name r)) as [first|e]; [|done].
  cbn [mbind reply_bind mret reply_ret] in Hrow.
  destruct (stripped (Last_Name r)) as [last|e]; [|done].
  cbn [mbind reply_bind mret reply_ret] in Hrow.
  exists org_text, first, last. split_and!; [done..|].
  destruct (entry (c :: mail) d) as [existing|]; [|by injection Hrow].
  unfold info_of. cbn [AttendeeInfo.organization].
  set (org := if truthy (PyStr org_text) then PyStr org_text
              else extract_company_from_email (PyStr (c :: mail))) in *.
  assert (org = PyNone ∨ truthy org = true) as [Horg|Horg].
  { subst org. destruct (truthy (PyStr org_text)) eqn:Ht; [by right|].
    destruct (extract_company_from_email (PyStr (c :: mail))) as [|s] eqn:He;
      [by left|right].
    apply extract_company_iff in He as (_ & _ & _ & Hne & _). by destruct s. }
  { rewrite Horg in Hrow. done. }
  destruct org as [|s] eqn:Es; [done|]. rewrite Horg in Hrow.
  cbn [negb andb len_of mbind reply_bind mret reply_ret] in Hrow.
  destruct (AttendeeInfo.organization existing) as [|s'] eqn:Hex; [done|].
  cbn [len_of mbind reply_bind mret reply_ret] in Hrow.
  split_and!; [done|done|].
  match type of Hrow with
  | (if ?b then _ else _) = _ => destruct b
  end; injection Hrow as <-; [by right|by left].
Qed.

Lemma entry_Some_elem {V} (k : pystr) (v : V) (d : list (pystr * V)) :
  entry k d = Some v → (k, v) ∈ d.
Proof.
  induction d as [|[x w] d IH]; cbn; [done|].
  destruct (decide (x = k)) as [->|Hx].
  - intros [= ->]. set_solver.
  - set_solver.
Qed.

Lemma stripped_Email r mail :
  stripped (Email r) = Returns mail → mail = row_mail r.
Proof. unfold row_mail. destruct (Email r); cbn; congruence. Qed.

Lemma stripped_blank c text :
  stripped c = Returns text → blank c = bool_decide (text = []).
Proof. destruct c; cbn; [by intros [= <-]|by intros [= <-]|done]. Qed.

(** The keys of the dictionary after one row. *)
Lemma preprocess_row_keys d r d' :
  preprocess_row d r = Returns d' →
  map fst d' = if has_text (row_mail r) then see (map fst d) (row_mail r)
               else map fst d.
Proof.
  intros (mail & Hmail & Hcase)%preprocess_row_Returns.
  apply stripped_Email in Hmail as ->. unfold has_text, see.
  destruct Hcase as [[-> ->]|(Hne & org_text & first & last & _ & _ & _ & Hd)].
  { by rewrite bool_decide_eq_false_2 by (by intros []). }
  rewrite (bool_decide_eq_true_2 _ Hne).
  destruct (entry (row_mail r) d) as [existing|] eqn:He.
  - assert (row_mail r ∈ map fst d) as Hin.
    { apply entry_Some_elem in He. apply list_elem_of_fmap. by eexists (_, _). }
    rewrite (bool_decide_eq_true_2 _ Hin).
    destruct Hd as (_ & _ & [->| ->]); [done|].
    by rewrite store_keys, (bool_decide_eq_true_2 _ Hin).
  - apply entry_None in He. rewrite (bool_decide_eq_false_2 _ He).
    subst d'. by rewrite store_keys, (bool_decide_eq_false_2 _ He).
Qed.

Lemma preprocess_rows_keys rows d d' :
  preprocess_rows rows d = Returns d' →
  map fst d' = foldl see (map fst d) (List.filter has_text (map row_mail rows)).
Proof.
  revert d. induction rows as [|r rows IH]; intros d; cbn [preprocess_rows].
  - by intros [= <-].
  - destruct (preprocess_row d r) as [d1|e] eqn:Hr; [|done].
    cbn [mbind reply_bind]. intros Hrest. rewrite (IH _ Hrest).
    rewrite (preprocess_row_keys _ _ _ Hr). cbn [map List.filter].
    by destruct (has_text (row_mail r)).
Qed.

(** Every key of the dictionary is the email of its record. *)
Lemma preprocess_row_emails d r d' :
  preprocess_row d r = Returns d' →
  Forall (λ ki, AttendeeInfo.email ki.2 = ki.1) d →
  Forall (λ ki, AttendeeInfo.email ki.2 = ki.1) d'.
Proof.
  intros (mail & Hmail & Hcase)%preprocess_row_Returns Hd.
  destruct Hcase as [[-> ->]|(Hne & org_text & first & last & _ & _ & _ & Hcase)];
    [done|].
  assert (Forall (λ ki, AttendeeInfo.email ki.2 = ki.1)
            (store mail (info_of mail org_text first last) d)) as Hstore.
  { apply Forall_forall. intros ki [->|Hin]%store_elem; [done|].
    by apply (proj1 (Forall_forall _ _) Hd). }
  destruct (entry mail d); [|by subst].
  by destruct Hcase as (_ & _ & [->| ->]).
Qed.

Lemma preprocess_rows_emails rows d d' :
  preprocess_rows rows d = Returns d' →
  Forall (λ ki, AttendeeInfo.email ki.2 = ki.1) d →
  Forall (λ ki, AttendeeInfo.email ki.2 = ki.1) d'.
Proof.
  revert d. induction rows as [|r rows IH]; intros d; cbn [preprocess_rows].
  - by intros [= <-].
  - destruct (preprocess_row d r) as [d1|e] eqn:Hr; [|done].
    cbn [mbind reply_bind]. intros Hrest Hd.
    eapply IH; [done|]. by eapply preprocess_row_emails.
Qed.

Lemma see_NoDup seen l : NoDup seen → NoDup (foldl see seen l).
Proof.
  revert seen. induction l as [|x l IH]; intros seen Hseen; [done|].
  cbn. apply IH. unfold see. destruct (bool_decide (x ∈ seen)) eqn:Hx; [done|].
  apply bool_decide_eq_false in Hx. apply NoDup_app. split_and!; [done| |].
  - intros y Hy ->%list_elem_of_singleton. done.
  - apply NoDup_singleton.
Qed.

Lemma see_elem seen l x : x ∈ foldl see seen l ↔ x ∈ seen ∨ x ∈ l.
Proof.
  revert seen. induction l as [|y l IH]; intros seen; cbn.
  - set_solver.
  - rewrite IH. unfold see. destruct (bool_decide (y ∈ seen)) eqn:Hy.
    + apply bool_decide_eq_true in Hy. set_solver.
    + set_solver.
Qed.

Lemma get_email (i : info) :
  get (as_attendee i) "email" = PyStr (AttendeeInfo.email i).
Proof. reflexivity. Qed.

(** X3. When [preprocess_attendee_data] returns its list, the emails of the
    attendees are the stripped, non-empty emails of the rows, each one once,
    in the order of first occurrence; so every attendee has a text email
    that is not empty and has no whitespace around it, and no two attendees
    share an email. *)
Theorem attendees_are_the_distinct_emails (rows : list row)
    (attendees : list attendee) :
  preprocess_attendee_data rows = Some attendees →
  map (λ a, get a "email") attendees
  = map PyStr
      (first_occurrences (List.filter has_text (map row_mail rows)))
  ∧ NoDup (map (λ a, get a "email") attendees)
  ∧ Forall (λ a, ∃ mail, get a "email" = PyStr mail
                   ∧ mail ≠ [] ∧ strip mail = mail) attendees.
Proof.
  unfold preprocess_attendee_data.
  destruct (preprocess_rows rows []) as [d|e] eqn:Hrows; [|done].
  intros [= <-].
  pose proof (preprocess_rows_keys _ _ _ Hrows) as Hkeys. cbn [map] in Hkeys.
  pose proof (preprocess_rows_emails _ _ _ Hrows (Forall_nil_2 _)) as Hmails.
  assert (map (λ a, get a "email") (map (as_attendee ∘ snd) d)
          = map PyStr (map fst d)) as Heq.
  { rewrite !map_map. apply Forall_fmap_ext_1.
    eapply Forall_impl; [exact Hmails|]. intros [k i] Hk. cbn in *.
    by rewrite get_email, Hk. }
  assert (∀ m, m ∈ map fst d → m ≠ [] ∧ strip m = m) as Hgood.
  { intros m. rewrite Hkeys. intros [Hm|Hm]%see_elem; [set_solver|].
    apply list_elem_of_In, filter_In in Hm as [Hm Hne].
    apply bool_decide_eq_true in Hne. split; [done|].
    apply list_elem_of_In, list_elem_of_fmap in Hm as (r & -> & _).
    unfold row_mail. destruct (Email r); [done| |done]. apply strip_idemp. }
  split_and!.
  - by rewrite Heq, Hkeys.
  - rewrite Heq, Hkeys. apply NoDup_fmap_2; [by intros x y [= ->]|].
    apply see_NoDup, NoDup_nil_2.
  - apply Forall_forall. intros a (ki & -> & Hin)%list_elem_of_fmap.
    exists (AttendeeInfo.email ki.2). cbn. split; [apply get_email|].
    rewrite (proj1 (Forall_forall _ _) Hmails ki Hin).
    apply Hgood, list_elem_of_fmap. by exists ki.
Qed.

(** The step of the loop on a row whose cells can be stripped. *)
Lemma preprocess_row_eq d r mail org_text first last :
  stripped (Email r) = Returns mail → mail ≠ [] →
  stripped (Organization r) = Returns org_text →
  stripped (First_Name r) = Returns first →
  stripped (Last_Name r) = Returns last →
  preprocess_row d r
  = match entry mail d with
    | None => Returns (store mail (info_of mail org_text first last) d)
    | Some existing =>
        n ← len_of (AttendeeInfo.organization (info_of mail org_text first last));
        m ← len_of (AttendeeInfo.organization existing);
        if (m <? n)
           || negb (truthy (PyStr (AttendeeInfo.first_name existing)))
              && truthy (PyStr first)
           || negb (truthy (PyStr (AttendeeInfo.last_name existing)))
              && truthy (PyStr last)
        then Returns (store mail (info_of mail org_text first last) d)
        else Returns d
    end.
Proof.
  intros Hmail Hne Horg Hfirst Hlast. unfold preprocess_row.
  rewrite Hmail. cbn [mbind reply_bind mret reply_ret].
  destruct mail as [|c mail]; [done|].
  change (negb (truthy (PyStr (c :: mail)))) with false. cbv iota.
  rewrite Horg, Hfirst, Hlast. cbn [mbind reply_bind mret reply_ret].
  destruct (entry (c :: mail) d) as [existing|]; [|done].
  unfold info_of. cbn [AttendeeInfo.organization].
  set (org := if truthy (PyStr org_text) then PyStr org_text
              else extract_company_from_email (PyStr (c :: mail))).
  assert (org = PyNone ∨ truthy org = true) as [Hnone|Htrue].
  { subst org. destruct (truthy (PyStr org_text)) eqn:Ht; [by right|].
    destruct (extract_company_from_email (PyStr (c :: mail))) as [|s] eqn:He;
      [by left|right].
    apply extract_company_iff in He as (_ & _ & _ & Hs & _). by destruct s. }
  - by rewrite Hnone.
  - by rewrite Htrue.
Qed.

Lemma stripped_Returns c : is_other c = false → ∃ text, stripped c = Returns text.
Proof. destruct c; [by eexists|by eexists|done]. Qed.

Lemma len_of_Returns v : v ≠ PyNone → ∃ n, len_of v = Returns n.
Proof. destruct v; [done|by eexists]. Qed.

(** A row that is [row_ok] is handled, and leaves no record without an
    organization. *)
Lemma preprocess_row_ok d r :
  row_ok r →
  Forall (λ ki, AttendeeInfo.organization ki.2 ≠ PyNone) d →
  ∃ d', preprocess_row d r = Returns d'
    ∧ Forall (λ ki, AttendeeInfo.organization ki.2 ≠ PyNone) d'.
Proof.
  intros (He & Ho & Hf & Hl & Horg) Hd.
  destruct (stripped_Returns _ He) as (mail & Hmail).
  destruct (stripped_Returns _ Ho) as (org_text & Horg_text).
  destruct (stripped_Returns _ Hf) as (first & Hfirst).
  destruct (stripped_Returns _ Hl) as (last & Hlast).
  destruct (decide (mail = [])) as [->|Hne].
  { exists d. split; [|done]. unfold preprocess_row. by rewrite Hmail. }
  rewrite (preprocess_row_eq d r _ _ _ _ Hmail Hne Horg_text Hfirst Hlast).
  pose proof (stripped_Email _ _ Hmail) as Hrm.
  assert (AttendeeInfo.organization (info_of mail org_text first last) ≠ PyNone)
    as Hnew.
  { unfold info_of. cbn [AttendeeInfo.organization].
    rewrite <- Hrm in Horg. destruct (Horg Hne) as [Hb|Hx].
    - rewrite (stripped_blank _ _ Horg_text) in Hb.
      apply bool_decide_eq_false in Hb. by destruct org_text.
    - by destruct (truthy (PyStr org_text)). }
  assert (Forall (λ ki, AttendeeInfo.organization ki.2 ≠ PyNone)
            (store mail (info_of mail org_text first last) d)) as Hstore.
  { apply Forall_forall. intros ki [->|Hin]%store_elem; [done|].
    by apply (proj1 (Forall_forall _ _) Hd). }
  destruct (entry mail d) as [existing|] eqn:Hex; [|by eexists].
  apply entry_Some_elem in Hex.
  pose proof (proj1 (Forall_forall _ _) Hd _ Hex) as Hold. cbn in Hold.
  destruct (len_of_Returns _ Hnew) as (n & ->).
  destruct (len_of_Returns _ Hold) as (m & ->).
  cbn [mbind reply_bind].
  match goal with |- context [if ?b then _ else _] => destruct b end;
    by eexists.
Qed.

(** X4. [preprocess_attendee_data] handles every file whose cells are text or
    missing and whose rows with an email have an organization, in the cell
    or as the company of the email: it returns its list, one attendee for
    each distinct email. *)
Theorem rows_with_an_organization_are_handled (rows : list row) :
  Forall row_ok rows →
  ∃ attendees,
    preprocess_attendee_data rows = Some attendees
    ∧ length attendees
      = length (first_occurrences (List.filter has_text (map row_mail rows))).
Proof.
  intros Hrows.
  assert (∀ d, Forall (λ ki, AttendeeInfo.organization ki.2 ≠ PyNone) d →
            ∃ d', preprocess_rows rows d = Returns d') as Hall.
  { induction Hrows as [|r rows Hr _ IH]; intros d Hd; [by eexists|].
    destruct (preprocess_row_ok d r Hr Hd) as (d1 & Hd1 & Hinv).
    cbn [preprocess_rows]. rewrite Hd1. cbn [mbind reply_bind]. by apply IH. }
  destruct (Hall [] (Forall_nil_2 _)) as (d & Hd).
  unfold preprocess_attendee_data. rewrite Hd. eexists. split; [done|].
  rewrite length_map, <- (length_map fst).
  by rewrite (preprocess_rows_keys _ _ _ Hd).
Qed.

Lemma info_of_blank mail first last :
  AttendeeInfo.organization (info_of mail [] first last)
  = extract_company_from_email (PyStr mail).
Proof. reflexivity. Qed.

Lemma preprocess_rows_app rows1 rows2 d :
  preprocess_rows (rows1 ++ rows2) d
  = d1 ← preprocess_rows rows1 d; preprocess_rows rows2 d1.
Proof.
  revert d. induction rows1 as [|r rows1 IH]; intros d; [done|].
  cbn [app preprocess_rows]. destruct (preprocess_row d r); [|done].
  cbn [mbind reply_bind]. apply IH.
Qed.

(** A record without an organization stays as it is while the loop runs. *)
Lemma preprocess_row_keeps d r d' mail i :
  preprocess_row d r = Returns d' →
  entry mail d = Some i →
  ∃ i', entry mail d' = Some i'
    ∧ (AttendeeInfo.organization i = PyNone →
       AttendeeInfo.organization i' = PyNone).
Proof.
  intros (m & Hm & Hcase)%preprocess_row_Returns Hi.
  destruct Hcase as [[-> ->]|(Hne & org_text & first & last & _ & _ & _ & Hcase)];
    [by exists i|].
  destruct (decide (m = mail)) as [->|Hdiff].
  - rewrite Hi in Hcase. destruct Hcase as (_ & Hold & [->| ->]).
    + by exists i.
    + eexists. rewrite entry_store, decide_True by done. done.
  - assert (entry mail (store m (info_of m org_text first last) d) = Some i)
      as Hstore by (by rewrite entry_store, decide_False).
    destruct (entry m d).
    + destruct Hcase as (_ & _ & [->| ->]); by exists i.
    + subst d'. by exists i.
Qed.

Lemma preprocess_rows_keeps rows d d' mail i :
  preprocess_rows rows d = Returns d' →
  entry mail d = Some i →
  ∃ i', entry mail d' = Some i'
    ∧ (AttendeeInfo.organization i = PyNone →
       AttendeeInfo.organization i' = PyNone).
Proof.
  revert d i. induction rows as [|r rows IH]; intros d i; cbn [preprocess_rows].
  - intros [= <-] Hi. by exists i.
  - destruct (preprocess_row d r) as [d1|e] eqn:Hr; [|done].
    cbn [mbind reply_bind]. intros Hrest Hi.
    destruct (preprocess_row_keeps _ _ _ _ _ Hr Hi) as (i1 & Hi1 & Hkeep).
    destruct (IH _ _ Hrest Hi1) as (i2 & Hi2 & Hkeep2).
    exists i2. split; [done|]. auto.
Qed.

(** X5. [preprocess_attendee_data] returns [None] for the whole file when an
    email whose text holds no company occurs in two rows and one of the two
    has no organization: taking the length of the missing organization
    raises, and the handler of the function gives up. *)
Theorem duplicate_without_organization_fails
    (before between after : list row) (r1 r2 : row) :
  row_mail r1 = row_mail r2 → row_mail r1 ≠ [] →
  extract_company_from_email (PyStr (row_mail r1)) = PyNone →
  blank (Organization r1) = true ∨ blank (Organization r2) = true →
  preprocess_attendee_data (before ++ r1 :: between ++ r2 :: after) = None.
Proof.
  intros Hsame Hne Hnone Hblank. unfold preprocess_attendee_data.
  destruct (preprocess_rows _ []) as [d|e] eqn:Hrows; [exfalso|done].
  rewrite preprocess_rows_app in Hrows.
  destruct (preprocess_rows before []) as [d1|] eqn:H1; [|done].
  cbn [mbind reply_bind preprocess_rows] in Hrows.
  destruct (preprocess_row d1 r1) as [d2|] eqn:H2; [|done].
  cbn [mbind reply_bind] in Hrows. rewrite preprocess_rows_app in Hrows.
  destruct (preprocess_rows between d2) as [d3|] eqn:H3; [|done].
  cbn [mbind reply_bind preprocess_rows] in Hrows.
  destruct (preprocess_row d3 r2) as [d4|] eqn:H4; [|done]. clear Hrows.
  pose proof H2 as (m1 & Hm1 & Hc1)%preprocess_row_Returns.
  pose proof H4 as (m2 & Hm2 & Hc2)%preprocess_row_Returns.
  pose proof (stripped_Email _ _ Hm1) as ->.
  pose proof (stripped_Email _ _ Hm2) as ->.
  destruct Hc1 as [[? _]|(_ & org1 & f1 & l1 & Ho1 & _ & _ & Hc1)]; [done|].
  destruct Hc2 as [[? _]|(_ & org2 & f2 & l2 & Ho2 & _ & _ & Hc2)];
    [congruence|].
  rewrite <- Hsame in Hc2.
  (* the record of the email after the first of the two rows *)
  assert (∃ i2, entry (row_mail r1) d2 = Some i2
            ∧ (blank (Organization r1) = true →
               AttendeeInfo.organization i2 = PyNone)) as (i2 & Hi2 & Horg2).
  { destruct (entry (row_mail r1) d1) as [existing|] eqn:Hex.
    - destruct Hc1 as (Hnew & _ & Hd2).
      assert (blank (Organization r1) = false) as Hb.
      { rewrite (stripped_blank _ _ Ho1). apply bool_decide_eq_false.
        intros ->. by rewrite info_of_blank, Hnone in Hnew. }
      destruct Hd2 as [->| ->].
      + exists existing. split; [done|]. congruence.
      + eexists. rewrite entry_store, decide_True by done.
        split; [done|]. congruence.
    - subst d2. eexists. rewrite entry_store, decide_True by done.
      split; [done|]. intros Hb. rewrite (stripped_blank _ _ Ho1) in Hb.
      apply bool_decide_eq_true in Hb as ->. by rewrite info_of_blank, Hnone. }
  destruct (preprocess_rows_keeps _ _ _ _ _ H3 Hi2) as (i3 & Hi3 & Hkeep).
  rewrite Hi3 in Hc2. destruct Hc2 as (Hnew & Hold & _).
  destruct Hblank as [Hb|Hb].
  - apply Hold, Hkeep, Horg2, Hb.
  - rewrite (stripped_blank _ _ Ho2) in Hb. apply bool_decide_eq_true in Hb as ->.
    by rewrite info_of_blank, Hnone in Hnew.
Qed.

(** X6. A later row with the email of a record and a longer organization
    replaces the record as a whole, in its place: the names of the earlier
    row are gone, also when the later row has none. *)
Theorem longer_organization_replaces_the_record
    (d : list (pystr * info)) (r : row) (existing : info)
    (mail old_org new_org first last : pystr) :
  entry mail d = Some existing →
  AttendeeInfo.organization existing = PyStr old_org →
  stripped (Email r) = Returns mail → mail ≠ [] →
  stripped (Organization r) = Returns new_org →
  stripped (First_Name r) = Returns first →
  stripped (Last_Name r) = Returns last →
  length old_org < length new_org →
  ∃ d', preprocess_row d r = Returns d'
    ∧ map fst d' = map fst d
    ∧ entry mail d'
      = Some {| AttendeeInfo.first_name := first;
                AttendeeInfo.last_name := last;
                AttendeeInfo.email := mail;
                AttendeeInfo.organization := PyStr new_org;
                AttendeeInfo.company_from_email :=
                  extract_company_from_email (PyStr mail) |}.
Proof.
  intros Hex Hold Hmail Hne Horg Hfirst Hlast Hlen.
  rewrite (preprocess_row_eq d r _ _ _ _ Hmail Hne Horg Hfirst Hlast), Hex.
  assert (info_of mail new_org first last
          = {| AttendeeInfo.first_name := first;
               AttendeeInfo.last_name := last;
               AttendeeInfo.email := mail;
               AttendeeInfo.organization := PyStr new_org;
               AttendeeInfo.company_from_email :=
                 extract_company_from_email (PyStr mail) |}) as ->.
  { unfold info_of. destruct new_org; [cbn in Hlen; lia|done]. }
  rewrite Hold. cbn [AttendeeInfo.organization len_of mbind reply_bind].
  rewrite (proj2 (Nat.ltb_lt _ _) Hlen). cbn [orb].
  eexists. split; [done|]. split.
  - rewrite store_keys, bool_decide_eq_true_2; [done|].
    apply entry_Some_elem in Hex. apply list_elem_of_fmap. by eexists (_, _).
  - by rewrite entry_store, decide_True.
Qed.

(* --------------------------------------------------------------------- *)
(** ** Fenced answers                                                     *)
(* --------------------------------------------------------------------- *)

Lemma drop_while_app_true f g s :
  forallb f g = true → drop_while f (g ++ s) = drop_while f s.
Proof.
  induction g as [|c g IH]; [done|]. cbn. intros [Hc Hg]%andb_true_iff.
  rewrite Hc. by apply IH.
Qed.

Lemma drop_while_all f g : forallb f g = true → drop_while f g = [].
Proof.
  intros Hg. rewrite <- (app_nil_r g). by rewrite drop_while_app_true.
Qed.

(** What [lstrip] leaves of a text followed by whitespace. *)
Lemma lstrip_app_space b g :
  forallb is_space g = true →
  ∃ g', forallb is_space g' = true ∧ lstrip (b ++ g) = lstrip b ++ g'.
Proof.
  intros Hg. unfold lstrip. induction b as [|c b IH]; cbn.
  - exists []. split; [done|]. by apply drop_while_all.
  - destruct (is_space c); [done|]. by exists g.
Qed.

Lemma rstrip_app_space s g :
  forallb is_space g = true → rstrip (s ++ g) = rstrip s.
Proof.
  intros Hg. unfold rstrip. rewrite rev_app_distr.
  rewrite drop_while_app_true; [done|].
  rewrite forallb_forall in *. intros x Hx. apply Hg. by apply in_rev.
Qed.

(** [strip] does not see the whitespace around a text. *)
Lemma strip_padded lead s trail :
  forallb is_space lead = true → forallb is_space trail = true →
  strip (lead ++ s ++ trail) = strip s.
Proof.
  intros Hlead Htrail. unfold strip.
  unfold lstrip at 1. rewrite drop_while_app_true by done. fold (lstrip (s ++ trail)).
  destruct (lstrip_app_space s trail Htrail) as (g & Hg & ->).
  by apply rstrip_app_space.
Qed.

(** The whitespace the opening fence swallows. *)
Lemma match_star_space s :
  ∃ n, match_at [PStar space] s = Some n ∧ drop n s = lstrip s.
Proof.
  change (match_at [PStar space] s) with (match_star space (match_at []) s).
  induction s as [|c s (n & IH & Hn)]; cbn [match_star].
  - by exists 0.
  - change (cset_mem space c) with (xorb false (is_space c || false)).
    rewrite orb_false_r. cbn [xorb]. unfold lstrip. cbn [drop_while].
    destruct (is_space c).
    + rewrite IH. by exists (S n).
    + by exists 0.
Qed.

Lemma match_at_opt l p s :
  match_at (POpt l :: p) s
  = if starts_with l s then
      match match_at p (drop (length l) s) with
      | Some n => Some (length l + n)
      | None => match_at p s
      end
    else match_at p s.
Proof. reflexivity. Qed.

Lemma is_space_not c x : is_space c = true → is_space x = false → c ≠ x.
Proof. congruence. Qed.

(** The opening fence at the head of a text: the backticks, the word json
    when it follows, and the whitespace behind are removed. *)
Lemma re_sub_fence_open_head (tagged : bool) s :
  (tagged = false → starts_with (py "json") s = false) →
  re_sub fence_open []
    (py "```" ++ (if tagged then py "json" else []) ++ s)
  = re_sub fence_open [] (lstrip s).
Proof.
  intros Htag.
  set (t := (if tagged then py "json" else []) ++ s).
  assert (∃ n, match_at [POpt (py "json"); PStar space] t = Some n
             ∧ drop n t = lstrip s) as (n & Hn & Hdrop).
  { rewrite match_at_opt. subst t. destruct tagged.
    - rewrite starts_with_app.
      replace (drop (length (py "json")) (py "json" ++ s)) with s by done.
      destruct (match_star_space s) as (n & -> & Hn).
      exists (length (py "json") + n). split; [done|].
      by rewrite <- drop_drop.
    - cbn [app]. rewrite (Htag eq_refl). apply match_star_space. }
  assert (match_at fence_open (py "```" ++ t) = Some (S (2 + n))) as Hm.
  { unfold fence_open, lit. rewrite match_at_lit, starts_with_app.
    replace (drop (length (py "```")) (py "```" ++ t)) with t by done.
    by rewrite Hn. }
  rewrite (re_sub_match _ _ _ _ Hm). cbn [app].
  replace (drop (S (2 + n)) (py "```" ++ t)) with (drop n t) by done.
  by rewrite Hdrop.
Qed.

Lemma fence_open_not_backtick c s :
  c ≠ backtick → match_at fence_open (c :: s) = None.
Proof.
  intros Hc. unfold fence_open, lit. rewrite match_at_lit.
  change (py "```") with (backtick :: py "``"). cbn [starts_with].
  by destruct (N.eqb_spec backtick c) as [<-|_].
Qed.

Lemma re_sub_fence_open_prefix pre rest :
  backtick ∉ pre →
  re_sub fence_open [] (pre ++ rest) = pre ++ re_sub fence_open [] rest.
Proof.
  intros Hpre. apply re_sub_prefix. intros i Hi.
  rewrite drop_app_le by lia.
  destruct (drop i pre) as [|c u] eqn:Hd.
  { apply (f_equal length) in Hd. rewrite length_drop in Hd. cbn in Hd. lia. }
  cbn [app]. apply fence_open_not_backtick. intros ->.
  apply Hpre. rewrite <- (take_drop i pre), Hd. set_solver.
Qed.

(** X7. A fenced answer is unwrapped: around a body without backticks, an
    opening fence (three backticks, with the word json or followed by
    whitespace), a closing fence and any whitespace before, between and
    after them change nothing: [clean_json_text] gives what it gives for the
    body alone. *)
Theorem fenced_text_is_unwrapped (tagged : bool)
    (lead gap1 body gap2 trail : pystr) :
  Forall (λ g, forallb is_space g = true) [lead; gap1; gap2; trail] →
  (tagged = false → gap1 ≠ []) →
  backtick ∉ body →
  clean_json_text
    (lead ++ py "```" ++ (if tagged then py "json" else [])
     ++ gap1 ++ body ++ gap2 ++ py "```" ++ trail)
  = clean_json_text body.
Proof.
  intros Hgaps Htag Hbody.
  apply Forall_cons in Hgaps as [Hlead Hgaps].
  apply Forall_cons in Hgaps as [Hgap1 Hgaps].
  apply Forall_cons in Hgaps as [Hgap2 Hgaps].
  apply Forall_cons in Hgaps as [Htrail _].
  unfold clean_json_text.
  rewrite (re_sub_fence_open body Hbody), (re_sub_fence_close body Hbody).
  set (u := lstrip (body ++ gap2)).
  assert (backtick ∉ u) as Hu.
  { subst u. destruct (lstrip_suffix (body ++ gap2)) as (a & Ha).
    intros Hin. pose proof (space_not_backtick _ Hgap2).
    assert (backtick ∈ body ++ gap2) as Hin' by (rewrite Ha; set_solver).
    set_solver. }
  assert (re_sub fence_open []
            (lead ++ py "```" ++ (if tagged then py "json" else [])
             ++ gap1 ++ body ++ gap2 ++ py "```" ++ trail)
          = lead ++ u) as ->.
  { rewrite re_sub_fence_open_prefix by (by apply space_not_backtick).
    f_equal. rewrite re_sub_fence_open_head.
    2:{ intros ->. destruct gap1 as [|c g]; [by destruct Htag|].
        cbn [forallb] in Hgap1. apply andb_true_iff in Hgap1 as [Hc _].
        change (py "json") with (106%N :: py "son"). cbn [app starts_with].
        by destruct (N.eqb_spec 106 c) as [<-|_]. }
    assert (lstrip (gap1 ++ body ++ gap2 ++ py "```" ++ trail)
            = u ++ py "```" ++ trail) as ->.
    { unfold lstrip at 1. rewrite drop_while_app_true by done.
      rewrite (app_assoc body gap2).
      change (py "```" ++ trail) with (backtick :: (py "``" ++ trail)).
      by rewrite drop_while_app_false. }
    rewrite re_sub_fence_open_prefix by done.
    rewrite <- (app_nil_r u) at 2. f_equal.
    change (py "```" ++ trail)
      with (py "```" ++ [] ++ trail).
    rewrite (re_sub_fence_open_head false trail).
    2:{ intros _. destruct trail as [|c g]; [done|].
        cbn [forallb] in Htrail. apply andb_true_iff in Htrail as [Hc _].
        change (py "json") with (106%N :: py "son"). cbn [app starts_with].
        by destruct (N.eqb_spec 106 c) as [<-|_]. }
    unfold lstrip. by rewrite drop_while_all. }
  rewrite re_sub_fence_close.
  2:{ pose proof (space_not_backtick _ Hlead). set_solver. }
  assert (strip (lead ++ u) = strip body) as ->; [|done].
  subst u. destruct (lstrip_app_space body gap2 Hgap2) as (g & Hg & ->).
  rewrite (strip_padded lead (lstrip body) g Hlead Hg).
  unfold strip. unfold lstrip at 1. by rewrite drop_while_idemp.
Qed.

(* --------------------------------------------------------------------- *)
(** ** What a decoded answer contributes                                  *)
(* --------------------------------------------------------------------- *)

Section Decoded.
Context `{World}.

Lemma len_iterate v n : len v = Returns n → iterate v = Returns (contribution v).
Proof. by destruct v. Qed.

Lemma len_Raises v e : len v = Raises e → contribution v = [].
Proof. by destruct v. Qed.

(** What the two parsing attempts return has a length. *)
Lemma decode_results_sized raw notes v :
  decode_results raw = (notes, Returns v) → ∃ n, len v = Returns n.
Proof.
  unfold decode_results.
  destruct (json_loads (clean_json_text raw)) as [v0|e|e].
  - destruct (len v0) as [n|e] eqn:En; [|done].
    intros [= _ <-]. by exists n.
  - destruct (json_loads (aggressive_clean _)) as [v1|e1|e1].
    + destruct (len v1) as [n|e2] eqn:En.
      * intros [= _ <-]. by exists n.
      * intros [= _ <-]. by exists 0.
    + intros [= _ <-]. by exists 0.
    + intros [= _ <-]. by exists 0.
  - done.
Qed.

Lemma classify_sized b notes v :
  classify b = (notes, Returns v) → ∃ n, len v = Returns n.
Proof.
  unfold classify. destruct (crew_setup b); [done|].
  destruct (kickoff b) as [raw|e].
  - apply decode_results_sized.
  - destruct (is_telemetry_error e); [|done].
    destruct (decode_results (py "[]")) as [notes' r] eqn:Hd.
    intros [= _ ->]. by eapply decode_results_sized.
Qed.

(** What a batch returns can be walked by [extend]. *)
Lemma process_batch_with_crew_sized b notes v :
  process_batch_with_crew b = (notes, v) → ∃ n, len v = Returns n.
Proof.
  unfold process_batch_with_crew.
  destruct (classify b) as [notes' [v'|e]] eqn:Hc; cbn.
  - intros [= _ <-]. by eapply classify_sized.
  - intros [= _ <-]. by exists 0.
Qed.

(** X8. When the classification of a batch comes back and [json.loads]
    decodes the cleaned text, the batch is not checked to be an array: an
    array contributes its items to [all_results], an object its keys, one
    text per key, a text its characters; a number, a boolean or [null] makes
    [len] raise, which ends the batch with an error and the empty list,
    without a second attempt. This holds with and without the asynchronous
    search. *)
Theorem decoded_value_is_walked (b : nat) (raw : pystr) (v : jval)
    (searched : list outcome) (results : list jval) :
  crew_setup b = None → kickoff b = Returns raw →
  json_loads (clean_json_text raw) = Parsed v →
  ∃ notes returned,
    process_batch_with_crew b = (notes, returned)
    ∧ process_batch_async b (Returns searched) = (notes, returned)
    ∧ extend results returned = results ++ contribution v
    ∧ count_where is_decoding notes = 1
    ∧ match len v with
      | Returns n =>
          notes = [Decoding (clean_json_text raw); ProcessedOk n]
          ∧ returned = v
      | Raises e =>
          notes = [Decoding (clean_json_text raw); BatchError e]
          ∧ returned = JList []
      end.
Proof.
  intros Hsetup Hkick Hloads.
  unfold process_batch_with_crew, process_batch_async, classify.
  rewrite Hsetup, Hkick. unfold decode_results. rewrite Hloads.
  destruct (len v) as [n|e] eqn:Hlen; cbn [at_boundary app].
  - eexists _, _. split_and!; try done.
    unfold extend. by rewrite (len_iterate _ _ Hlen).
  - eexists _, _. split_and!; try done.
    unfold extend. cbn. by rewrite (len_Raises _ _ Hlen), app_nil_r.
Qed.

(** X9. The second attempt can succeed only on a text the aggressive
    cleaning has changed. When the cleaned text holds allowed characters
    only and [json.loads] rejects it, the second attempt hands over the very
    same text and the batch is skipped; so a batch that reports a recovery
    had a character outside the allowed set in its cleaned text. *)
Theorem recovery_needs_a_removed_character (raw : pystr) :
  let cleaned := clean_json_text raw in
  (∀ e, forallb allowed cleaned = true →
        json_loads cleaned = JSONDecodeError e →
        decode_results raw
        = ([Decoding cleaned; ParseError e; Decoding cleaned; Skipped],
           Returns (JList [])))
  ∧ (count_where is_recovered (decode_results raw).1 ≠ 0 →
     ∃ c, c ∈ cleaned ∧ allowed c = false).
Proof.
  intros cleaned.
  assert (forallb allowed cleaned = true → aggressive_clean cleaned = cleaned)
    as Hsame.
  { intros Hall. rewrite aggressive_clean_filter.
    induction cleaned as [|c s IH]; [done|]. cbn in *.
    apply andb_true_iff in Hall as [-> Hs]. by rewrite IH. }
  split.
  - intros e Hall He. unfold decode_results. fold cleaned.
    rewrite He, (Hsame Hall), He. done.
  - intros Hrec. destruct (forallb allowed cleaned) eqn:Hall.
    + exfalso. apply Hrec. unfold decode_results. fold cleaned.
      destruct (json_loads cleaned) as [v|e|e] eqn:He.
      * by destruct (len v).
      * by rewrite (Hsame eq_refl), He.
      * done.
    + apply forallb_false in Hall as (i & c & Hi & Hc).
      exists c. split; [|done]. by eapply list_elem_of_lookup_2.
Qed.
End Decoded.

(* --------------------------------------------------------------------- *)
(** ** Every attendee is processed once                                   *)
(* --------------------------------------------------------------------- *)

Lemma tally_app {A} (w : A → nat) (l1 l2 : list A) :
  tally w (l1 ++ l2) = tally w l1 + tally w l2.
Proof. induction l1 as [|x l1 IH]; cbn; [done|]. rewrite IH. lia. Qed.

Lemma count_where_all {A} (P : A → bool) (l : list A) :
  Forall (λ x, P x = true) l → count_where P l = length l.
Proof.
  induction 1 as [|x l Hx _ IH]; [done|].
  unfold count_where in *. cbn. by rewrite Hx, IH.
Qed.

Lemma count_where_none {A} (P : A → bool) (l : list A) :
  Forall (λ x, P x = false) l → count_where P l = 0.
Proof.
  induction 1 as [|x l Hx _ IH]; [done|].
  unfold count_where in *. cbn. by rewrite Hx, IH.
Qed.

Section Processed.
Context (p : processor) (batch : list attendee).

Local Notation cap := (AsyncAttendeeProcessor.max_concurrent_searches p).

Lemma processed_step i f f' :
  processed f = count_where is_finished (tasks f) →
  process_with_semaphore p batch i f = Some f' →
  processed f' = count_where is_finished (tasks f').
Proof.
  intros Hinv Hstep.
  apply process_with_semaphore_Some in Hstep
    as (a & _ & [(Ht & free & _ & ->)|[(Ht & ->)|(Ht & ->)]]);
    unfold processed, count_where in *; cbn [trace tasks];
    rewrite tally_app; cbn [tally is_searched];
    pose proof (count_where_insert is_finished (tasks f) i _
                  (if delay_is_positive p then Sleeping else Searching) Ht) as H1;
    pose proof (count_where_insert is_finished (tasks f) i _ Searching Ht) as H2;
    pose proof (count_where_insert is_finished (tasks f) i _
                  (Finished (process_attendee
                     (AsyncAttendeeProcessor.search_tool p i) a)) Ht) as H3;
    unfold count_where in *; cbn [is_finished] in *.
  - destruct (delay_is_positive p); cbn [is_finished] in *; lia.
  - lia.
  - lia.
Qed.

Lemma fanout_reachable_processed f :
  fanout_reachable p batch f →
  processed f = count_where is_finished (tasks f).
Proof.
  intros Hreach.
  eapply (rtc_ind_r (λ f, processed f = count_where is_finished (tasks f)));
    [| |exact Hreach].
  - unfold processed, fanout_init. cbn [trace tasks].
    rewrite (count_where_none is_finished); [done|]. by apply Forall_replicate.
  - intros f1 f2 _ (_ & i & Hstep) IH. by eapply processed_step.
Qed.

(** X10. [process_attendee] runs once for each attendee of the batch: at
    every moment of a [process_attendees] call the runs that have ended are
    as many as the coroutines that have returned, at most one for each
    attendee; when the call returns its list there has been exactly one run
    for each attendee, each inside its own acquire and release, and every
    permit of the semaphore has been given back. *)
Theorem each_attendee_is_processed_once (f : fanout) :
  fanout_reachable p batch f →
  processed f = count_where is_finished (tasks f)
  ∧ processed f ≤ length batch
  ∧ ∀ outs, process_attendees p batch f = Some (Returns outs) →
      processed f = length batch
      ∧ permits f = Z.to_nat cap
      ∧ ∀ i, i < length batch →
          events_of i (trace f)
          = Acquired i
            :: (if delay_is_positive p
                then [Slept i (AsyncAttendeeProcessor.rate_limit_delay p)]
                else [])
            ++ [Searched i; Released i].
Proof.
  intros Hreach.
  pose proof (fanout_reachable_processed f Hreach) as Hs.
  pose proof (fanout_reachable_inv p batch f Hreach) as Hinv.
  pose proof (fanout_reachable_trace p batch f Hreach) as Htrace.
  split; [done|]. split.
  { rewrite Hs, <- (inv_length _ _ _ Hinv). apply count_where_le. }
  intros outs Hret.
  assert (gathered f = Some (Returns outs)) as Hg.
  { destruct batch as [|a rest] eqn:Hb.
    - assert (f = fanout_init p []) as ->.
      { apply rtc_inv in Hreach as [|(f1 & [Hno _] & _)]; [done|].
        discriminate Hno. }
      cbn in Hret. by injection Hret as <-.
    - by apply (process_attendees_returned p (a :: rest)). }
  unfold gathered in Hg. destruct (raised f); [done|].
  destruct (results_of (tasks f)) as [outs'|] eqn:Hres; [|done].
  injection Hg as ->. apply results_of_Some in Hres.
  assert (Forall (λ t, is_finished t = true) (tasks f)) as Hfin.
  { rewrite Hres. apply Forall_fmap, Forall_true. done. }
  assert (Forall (λ t, holds_permit t = false) (tasks f)) as Hfree.
  { rewrite Hres. apply Forall_fmap, Forall_true. done. }
  split_and!.
  - rewrite Hs, count_where_all by done. apply (inv_length _ _ _ Hinv).
  - pose proof (inv_permits _ _ _ Hinv) as Hp. unfold holders in Hp.
    rewrite count_where_none in Hp by done. lia.
  - intros i Hi. destruct (Htrace i) as [-> _].
    rewrite <- (inv_length _ _ _ Hinv), Hres, length_map in Hi.
    destruct (lookup_lt_is_Some_2 outs i Hi) as (o & Ho).
    by rewrite Hres, list_lookup_fmap, Ho.
Qed.
End Processed.

(* --------------------------------------------------------------------- *)
(** ** How [all_results] grows                                            *)
(* --------------------------------------------------------------------- *)

Section Growth.
Context `{World} (c : crew).

Lemma process_batch_not_absorbed b k st st' :
  process_batch c b k st = Some st' →
  is_absorbed st = false ∧ is_absorbed st' = false.
Proof.
  intros [(_ & -> & [(e & _ & ->)|(batch & _ & ->)])
         |[(i & batch & f & f' & _ & -> & _ & _ & ->)
          |[(batch & f & r & _ & -> & _ & ->)
           |(searched & notes & v & _ & -> & _ & ->)]]]%process_batch_Some;
    try done.
  by destruct (PharmaCrew.use_async_processing c).
Qed.

Lemma extend_absorbed results notes v :
  extend results v = results ++ absorbed (Absorbed notes v).
Proof.
  unfold extend, absorbed. destruct (iterate v); [done|]. by rewrite app_nil_r.
Qed.

(** The order in which the batches were absorbed. *)
Lemma absorption_order_step workers a s s' order :
  pool_step c workers a s = Some s' →
  NoDup order →
  (∀ b, b ∈ order ↔ ∃ st, batches s !! b = Some st ∧ is_absorbed st = true) →
  all_results s = concat (map (delivered_by s) order) →
  ∃ order',
    NoDup order'
    ∧ (∀ b, b ∈ order' ↔ ∃ st, batches s' !! b = Some st ∧ is_absorbed st = true)
    ∧ all_results s' = concat (map (delivered_by s') order')
    ∧ order `prefix_of` order'.
Proof.
  intros Hstep Hnodup Hin Hall.
  apply pool_step_Some in Hstep
    as [(b & k & st & st' & -> & Hb & Hpb & _ & ->)
       |(b & notes & v & -> & Hb & ->)].
  - apply process_batch_not_absorbed in Hpb as [Hst Hst'].
    assert (b ∉ order) as Hnot.
    { intros (st0 & Hst0 & Habs)%Hin. congruence. }
    exists order. split_and!; [done| | |done].
    + intros b'. rewrite Hin. cbn [batches].
      destruct (decide (b = b')) as [<-|Hne].
      * rewrite list_lookup_insert_eq by (by eapply lookup_lt_Some).
        split; intros (st0 & Hst0 & Habs); congruence.
      * by rewrite list_lookup_insert_ne.
    + cbn [all_results]. rewrite Hall. f_equal. apply map_ext_in.
      intros b' Hb'%list_elem_of_In. unfold delivered_by. cbn [batches].
      rewrite list_lookup_insert_ne; [done|]. by intros <-.
  - assert (b ∉ order) as Hnot.
    { intros (st0 & Hst0 & Habs)%Hin. rewrite Hb in Hst0.
      by injection Hst0 as <-. }
    exists (order ++ [b]). split_and!.
    + apply NoDup_app. split_and!; [done| |apply NoDup_singleton].
      by intros b' Hb' ->%list_elem_of_singleton.
    + intros b'. rewrite elem_of_app, list_elem_of_singleton, Hin.
      cbn [batches]. destruct (decide (b = b')) as [<-|Hne].
      * rewrite list_lookup_insert_eq by (by eapply lookup_lt_Some).
        split; [by eexists|by right].
      * rewrite list_lookup_insert_ne by done.
        split; [by intros [?|?]|by left].
    + cbn [all_results]. rewrite map_app, concat_app. cbn [map concat].
      rewrite app_nil_r. unfold delivered_by at 2. cbn [batches].
      rewrite list_lookup_insert_eq by (by eapply lookup_lt_Some).
      cbn [from_option]. rewrite (extend_absorbed _ notes), Hall. f_equal.
      f_equal. apply map_ext_in.
      intros b' Hb'%list_elem_of_In. unfold delivered_by. cbn [batches].
      rewrite list_lookup_insert_ne; [done|]. by intros <-.
    + by apply prefix_app_r.
Qed.

(** X11. [all_results] grows at its end only, a whole batch at a time: at
    every moment it is the concatenation, in the order in which the batches
    were absorbed, of what each absorbed batch returned, so the records of a
    batch stay together and in the order the batch gave them; and a step of
    the pool leaves what is in the list where it is. *)
Theorem all_results_grows_batch_by_batch (s : pool) :
  pool_reachable c s →
  (∃ order : list nat,
     NoDup order
     ∧ (∀ b, b ∈ order ↔ ∃ st, batches s !! b = Some st ∧ is_absorbed st = true)
     ∧ all_results s = concat (map (delivered_by s) order))
  ∧ ∀ workers s', pool_next c workers s s' →
      all_results s `prefix_of` all_results s'.
Proof.
  intros (_ & total_batches & workers & _ & Hreach). split.
  - eapply (rtc_ind_r (λ s, ∃ order : list nat,
       NoDup order
       ∧ (∀ b, b ∈ order
               ↔ ∃ st, batches s !! b = Some st ∧ is_absorbed st = true)
       ∧ all_results s = concat (map (delivered_by s) order)));
      [| |exact Hreach].
    + exists []. split_and!; [apply NoDup_nil_2| |done].
      intros b. split; [by intros ?%elem_of_nil|].
      intros (st & Hst & Habs). unfold pool_init in Hst. cbn in Hst.
      apply lookup_replicate in Hst as [-> _]. done.
    + intros s1 s2 _ [a Hstep] (order & Hnodup & Hin & Hall).
      destruct (absorption_order_step _ _ _ _ _ Hstep Hnodup Hin Hall)
        as (order' & ? & ? & ? & _).
      by exists order'.
  - intros workers' s' [a Hstep].
    apply pool_step_Some in Hstep
      as [(b & k & st & st' & -> & _ & _ & _ & ->)
         |(b & notes & v & -> & _ & ->)]; cbn [all_results].
    + done.
    + rewrite (extend_absorbed _ notes). by apply prefix_app_r.
Qed.

(** X12. What a batch hands to [analyze] can always be walked: it is an
    array, an object or a text, so the [extend] of [analyze] never raises
    and the handler around it is never entered; absorbing the batch appends
    all the value holds. *)
Theorem batch_results_can_be_extended (s : pool) (b : nat)
    (notes : list note) (v : jval) :
  pool_reachable c s →
  batches s !! b = Some (Completed notes v) →
  ∃ records,
    iterate v = Returns records
    ∧ ∀ workers, pool_step c workers (Absorb b) s
        = Some {| batches := <[b := Absorbed notes v]> (batches s);
                  all_results := all_results s ++ records |}.
Proof.
  intros Hreach Hb.
  pose proof (pool_reachable_returned c s Hreach b notes v (or_introl Hb))
    as Hret.
  assert (∃ n, len v = Returns n) as (n & Hn).
  { destruct Hret as [Hret| ->]; [|by exists 0].
    by eapply process_batch_with_crew_sized. }
  exists (contribution v). split; [by eapply len_iterate|].
  intros workers. cbn [pool_step]. rewrite Hb. unfold extend.
  by rewrite (len_iterate _ _ Hn).
Qed.

(** X13. Without the asynchronous search no batch enters a fanout: in every
    state of the pool each batch is waiting, with its crew, completed or
    absorbed, no search is under way, and what a batch ends with is what
    [process_batch_with_crew] gives, or the error of the batch banner. *)
Theorem crew_mode_makes_no_search (s : pool) :
  PharmaCrew.use_async_processing c = false →
  pool_reachable c s →
  total_in_flight s = 0
  ∧ ∀ b st, batches s !! b = Some st →
      st = Pending ∨ st = Finishing None
      ∨ ∃ notes v, (st = Completed notes v ∨ st = Absorbed notes v)
          ∧ ((notes, v) = process_batch_with_crew b
             ∨ ∃ e, preprocess_attendees (PharmaCrew.attendees c)
                      (PharmaCrew.batch_size c) (Z.of_nat b) = Raises e
                    ∧ notes = [BatchError e] ∧ v = JList []).
Proof.
  intros Hmode (_ & total_batches & workers & _ & Hreach).
  set (good := λ (b : nat) st,
    st = Pending ∨ st = Finishing None
    ∨ ∃ notes v, (st = Completed notes v ∨ st = Absorbed notes v)
        ∧ ((notes, v) = process_batch_with_crew b
           ∨ ∃ e, preprocess_attendees (PharmaCrew.attendees c)
                    (PharmaCrew.batch_size c) (Z.of_nat b) = Raises e
                  ∧ notes = [BatchError e] ∧ v = JList [])).
  assert (∀ b st, batches s !! b = Some st → good b st) as Hgood.
  { eapply (rtc_ind_r (λ s, ∀ b st, batches s !! b = Some st → good b st));
      [| |exact Hreach].
    - intros b st Hst. unfold pool_init in Hst. cbn in Hst.
      apply lookup_replicate in Hst as [-> _]. by left.
    - intros s1 s2 _ [a Hstep] IH b' st2 Hst2.
      apply pool_step_Some in Hstep
        as [(b & k & st & st' & -> & Hb & Hpb & _ & ->)
           |(b & notes & v & -> & Hb & ->)]; cbn [batches] in Hst2.
      + destruct (decide (b = b')) as [<-|Hne].
        2:{ rewrite list_lookup_insert_ne in Hst2 by done. by apply IH. }
        rewrite list_lookup_insert_eq in Hst2 by (by eapply lookup_lt_Some).
        injection Hst2 as <-. specialize (IH _ _ Hb).
        apply process_batch_Some in Hpb
          as [(_ & -> & [(e & He & ->)|(batch & _ & ->)])
             |[(i & batch & f & f' & _ & -> & _)
              |[(batch & f & r & _ & -> & _)
               |(searched & notes & v & _ & -> & Hnv & ->)]]].
        * right. right. exists [BatchError e], (JList []).
          split; [by left|]. right. by exists e.
        * rewrite Hmode. by right; left.
        * by destruct IH as [|[|(? & ? & [|] & _)]].
        * by destruct IH as [|[|(? & ? & [|] & _)]].
        * destruct IH as [|[[= ->]|(? & ? & [|] & _)]]; [done| |done|done].
          right. right. exists notes, v. split; [by left|by left].
      + destruct (decide (b = b')) as [<-|Hne].
        2:{ rewrite list_lookup_insert_ne in Hst2 by done. by apply IH. }
        rewrite list_lookup_insert_eq in Hst2 by (by eapply lookup_lt_Some).
        injection Hst2 as <-.
        destruct (IH _ _ Hb) as [|[|(n0 & v0 & [[= <- <-]|] & Hwhat)]];
          [done|done| |done].
        right. right. exists notes, v. split; [by right|done]. }
  split; [|done].
  unfold total_in_flight.
  assert (∀ l, (∀ st, st ∈ l → batch_in_flight st = 0) →
               tally batch_in_flight l = 0) as Hzero.
  { induction l as [|x l IH]; intros Hl; [done|]. cbn.
    rewrite (Hl x) by set_solver. rewrite IH; [done|]. set_solver. }
  apply Hzero. intros st (b & Hb)%list_elem_of_lookup.
  by destruct (Hgood b st Hb) as [->|[->|(? & ? & [->| ->] & _)]].
Qed.
End Growth.

(* --------------------------------------------------------------------- *)
(** ** Sizes that are not positive, and indices out of range              *)
(* --------------------------------------------------------------------- *)

(** X14. [preprocess_attendees] never fails on an index: for a positive
    batch size and any index from zero on, the batch is the window of
    [batch_size] attendees that starts at [batch_index * batch_size], cut at
    the end of the list, so it is empty for an index at or behind the
    number of batches; only a batch size of zero raises, in the banner. *)
Theorem batch_is_a_window (attendees : list attendee)
    (batch_size batch_index : Z) :
  (0 < batch_size)%Z → (0 ≤ batch_index)%Z →
  preprocess_attendees attendees batch_size batch_index
  = Returns (take (Z.to_nat batch_size)
               (drop (Z.to_nat (batch_index * batch_size)) attendees))
  ∧ ∃ e, preprocess_attendees attendees 0 batch_index = Raises e.
Proof.
  intros Hsize Hindex. split; [|by eexists].
  unfold preprocess_attendees, batch_count.
  destruct (Z.eqb_spec batch_size 0) as [->|_]; [lia|].
  cbn [mbind reply_bind mret reply_ret]. f_equal. unfold slice.
  set (n := Z.of_nat (length attendees)).
  set (a := (batch_index * batch_size)%Z).
  assert (0 ≤ a)%Z as Ha by (subst a; nia).
  destruct (Z.ltb_spec a 0) as [?|_]; [lia|].
  destruct (Z.ltb_spec (Z.min (a + batch_size) n) 0) as [?|_]; [lia|].
  destruct (Z.le_gt_cases n a) as [Hout|Hin].
  - rewrite !drop_ge by lia. by rewrite !take_nil.
  - replace (Z.min a n) with a by lia.
    destruct (Z.le_gt_cases (a + batch_size) n) as [Hfull|Hcut].
    + do 2 f_equal. lia.
    + replace (Z.min (Z.min (a + batch_size) n) n - a)%Z with (n - a)%Z by lia.
      rewrite !take_ge; [done| |]; rewrite length_drop; lia.
Qed.

(** X15. [analyze] works on the attendees only when the batch size and the
    number of workers are positive. If one of them is not, it returns the
    empty list at once, whatever the attendees; the one exception is a
    single attendee with a negative batch size and a positive number of
    workers, where the floor division plans one batch and the slice of that
    batch is empty, so the attendee is never processed. *)
Theorem sizes_must_be_positive `{World} (c : crew) :
  (PharmaCrew.batch_size c ≤ 0)%Z ∨ (PharmaCrew.max_workers c ≤ 0)%Z →
  (∀ s, analyze c s = Some [])
  ∨ (length (PharmaCrew.attendees c) = 1
     ∧ (PharmaCrew.batch_size c < 0)%Z ∧ (0 < PharmaCrew.max_workers c)%Z
     ∧ plan c = Returns (1, 1)
     ∧ preprocess_attendees (PharmaCrew.attendees c)
         (PharmaCrew.batch_size c) 0 = Returns []).
Proof.
  intros Hsizes. unfold analyze, plan, batch_count.
  destruct (PharmaCrew.attendees c) as [|a atts] eqn:Hatts; [by left|].
  set (B := PharmaCrew.batch_size c) in *.
  set (W := PharmaCrew.max_workers c) in *.
  set (N := Z.of_nat (length (a :: atts))).
  assert (1 ≤ N)%Z as HN by (subst N; cbn [length]; lia).
  destruct (Z.eqb_spec B 0) as [HB|HB]; [by left|].
  cbn [mbind reply_bind].
  destruct (Z.leb_spec (Z.min W ((N + B - 1) / B)) 0) as [Hw|Hw]; [by left|].
  right.
  assert (B < 0)%Z as Hneg.
  { destruct Hsizes as [?|?]; [lia|]. lia. }
  assert (0 < W)%Z as HW by lia.
  assert (0 < (N + B - 1) / B)%Z as Hq by lia.
  pose proof (Z.div_mod (N + B - 1) B HB) as Hdm.
  pose proof (Z.mod_neg_bound (N + B - 1) B Hneg) as Hmod.
  assert (N = 1)%Z as HN1 by nia.
  assert ((N + B - 1) / B = 1)%Z as Hone.
  { rewrite HN1. replace (1 + B - 1)%Z with B by lia. by apply Z.div_same. }
  split_and!; [subst N; cbn [length] in *; lia|done|done| |].
  - rewrite Hone. replace (Z.min W 1) with 1%Z by lia. done.
  - unfold preprocess_attendees, batch_count, slice.
    destruct (Z.eqb_spec B 0) as [?|_]; [done|].
    cbn [mbind reply_bind mret reply_ret]. f_equal.
    fold N. rewrite HN1.
    replace (0 * B)%Z with 0%Z by lia.
    replace (Z.min (0 + B) 1) with B by lia.
    cbn [Z.ltb Z.compare]. destruct (Z.ltb_spec B 0) as [_|?]; [|lia].
    replace (Z.max 0 (B + 1)) with 0%Z by lia. done.
Qed.

(* --------------------------------------------------------------------- *)
(** ** The query of a search                                              *)
(* --------------------------------------------------------------------- *)

Lemma find_none_Forall {A} (P : A → bool) (l : list A) :
  List.find P l = None ↔ Forall (λ x, P x = false) l.
Proof.
  induction l as [|x l IH]; cbn.
  - split; [by constructor|done].
  - destruct (P x) eqn:Hx.
    + split; [done|]. intros Hall. apply Forall_cons in Hall as [? _]. congruence.
    + rewrite IH. split; [by constructor|]. by intros [_ ?]%Forall_cons.
Qed.

Lemma find_first {A} (P : A → bool) (l : list A) x :
  List.find P l = Some x →
  ∃ pre post, l = pre ++ x :: post ∧ P x = true
    ∧ Forall (λ y, P y = false) pre.
Proof.
  induction l as [|y l IH]; cbn; [done|].
  destruct (P y) eqn:Hy.
  - intros [= ->]. by exists [], l.
  - intros (pre & post & -> & Hx & Hpre)%IH.
    exists (y :: pre), post. split_and!; [done|done|by constructor].
Qed.

(** The choice of [execute_async] on a dictionary. *)
Lemma query_of_cases entries otherwise :
  match query_of entries otherwise with
  | Query v => chosen entries v
  | Answer text =>
      text = otherwise
      ∧ entry (py "query") entries = None
      ∧ entry (py "description") entries = None
      ∧ Forall (λ kv, is_text kv.2 = false) entries
  end.
Proof.
  unfold query_of, chosen.
  destruct (entry (py "query") entries) as [v|]; [by left|].
  destruct (entry (py "description") entries) as [v|];
    [right; split; [done|by left]|].
  destruct (List.find _ entries) as [[key v]|] eqn:Hfind.
  - apply find_first in Hfind as (pre & post & -> & Hv & Hpre).
    right. split; [done|]. right. split; [done|]. by exists pre, key, post.
  - apply find_none_Forall in Hfind. done.
Qed.

(** X16. [execute_async] searches only with a query. An input that is a
    dictionary, or a text that [json.loads] decodes to an object, gives
    as query the value under [query], else the value under [description],
    else the first value that is text, and without any of these the tool
    answers with an error text and makes no search. A text that is not
    JSON, or is the JSON of something other than an object, is its own
    query, as it was given. Any other input is answered with an error
    text. The call raises only what [json.loads] raises besides
    [JSONDecodeError]. *)
Theorem search_needs_a_query `{World} (input_data : tool_input) :
  (∀ choice, query_of_input input_data = Returns choice →
     (∃ entries,
        (input_data = InDict entries
         ∨ ∃ s, input_data = InStr s ∧ json_loads s = Parsed (JDict entries))
        ∧ match choice with
          | Query v => chosen entries v
          | Answer _ =>
              entry (py "query") entries = None
              ∧ entry (py "description") entries = None
              ∧ Forall (λ kv, is_text kv.2 = false) entries
          end)
     ∨ (∃ s, input_data = InStr s ∧ choice = Query (JStr s)
          ∧ ∀ entries, json_loads s ≠ Parsed (JDict entries))
     ∨ (input_data = InOther
        ∧ choice = Answer (py "Error: Invalid input type")))
  ∧ (∀ e, query_of_input input_data = Raises e →
       ∃ s, input_data = InStr s ∧ json_loads s = OtherError e).
Proof.
  assert (∀ entries otherwise,
            match query_of entries otherwise with
            | Query v => chosen entries v
            | Answer _ =>
                entry (py "query") entries = None
                ∧ entry (py "description") entries = None
                ∧ Forall (λ kv, is_text kv.2 = false) entries
            end) as Hcases.
  { intros entries otherwise. pose proof (query_of_cases entries otherwise) as Hq.
    destruct (query_of entries otherwise); [done|]. by destruct Hq as (_ & ?). }
  destruct input_data as [entries|s|]; cbn [query_of_input]; split.
  - intros choice [= <-]. left. exists entries. split; [by left|]. apply Hcases.
  - done.
  - intros choice. destruct (json_loads s) as [v|e|e] eqn:Hs; [| |done].
    + destruct v as [| | | | | |entries];
        try (intros [= <-]; right; left; exists s;
             split_and!; [done|done|intros ?; congruence]).
      intros [= <-]. left. exists entries. split; [right; by exists s|].
      apply Hcases.
    + intros [= <-]. right. left. exists s.
      split_and!; [done|done|intros ?; congruence].
  - intros e. destruct (json_loads s) as [v|e'|e'] eqn:Hs.
    + by destruct v.
    + done.
    + intros [= <-]. by exists s.
  - intros choice [= <-]. right. by right.
  - done.
Qed.

(* --------------------------------------------------------------------- *)
(** ** The exported table                                                 *)
(* --------------------------------------------------------------------- *)

Lemma dict_to_list_length fieldnames rowdict cells :
  dict_to_list fieldnames rowdict = Some cells →
  length cells = length fieldnames.
Proof.
  unfold dict_to_list. destruct rowdict; try done.
  destruct (forallb _ _); [|done]. intros [= <-]. by rewrite length_map.
Qed.

(** The rows written are those of the results before the first that does
    not fit. *)
Lemma write_rows_spec fieldnames results :
  ∃ n, n ≤ length results
    ∧ Forall2 (λ r cells, dict_to_list fieldnames r = Some cells)
        (take n results) (write_rows fieldnames results).1
    ∧ (if (write_rows fieldnames results).2
       then ∃ r, results !! n = Some r ∧ fits fieldnames r = false
       else n = length results).
Proof.
  induction results as [|r results (n & Hn & Hrows & Hlast)].
  - exists 0. split_and!; [done|by constructor|done].
  - cbn [write_rows]. destruct (dict_to_list fieldnames r) as [cells|] eqn:Hr.
    + destruct (write_rows fieldnames results) as [rows failed]. cbn in *.
      exists (S n). cbn [take]. split_and!; [lia|by constructor|].
      destruct failed; [done|]. cbn. by f_equal.
    + exists 0. cbn. split_and!; [lia|by constructor|].
      exists r. split; [done|]. unfold fits. by rewrite Hr.
Qed.

(** X17. [export_to_csv] writes nothing for an empty list, and reports no
    error then. Otherwise the columns are the keys of the first result, in
    their order; the results are written in order, each as one row with one
    cell per column, the empty text where the result lacks the key; the
    first result that is no dictionary or has a key that is not a column
    stops the export: the rows before it stay in the file and the error is
    reported; an error is reported in no other case, once the file is open. *)
Theorem export_stops_at_the_first_misfit (first : jval) (rest : list jval)
    (fieldnames : list pystr) :
  keys_of first = Some fieldnames →
  let results := first :: rest in
  let out := export_to_csv true results in
  export_to_csv true [] = {| written := None; reported := false |}
  ∧ ∃ n rows,
      written out = Some (map JStr fieldnames :: rows)
      ∧ 1 ≤ n ≤ length results
      ∧ length rows = n
      ∧ Forall (λ cells, length cells = length fieldnames) rows
      ∧ (∀ i entries, i < n → results !! i = Some (JDict entries) →
           rows !! i
           = Some (map (λ k, default (JStr []) (entry k entries)) fieldnames))
      ∧ (∀ i r, i < n → results !! i = Some r → fits fieldnames r = true)
      ∧ (if reported out
         then ∃ r, results !! n = Some r ∧ fits fieldnames r = false
         else n = length results).
Proof.
  intros Hkeys results out. split; [done|].
  destruct (write_rows_spec fieldnames results) as (n & Hn & Hrows & Hlast).
  subst out. unfold export_to_csv. fold results. cbn [results].
  change (first :: rest) with results. rewrite Hkeys.
  destruct (write_rows fieldnames results) as [rows failed] eqn:Hw.
  cbn [fst snd written reported] in *.
  assert (fits fieldnames first = true) as Hfirst.
  { unfold fits, dict_to_list. destruct first; try done.
    injection Hkeys as <-.
    replace (forallb _ _) with true; [done|]. symmetry.
    apply forallb_forall. intros k Hk. apply bool_decide_eq_true.
    by apply list_elem_of_In. }
  assert (1 ≤ n) as Hpos.
  { destruct n as [|n]; [|lia]. destruct failed; [|done].
    destruct Hlast as (r & Hr & Hbad). cbn in Hr. injection Hr as <-. congruence. }
  assert (length rows = n) as Hlen.
  { rewrite <- (Forall2_length _ _ _ Hrows), length_take. lia. }
  assert (∀ i r, i < n → results !! i = Some r →
            ∃ cells, rows !! i = Some cells
              ∧ dict_to_list fieldnames r = Some cells) as Hat.
  { intros i r Hi Hr.
    destruct (Forall2_lookup_l _ _ _ i r Hrows) as (cells & Hc & Hd).
    - by rewrite lookup_take_lt.
    - by exists cells. }
  exists n, rows. split_and!; [done|done|done|done| | | |done].
  - apply Forall_forall. intros cells (i & Hi)%list_elem_of_lookup.
    destruct (Forall2_lookup_r _ _ _ _ _ Hrows Hi) as (r & _ & Hr).
    by eapply dict_to_list_length.
  - intros i entries Hi Hres.
    destruct (Hat i _ Hi Hres) as (cells & -> & Hcells).
    unfold dict_to_list in Hcells. destruct (forallb _ _); [|done].
    by injection Hcells as <-.
  - intros i r Hi Hres. destruct (Hat i _ Hi Hres) as (cells & _ & Hcells).
    unfold fits. by rewrite Hcells.
Qed.

(* --------------------------------------------------------------------- *)
(** ** From the attendee file to the results                              *)
(* --------------------------------------------------------------------- *)

Lemma preprocess_attendee_data_mail rows attendees :
  preprocess_attendee_data rows = Some attendees → Forall has_mail attendees.
Proof.
  unfold preprocess_attendee_data.
  destruct (preprocess_rows rows []) as [d|e]; [|done]. intros [= <-].
  apply Forall_fmap, Forall_true. intros ki. eexists. apply get_email.
Qed.

Section Main.
Context `{World}.

(** The plan of the crew of [main]. *)
Lemma main_plan attendees batch max_searches sync_mode :
  attendees ≠ [] → (0 < batch)%Z →
  let total := ((Z.of_nat (length attendees) + batch - 1) / batch)%Z in
  (1 ≤ total)%Z
  ∧ plan (main_crew attendees batch max_searches sync_mode)
    = Returns (Z.to_nat total, Z.to_nat (Z.min batch total)).
Proof.
  intros Hne Hbatch total.
  assert (1 ≤ total)%Z as Htotal.
  { subst total. apply Z.div_le_lower_bound; [done|].
    destruct attendees; [done|]. cbn [length]. lia. }
  split; [done|]. unfold plan, batch_count. cbn [main_crew PharmaCrew.attendees
    PharmaCrew.batch_size PharmaCrew.max_workers].
  destruct (Z.eqb_spec batch 0) as [?|_]; [lia|].
  cbn [mbind reply_bind]. fold total.
  destruct (Z.leb_spec (Z.min batch total) 0) as [?|_]; [lia|done].
Qed.

(** X18. The run of [main]. The attendees [preprocess_attendee_data] returns
    all have a text email, so with a positive [--batch] and a positive
    [--max-searches] the analysis of [main] (as many workers as the batch
    size) comes to its end from every state it can be in; meanwhile no more
    batches run than the batch size, and no more searches are under way
    than the batch size times [--max-searches]; and the list [analyze]
    returns is, in some order, what the classifications of all the batches
    decoded: no record is lost to a search. *)
Theorem run_of_main (rows : list row) (attendees : list attendee)
    (batch max_searches : Z) (sync_mode : bool) (s : pool) :
  preprocess_attendee_data rows = Some attendees →
  (0 < batch)%Z → (0 < max_searches)%Z →
  let c := main_crew attendees batch max_searches sync_mode in
  pool_reachable c s →
  Forall has_mail attendees
  ∧ ∃ total_batches workers,
      plan c = Returns (total_batches, workers)
      ∧ Z.of_nat total_batches
        = ((Z.of_nat (length attendees) + batch - 1) / batch)%Z
      ∧ (Z.of_nat workers ≤ batch)%Z
      ∧ running s ≤ workers
      ∧ (Z.of_nat (total_in_flight s) ≤ batch * max_searches)%Z
      ∧ (∃ s' results, rtc (pool_next c workers) s s'
           ∧ analyze c s' = Some results)
      ∧ ∀ results, analyze c s = Some results →
          results ≡ₚ concat (map classified (seq 0 total_batches)).
Proof.
  intros Hrows Hbatch Hsearches c Hreach.
  pose proof (preprocess_attendee_data_mail _ _ Hrows) as Hmail.
  split; [done|].
  pose proof Hreach as (Hne & _).
  destruct (main_plan attendees batch max_searches sync_mode Hne Hbatch)
    as (Htotal & Hplan). fold c in Hplan.
  destruct (pool_reachable_inv c s Hreach)
    as (total_batches & workers & Hplan' & Hinv).
  pose proof Hplan' as Hp. rewrite Hplan in Hp. injection Hp as <- <-.
  destruct (plan_Returns c _ _ Hplan') as (Hw & Hwmax & _ & _).
  pose proof Hinv as [Hlen Hwid Hfan Hres].
  eexists _, _. split; [done|]. split_and!.
  - lia.
  - lia.
  - done.
  - assert (∀ b batch0 f, batches s !! b = Some (Gathering batch0 f) →
              in_flight f ≤ Z.to_nat max_searches) as Hin.
    { intros b batch0 f Hb. destruct (Hfan b batch0 f Hb) as [_ Hf].
      apply fanout_reachable_inv, in_flight_bound in Hf. cbn in Hf. lia. }
    assert (total_in_flight s ≤ running s * Z.to_nat max_searches) as Hall.
    { apply tally_scaled. intros st [b Hb]%list_elem_of_lookup.
      destruct st as [|batch0 f| | |]; cbn; try lia. by eapply Hin. }
    nia.
  - destruct (pool_terminates c _ _ s Hsearches Hw Hinv) as (s' & Hrtc & Hend).
    exists s', (all_results s'). split; [done|].
    rewrite analyze_reachable, Hend; [done|].
    destruct Hreach as (_ & k & w & Hplan2 & Hsteps).
    rewrite Hplan' in Hplan2. injection Hplan2 as <- <-.
    split; [done|]. eexists _, _. split; [done|]. by eapply rtc_trans.
  - intros results. rewrite (analyze_reachable c s Hreach).
    destruct (forallb is_absorbed (batches s)) eqn:Eabs; [|done].
    intros [= <-]. rewrite Hres. rewrite forallb_forall in Eabs.
    destruct (pool_reachable_settled c s Hmail ltac:(cbn; lia) Hreach)
      as [_ _ Habs].
    rewrite <- Hlen.
    rewrite (map_by_position absorbed classified (batches s) 0); [done|].
    intros b st Hb.
    assert (is_absorbed st = true) as Hst
      by (apply Eabs, list_elem_of_In, list_elem_of_lookup; eauto).
    destruct st as [| | | |notes v]; try done.
    by apply absorbed_classified, Habs.
Qed.
End Main.

(* --------------------------------------------------------------------- *)
(** ** The record of one attendee                                         *)
(* --------------------------------------------------------------------- *)

Lemma person_name_of_filled a :
  person_name_of a ≠ [] ∧ strip (person_name_of a) = person_name_of a.
Proof.
  unfold person_name_of.
  destruct (strip _) as [|c name] eqn:Hs; [done|].
  split; [done|]. rewrite <- Hs. apply strip_idemp.
Qed.

Lemma run_async_filled answer query : run_async answer query ≠ [].
Proof. by destruct answer as [[|[[|c content]|] rest]|e]. Qed.

Lemma or_else_filled v alt : alt ≠ [] → or_else v alt ≠ [].
Proof. by destruct v as [|[|c s]]. Qed.

(** X19. With the search tool of the program, which turns its own failures
    into text, [process_attendee] on an attendee with a text email never
    enters its handler, and every field of the record it returns is
    determined and, but for the email, filled. The email is the email of
    the attendee. The name is the full name (first name, a space, last
    name) stripped, and [Unknown] when nothing is left of it. The
    organization is that of the attendee, and [Unknown] when it is [None]
    or empty. The domain is what follows the last at sign of the email, and
    [unknown.com] when the email has no at sign or ends with one. The
    search result is the answer, the no-results text or the error text of
    the tool for the query built of the name and the organization. *)
Theorem outcome_fields_are_filled (answer : pystr → reply completion)
    (a : attendee) (mail : pystr) :
  get a "email" = PyStr mail →
  let full :=
    strip (fmt (get a "first_name") ++ py " " ++ fmt (get a "last_name")) in
  ∃ o, process_attendee (execute_async answer) a = Returns o
    ∧ email o = mail
    ∧ person_name o = person_name_of a
    ∧ (full = [] → person_name o = py "Unknown")
    ∧ (full ≠ [] → person_name o = full)
    ∧ person_name o ≠ [] ∧ strip (person_name o) = person_name o
    ∧ organization o = or_else (get a "organization") (py "Unknown")
    ∧ (∀ org, get a "organization" = PyStr org → org ≠ [] →
         organization o = org)
    ∧ (get a "organization" = PyNone ∨ get a "organization" = PyStr [] →
         organization o = py "Unknown")
    ∧ organization o ≠ []
    ∧ (at_sign ∉ mail → company_domain o = py "unknown.com")
    ∧ (∀ pre host, mail = pre ++ at_sign :: host → at_sign ∉ host →
         host ≠ [] → company_domain o = host)
    ∧ (∀ pre, mail = pre ++ [at_sign] → company_domain o = py "unknown.com")
    ∧ company_domain o ≠ []
    ∧ search_result o ≠ []
    ∧ search_result o
      = let query := search_query_of (person_name_of a) (get a "organization") in
        run_async (answer query) query.
Proof.
  intros Hmail full. rewrite (process_attendee_text _ a mail Hmail).
  unfold execute_async. eexists. split; [done|]. cbn [email person_name
    organization company_domain search_result].
  destruct (person_name_of_filled a) as [Hname Hstrip].
  split_and!; try done.
  - unfold person_name_of. fold full. by intros ->.
  - unfold person_name_of. fold full. by destruct full.
  - intros org -> Horg. by destruct org.
  - by intros [->| ->].
  - by apply or_else_filled.
  - intros Hno. by rewrite bool_decide_eq_false_2.
  - intros pre host -> Hhost Hne.
    rewrite bool_decide_eq_true_2 by set_solver.
    rewrite last_part_after_last by done. by destruct host.
  - intros pre ->.
    rewrite bool_decide_eq_true_2 by set_solver.
    by rewrite last_part_after_last by set_solver.
  - by apply or_else_filled.
  - apply run_async_filled.
Qed.

(** What [process_attendee] does with an email that is [None]. *)
Lemma process_attendee_None search a :
  get a "email" = PyNone →
  process_attendee search a
  = Raises (py "argument of type 'NoneType' is not iterable").
Proof. intros Hmail. unfold process_attendee. by rewrite !Hmail. Qed.

Section Lost.
Context `{World} (c : crew).

(** X20. [process_attendee] raises exactly when the email of the attendee is
    [None]: the handler itself tests the email. One such attendee loses its
    whole batch: whenever [process_attendees] ends it raises, and
    [process_batch_async] reports the error and returns the empty list
    without a classification. *)
Theorem none_email_loses_the_batch (b i : nat) (batch : list attendee)
    (a : attendee) (f : fanout) (r : reply (list outcome)) :
  batch !! i = Some a → get a "email" = PyNone →
  fanout_reachable (processor_of c b) batch f →
  process_attendees (processor_of c b) batch f = Some r →
  (∀ search a', (∃ e, process_attendee search a' = Raises e)
                ↔ get a' "email" = PyNone)
  ∧ ∃ e, r = Raises e
      ∧ process_batch_async b r = ([BatchError e], JList []).
Proof.
  intros Hi Hmail Hreach Hend. split.
  - intros search a'. split.
    + intros (e & He). destruct (get a' "email") as [|mail] eqn:Hm; [done|].
      rewrite (process_attendee_text search a' mail Hm) in He.
      by destruct (search _).
    + intros Hm. eexists. by apply process_attendee_None.
  - assert (∃ e, r = Raises e) as (e & ->); [|by exists e].
    destruct r as [outs|e]; [exfalso|by exists e].
    assert (batch ≠ []) as Hne by (by destruct batch).
    apply process_attendees_returned in Hend; [|done].
    apply fanout_reachable_inv in Hreach.
    destruct (gathered_positional _ _ _ _ Hreach Hend) as (_ & Hpos).
    destruct (Hpos i a Hi) as (o & _ & Ho).
    by rewrite process_attendee_None in Ho.
Qed.
End Lost.

(* --------------------------------------------------------------------- *)
(** ** Attendees by organization                                          *)
(* --------------------------------------------------------------------- *)

Lemma tally_store (org : pyval) (n : nat) (d : list (pyval * nat)) :
  tally snd (store org n d) + default 0 (entry org d) = tally snd d + n.
Proof.
  induction d as [|[x w] d IH]; cbn; [lia|].
  destruct (decide (x = org)) as [->|Hx]; cbn; lia.
Qed.

Lemma store_keys_NoDup (org : pyval) (n : nat) (d : list (pyval * nat)) :
  NoDup (map fst d) → NoDup (map fst (store org n d)).
Proof.
  induction d as [|[x w] d IH]; cbn.
  - intros _. apply NoDup_singleton.
  - intros [Hx Hd]%NoDup_cons. destruct (decide (x = org)) as [->|Hne]; cbn.
    + by apply NoDup_cons.
    + apply NoDup_cons. split; [|by apply IH].
      intros (kv & Hk & Hin)%list_elem_of_fmap.
      assert (kv.1 ∈ map fst d ∨ kv.1 = org) as [?|?]; [|set_solver|congruence].
      clear -Hin. induction d as [|[y u] d IH]; cbn in Hin.
      * apply list_elem_of_singleton in Hin as ->. by right.
      * destruct (decide (y = org)) as [->|?].
        -- apply elem_of_cons in Hin as [->|Hin]; [by right|].
           left. apply list_elem_of_fmap. set_solver.
        -- apply elem_of_cons in Hin as [->|Hin]; [left; set_solver|].
           destruct (IH Hin) as [?|?]; [left; set_solver|by right].
Qed.

(** X21. The dictionary [analyze_results] returns counts every attendee
    once: it has one key for each organization that occurs (the text
    [Unknown] for an attendee without the key, [None] for a value that is
    [None]), the count of a key is the number of attendees with that
    organization, and the counts add up to the number of attendees. *)
Theorem organizations_are_counted (attendees : list attendee) :
  let org_counts := analyze_results attendees in
  NoDup (map fst org_counts)
  ∧ tally snd org_counts = length attendees
  ∧ ∀ org, entry org org_counts
           = match count_where (works_for org) attendees with
             | 0 => None
             | n => Some n
             end.
Proof.
  unfold analyze_results.
  assert (∀ d atts,
    NoDup (map fst d) →
    (∀ org n, entry org d = Some n → 0 < n) →
    let d' := foldl count_organization d atts in
    NoDup (map fst d')
    ∧ tally snd d' = tally snd d + length atts
    ∧ (∀ org n, entry org d' = Some n → 0 < n)
    ∧ ∀ org, default 0 (entry org d')
             = default 0 (entry org d) + count_where (works_for org) atts)
    as Hgen.
  { intros d atts. revert d. induction atts as [|a atts IH]; intros d Hd Hpos.
    - cbn. split_and!; [done|lia|done|]. intros org. unfold count_where. cbn. lia.
    - cbn [foldl].
      set (d1 := count_organization d a).
      assert (NoDup (map fst d1)) as Hd1.
      { subst d1. unfold count_organization.
        destruct (entry _ d); by apply store_keys_NoDup. }
      assert (∀ org, default 0 (entry org d1)
                = default 0 (entry org d)
                  + (if works_for org a then 1 else 0)) as Hone.
      { intros org. subst d1. unfold count_organization, works_for.
        destruct (entry (organization_of a) d) as [n|] eqn:He;
          rewrite entry_store;
          destruct (decide (organization_of a = org)) as [<-|Hne].
        - rewrite bool_decide_eq_true_2 by done. rewrite He. cbn. lia.
        - rewrite bool_decide_eq_false_2 by done. lia.
        - rewrite bool_decide_eq_true_2 by done. rewrite He. cbn. lia.
        - rewrite bool_decide_eq_false_2 by done. lia. }
      assert (∀ org n, entry org d1 = Some n → 0 < n) as Hpos1.
      { intros org n. subst d1. unfold count_organization.
        destruct (entry (organization_of a) d) as [m|] eqn:He;
          rewrite entry_store;
          destruct (decide (organization_of a = org)) as [<-|Hne];
          try (intros [= <-]; lia); apply Hpos. }
      assert (tally snd d1 = tally snd d + 1) as Htally.
      { subst d1. unfold count_organization.
        destruct (entry (organization_of a) d) as [m|] eqn:He.
        - pose proof (tally_store (organization_of a) (m + 1) d) as Ht.
          rewrite He in Ht. cbn in Ht. lia.
        - pose proof (tally_store (organization_of a) 1 d) as Ht.
          rewrite He in Ht. cbn in Ht. lia. }
      destruct (IH d1 Hd1 Hpos1) as (H1 & H2 & H3 & H4).
      split_and!; [done|cbn [length]; lia|done|].
      intros org. rewrite H4, Hone. unfold count_where. cbn [tally]. lia. }
  destruct (Hgen [] attendees (NoDup_nil_2) ltac:(done)) as (H1 & H2 & H3 & H4).
  cbn zeta. split_and!; [done|by rewrite H2| ].
  intros org. specialize (H4 org). cbn in H4.
  destruct (entry org _) as [n|] eqn:He.
  - apply H3 in He as Hn. cbn in H4. rewrite <- H4. by destruct n; [lia|].
  - cbn in H4. by rewrite <- H4.
Qed.

(* --------------------------------------------------------------------- *)
(** ** No fence is left                                                   *)
(* --------------------------------------------------------------------- *)

Lemma starts_with_ticks s : starts_with (py "```") s = true ↔ 3 ≤ ticks s.
Proof.
  change (py "```") with [backtick; backtick; backtick].
  destruct s as [|a [|b [|c s]]]; cbn [starts_with ticks];
    rewrite ?(N.eqb_sym backtick).
  - split; [done|lia].
  - destruct (a =? backtick)%N; cbn [andb]; split; (done || lia).
  - destruct (a =? backtick)%N, (b =? backtick)%N; cbn [andb];
      split; (done || lia).
  - destruct (a =? backtick)%N, (b =? backtick)%N, (c =? backtick)%N;
      cbn [andb]; split; (done || lia).
Qed.

Lemma contains_cons l c s :
  contains l (c :: s) = starts_with l (c :: s) || contains l s.
Proof. reflexivity. Qed.

Lemma contains_nil_fence : contains (py "```") [] = false.
Proof. reflexivity. Qed.

(** A text that starts with a character other than a backtick, or with at
    most two backticks before a text without a fence, has no fence. *)
Lemma no_fence_cons c s :
  contains (py "```") s = false →
  (c = backtick → ticks s ≤ 1) →
  contains (py "```") (c :: s) = false.
Proof.
  intros Hs Hc. rewrite contains_cons, Hs, orb_false_r.
  destruct (starts_with (py "```") (c :: s)) eqn:Hst; [|done].
  apply starts_with_ticks in Hst. cbn [ticks] in Hst.
  destruct (N.eqb_spec c backtick) as [->|_]; [|lia].
  specialize (Hc eq_refl). lia.
Qed.

Lemma no_fence_ticks s : contains (py "```") s = false → ticks s ≤ 2.
Proof.
  intros Hs. destruct s as [|c s]; [cbn [ticks]; lia|].
  rewrite contains_cons in Hs. apply orb_false_iff in Hs as [Hst _].
  destruct (le_lt_dec 3 (ticks (c :: s))) as [Hge|?]; [|lia].
  apply starts_with_ticks in Hge. congruence.
Qed.

Lemma no_fence_tail c s :
  contains (py "```") (c :: s) = false → contains (py "```") s = false.
Proof. rewrite contains_cons. by intros [_ ?]%orb_false_iff. Qed.

Lemma no_fence_drop n s :
  contains (py "```") s = false → contains (py "```") (drop n s) = false.
Proof.
  revert s. induction n as [|n IH]; intros s Hs; [by rewrite drop_0|].
  destruct s as [|c s]; [done|]. cbn. apply IH. by eapply no_fence_tail.
Qed.

Lemma no_fence_app_plain a s :
  backtick ∉ a → a ≠ [] → contains (py "```") s = false →
  contains (py "```") (a ++ s) = false ∧ ticks (a ++ s) = 0.
Proof.
  intros Ha Hne Hs. destruct a as [|c a]; [done|]. clear Hne.
  revert c Ha. induction a as [|x a IH]; intros c Ha.
  - apply not_elem_of_cons in Ha as [Hc _]. cbn [app]. split.
    + by apply no_fence_cons.
    + cbn [ticks]. by destruct (N.eqb_spec c backtick).
  - apply not_elem_of_cons in Ha as [Hc Ha].
    destruct (IH x Ha) as [Hno Hticks]. cbn [app] in *. split.
    + apply no_fence_cons; [done|]. intros _. lia.
    + cbn [ticks]. by destruct (N.eqb_spec c backtick).
Qed.

(** Where the opening fence matches. *)
Lemma match_at_fence_open s :
  match_at fence_open s
  = if starts_with (py "```") s
    then (λ n, 3 + n) <$> match_at [POpt (py "json"); PStar space] (drop 3 s)
    else None.
Proof. unfold fence_open, lit. by rewrite match_at_lit. Qed.

Lemma match_at_fence_open_Some s :
  starts_with (py "```") s = true → ∃ n, match_at fence_open s = Some (S n).
Proof.
  intros Hs. rewrite match_at_fence_open, Hs, match_at_opt.
  destruct (match_star_space (drop (length (py "json")) (drop 3 s)))
    as (n1 & Hn1 & _).
  destruct (match_star_space (drop 3 s)) as (n2 & Hn2 & _).
  rewrite Hn1, Hn2. destruct (starts_with (py "json") (drop 3 s)); by eexists.
Qed.

(** Substitution with a replacement that is not empty and holds no
    backtick, for a pattern that matches no empty text, makes no fence. *)
Lemma re_sub_no_fence p repl s :
  (∀ t n, match_at p t = Some n → 0 < n) →
  backtick ∉ repl → repl ≠ [] →
  contains (py "```") s = false →
  contains (py "```") (re_sub p repl s) = false
  ∧ ticks (re_sub p repl s) ≤ ticks s.
Proof.
  intros Hpos Hrepl Hne.
  assert (∀ k s, length s ≤ k → contains (py "```") s = false →
            contains (py "```") (re_sub p repl s) = false
            ∧ ticks (re_sub p repl s) ≤ ticks s) as Hall;
    [|intros Hs; by apply (Hall (length s))].
  clear s. induction k as [|k IH]; intros s Hk Hs.
  - destruct s; [|cbn in Hk; lia]. unfold re_sub. cbn [sub_from].
    destruct (match_at p []) as [n|] eqn:Hm; [|done].
    apply Hpos in Hm as Hn. apply match_at_bound in Hm. cbn in Hm. lia.
  - destruct s as [|c s].
    { unfold re_sub. cbn [sub_from].
      destruct (match_at p []) as [n|] eqn:Hm; [|done].
      apply Hpos in Hm as Hn. apply match_at_bound in Hm. cbn in Hm. lia. }
    cbn [length] in Hk.
    destruct (match_at p (c :: s)) as [n|] eqn:Hm.
    + apply Hpos in Hm as Hn. destruct n as [|n]; [lia|].
      rewrite (re_sub_match _ _ _ _ Hm).
      pose proof (match_at_bound _ _ _ Hm) as Hb. cbn [length] in Hb.
      destruct (IH (drop (S n) (c :: s))) as [Hno _].
      { rewrite length_drop. cbn [length]. lia. }
      { by apply no_fence_drop. }
      destruct (no_fence_app_plain repl _ Hrepl Hne Hno) as [? ->].
      split; [done|lia].
    + rewrite (re_sub_copy _ _ _ _ Hm).
      destruct (IH s ltac:(lia) (no_fence_tail _ _ Hs)) as [Hno Hle].
      split.
      * apply no_fence_cons; [done|]. intros ->.
        apply no_fence_ticks in Hs. cbn [ticks] in Hs.
        rewrite N.eqb_refl in Hs. lia.
      * cbn [ticks]. destruct (c =? backtick)%N; lia.
Qed.

(** The first substitution of [clean_json_text] leaves no fence. *)
Lemma re_sub_fence_open_no_fence s :
  contains (py "```") (re_sub fence_open [] s) = false.
Proof.
  assert (∀ s, ticks s < 3 → ticks (re_sub fence_open [] s) = ticks s) as Hticks.
  { clear s. induction s as [|c s IH]; intros Hlt; [done|].
    assert (match_at fence_open (c :: s) = None) as Hm.
    { rewrite match_at_fence_open.
      destruct (starts_with (py "```") (c :: s)) eqn:Hst; [|done].
      apply starts_with_ticks in Hst. lia. }
    rewrite (re_sub_copy _ _ _ _ Hm). cbn [ticks] in *.
    destruct (c =? backtick)%N; [|done]. rewrite IH; [done|lia]. }
  assert (∀ k s, length s ≤ k →
            contains (py "```") (re_sub fence_open [] s) = false) as Hall;
    [|by apply (Hall (length s))].
  clear s. induction k as [|k IH]; intros s Hk.
  - by destruct s; [|cbn in Hk; lia].
  - destruct s as [|c s]; [done|]. cbn [length] in Hk.
    destruct (starts_with (py "```") (c :: s)) eqn:Hst.
    + destruct (match_at_fence_open_Some _ Hst) as (n & Hm).
      rewrite (re_sub_match _ _ _ _ Hm). cbn [app].
      pose proof (match_at_bound _ _ _ Hm) as Hb. cbn [length] in Hb.
      apply IH. rewrite length_drop. cbn [length]. lia.
    + assert (match_at fence_open (c :: s) = None) as Hm
        by (by rewrite match_at_fence_open, Hst).
      rewrite (re_sub_copy _ _ _ _ Hm).
      assert (¬ 3 ≤ ticks (c :: s)) as Hlt.
      { intros Hge%starts_with_ticks. congruence. }
      apply no_fence_cons; [apply IH; lia|].
      intros ->. cbn [ticks] in Hlt. rewrite N.eqb_refl in Hlt.
      rewrite Hticks; lia.
Qed.

(** The second substitution finds nothing in a text without a fence. *)
Lemma re_sub_fence_close_no_fence s :
  contains (py "```") s = false → re_sub fence_close [] s = s.
Proof.
  intros Hs.
  assert (∀ t, contains (py "```") t = false →
               match_at fence_close t = None) as Hnone.
  { intros t Ht. unfold fence_close. cbn [match_at].
    apply match_star_fails. intros i.
    pose proof (no_fence_drop i t Ht) as Hd.
    change (lit "```") with (map PChr (py "```") ++ []).
    rewrite match_at_lit.
    destruct (drop i t) as [|c u] eqn:Hu; [done|].
    rewrite contains_cons in Hd. apply orb_false_iff in Hd as [Hst _].
    by rewrite Hst. }
  rewrite <- (app_nil_r s) at 1. rewrite re_sub_prefix.
  - unfold re_sub. cbn [sub_from]. rewrite (Hnone [] eq_refl).
    by rewrite app_nil_r.
  - intros i _. rewrite app_nil_r. apply Hnone. by apply no_fence_drop.
Qed.

Lemma literal_first_matches_no_empty c p t n :
  match_at (PChr c :: p) t = Some n → 0 < n.
Proof.
  cbn [match_at]. destruct t as [|x t]; [done|].
  destruct (x =? c)%N; [|done]. destruct (match_at p t); [|done].
  intros [= <-]. lia.
Qed.

(** X22. [clean_json_text] leaves no code fence: whatever the text, the
    result holds no run of three backticks. *)
Theorem cleaned_text_has_no_fence (text : pystr) :
  contains (py "```") (clean_json_text text) = false.
Proof.
  unfold clean_json_text.
  pose proof (re_sub_fence_open_no_fence text) as Hopen.
  rewrite (re_sub_fence_close_no_fence _ Hopen).
  set (t := re_sub fence_open [] text) in *.
  assert (contains (py "```") (strip t) = false) as Hstrip.
  { destruct (strip_infix t) as (a & b & Ht).
    apply (contains_infix _ a _ b). by rewrite <- Ht. }
  assert (backtick ∉ quoted "Pharmaceutical") as Hq1
    by (apply (bool_decide_unpack _); vm_compute; exact I).
  assert (backtick ∉ quoted "Pharma") as Hq2
    by (apply (bool_decide_unpack _); vm_compute; exact I).
  destruct (re_sub_no_fence category_alt (quoted "Pharmaceutical") (strip t))
    as [Hcat _]; [|done|done|done|].
  { apply literal_first_matches_no_empty. }
  destruct (re_sub_no_fence lead_alt (quoted "Pharma")
              (re_sub category_alt (quoted "Pharmaceutical") (strip t)))
    as [Hlead _]; [|done|done|done|done].
  apply literal_first_matches_no_empty.
Qed.

(* --------------------------------------------------------------------- *)
(** ** One row for each attendee                                          *)
(* --------------------------------------------------------------------- *)

Lemma preprocess_row_origin d r d' (P : info → Prop) :
  preprocess_row d r = Returns d' →
  Forall (λ ki, P ki.2) d →
  (∀ org_text first last,
     row_mail r ≠ [] →
     stripped (Organization r) = Returns org_text →
     stripped (First_Name r) = Returns first →
     stripped (Last_Name r) = Returns last →
     P (info_of (row_mail r) org_text first last)) →
  Forall (λ ki, P ki.2) d'.
Proof.
  intros (mail & Hmail & Hcase)%preprocess_row_Returns Hd Hnew.
  apply stripped_Email in Hmail as ->.
  destruct Hcase as [[_ ->]|(Hne & org_text & first & last & Ho & Hf & Hl & Hcase)];
    [done|].
  assert (Forall (λ ki, P ki.2)
            (store (row_mail r) (info_of (row_mail r) org_text first last) d))
    as Hstore.
  { apply Forall_forall. intros ki [->|Hin]%store_elem; [by apply Hnew|].
    by apply (proj1 (Forall_forall _ _) Hd). }
  destruct (entry (row_mail r) d); [|by subst].
  by destruct Hcase as (_ & _ & [->| ->]).
Qed.

(** X23. Every attendee [preprocess_attendee_data] returns is the record of
    one single row of the file: its names, its email and its organization
    are the stripped cells of that row, the organization being the company
    of the email when the cell is blank. The records of two rows are never
    combined, so the branch that takes over the organization of the earlier
    record has no effect on a list that is returned; and an organization is
    never the empty text. *)
Theorem each_attendee_is_one_row (rows : list row) (attendees : list attendee) :
  preprocess_attendee_data rows = Some attendees →
  Forall (λ a, ∃ r org_text first last,
            r ∈ rows
            ∧ row_mail r ≠ []
            ∧ stripped (Organization r) = Returns org_text
            ∧ stripped (First_Name r) = Returns first
            ∧ stripped (Last_Name r) = Returns last
            ∧ a = as_attendee (info_of (row_mail r) org_text first last)
            ∧ get a "organization"
              = (if blank (Organization r)
                 then extract_company_from_email (PyStr (row_mail r))
                 else PyStr org_text)
            ∧ get a "organization" ≠ PyStr []) attendees.
Proof.
  unfold preprocess_attendee_data.
  destruct (preprocess_rows rows []) as [d|e] eqn:Hrows; [|done].
  intros [= <-].
  set (P := λ (known : list row) (i : info), ∃ r org_text first last,
         r ∈ known ∧ row_mail r ≠ []
         ∧ stripped (Organization r) = Returns org_text
         ∧ stripped (First_Name r) = Returns first
         ∧ stripped (Last_Name r) = Returns last
         ∧ i = info_of (row_mail r) org_text first last).
  assert (∀ todo known d0 d1,
            preprocess_rows todo d0 = Returns d1 →
            Forall (λ ki, P known ki.2) d0 →
            Forall (λ ki, P (known ++ todo) ki.2) d1) as Hall.
  { induction todo as [|r todo IH]; intros known d0 d1; cbn [preprocess_rows].
    - intros [= <-]. by rewrite app_nil_r.
    - destruct (preprocess_row d0 r) as [d2|] eqn:Hr; [|done].
      cbn [mbind reply_bind]. intros Htodo Hd0.
      replace (known ++ r :: todo) with ((known ++ [r]) ++ todo)
        by (by rewrite <- app_assoc).
      apply (IH _ _ _ Htodo).
      apply (preprocess_row_origin _ _ _ _ Hr).
      + eapply Forall_impl; [exact Hd0|].
        intros ki (r0 & o & f & l & Hin & Hrest). exists r0, o, f, l.
        split; [set_solver|done].
      + intros o f l Hne Ho Hf Hl. exists r, o, f, l.
        split; [set_solver|done]. }
  specialize (Hall rows [] [] d Hrows (Forall_nil_2 _)). cbn [app] in Hall.
  apply Forall_fmap. eapply Forall_impl; [exact Hall|].
  intros [k i] (r & org_text & first & last & Hin & Hne & Ho & Hf & Hl & Hi).
  cbn [snd] in Hi. subst i. unfold compose. cbn [snd].
  exists r, org_text, first, last. split_and!; try done.
  - change (get (as_attendee (info_of (row_mail r) org_text first last))
              "organization")
      with (AttendeeInfo.organization (info_of (row_mail r) org_text first last)).
    unfold info_of. cbn [AttendeeInfo.organization].
    rewrite (stripped_blank _ _ Ho). by destruct org_text.
  - change (get (as_attendee (info_of (row_mail r) org_text first last))
              "organization")
      with (AttendeeInfo.organization (info_of (row_mail r) org_text first last)).
    unfold info_of. cbn [AttendeeInfo.organization].
    destruct org_text as [|c o]; [|done]. cbn [truthy].
    destruct (extract_company_from_email _) as [|company] eqn:He; [done|].
    apply extract_company_iff in He as (_ & _ & _ & Hc & _). congruence.
Qed.

(* --------------------------------------------------------------------- *)
(** ** A semaphore without permits                                        *)
(* --------------------------------------------------------------------- *)

Lemma results_of_waiting n : results_of (replicate (S n) Waiting) = None.
Proof. reflexivity. Qed.

(** X24. With [max_concurrent_searches] at zero, [process_attendees] on a
    batch that is not empty hangs: no coroutine ever enters the semaphore, so
    the call stays in its first state, where it has not returned and no
    coroutine can take a step. *)
Theorem no_permit_no_progress (p : processor) (batch : list attendee)
    (f : fanout) :
  AsyncAttendeeProcessor.max_concurrent_searches p = 0%Z →
  batch ≠ [] →
  fanout_reachable p batch f →
  f = fanout_init p batch
  ∧ process_attendees p batch f = None
  ∧ ∀ f', ¬ fanout_step p batch f f'.
Proof.
  intros Hcap Hne Hreach.
  assert (∀ f', ¬ fanout_step p batch (fanout_init p batch) f') as Hstuck.
  { intros f' (_ & i & Hstep).
    apply process_with_semaphore_Some in Hstep
      as (a & _ & [(_ & free & Hfree & _)|[(Ht & _)|(Ht & _)]]).
    - unfold fanout_init in Hfree. cbn in Hfree. rewrite Hcap in Hfree. done.
    - unfold fanout_init in Ht. cbn in Ht.
      by apply lookup_replicate in Ht as [? _].
    - unfold fanout_init in Ht. cbn in Ht.
      by apply lookup_replicate in Ht as [? _]. }
  assert (f = fanout_init p batch) as ->.
  { apply rtc_inv in Hreach as [|(f1 & Hstep & _)]; [done|].
    by destruct (Hstuck f1). }
  split; [done|]. split; [|done].
  destruct batch as [|a rest]; [done|].
  unfold process_attendees. rewrite Hcap. reflexivity.
Qed.

(* --------------------------------------------------------------------- *)
(** ** The further properties at work                                     *)
(* --------------------------------------------------------------------- *)

(** The cases of the tests of [extract_company_from_email]: the company of
    [jane.smith@company.co.uk] is [company]. *)
Lemma company_of_jane_smith :
  extract_company_from_email (PyStr (py "jane.smith@company.co.uk"))
  = PyStr (py "company").
Proof.
  apply (proj2 company_is_the_label_behind_the_first_at).
  exists (py "jane.smith"), (py "co.uk"). split_and!.
  - reflexivity.
  - discriminate.
  - apply (bool_decide_unpack _). vm_compute. exact I.
  - intros p1 p2 Hpre. exfalso.
    assert (at_sign ∈ py "jane.smith") as Hin by (rewrite Hpre; set_solver).
    revert Hin. apply (bool_decide_unpack _). vm_compute. exact I.
Defined.

Lemma sample_rows_processed :
  preprocess_attendee_data sample_rows = Some sample_attendees.
Proof. vm_compute. reflexivity. Defined.

Lemma distinct_emails_witness :
  map (λ a, get a "email") sample_attendees
  = [PyStr (py "ada@acme.io"); PyStr (py "bob@beta.org")]
  ∧ NoDup (map (λ a, get a "email") sample_attendees).
Proof.
  destruct (attendees_are_the_distinct_emails sample_rows sample_attendees
              sample_rows_processed) as (Hmails & Hnodup & _).
  split; [|exact Hnodup]. rewrite Hmails. vm_compute. reflexivity.
Defined.

Lemma sample_rows_ok : Forall row_ok sample_rows.
Proof.
  repeat (apply Forall_cons_2 || apply Forall_nil_2);
    (split_and!; [reflexivity..|]); intros Hmail;
    first [ by destruct Hmail
          | left; vm_compute; reflexivity
          | right; vm_compute; discriminate ].
Defined.

Lemma rows_handled_witness :
  ∃ attendees, preprocess_attendee_data sample_rows = Some attendees
    ∧ length attendees = 2.
Proof.
  destruct (rows_with_an_organization_are_handled sample_rows sample_rows_ok)
    as (attendees & Hsome & Hlen).
  exists attendees. split; [exact Hsome|]. rewrite Hlen. vm_compute. reflexivity.
Defined.

(** Di twice, without an organization: the whole file is given up. *)
Lemma duplicate_fails_witness :
  preprocess_attendee_data (sample_rows ++ row_of_di :: [] ++ row_of_di :: [])
  = None.
Proof.
  apply (duplicate_without_organization_fails sample_rows [] [] row_of_di
           row_of_di).
  - reflexivity.
  - discriminate.
  - vm_compute. reflexivity.
  - left. reflexivity.
Defined.

(** Ada again, with a longer organization and no names: her names are gone. *)
Lemma longer_organization_witness :
  ∃ d, preprocess_row
         [(py "ada@acme.io", info_of (py "ada@acme.io") (py "Acme") (py "Ada") (py "A"))]
         (text_row "ada@acme.io" "Acme Corp" " " "") = Returns d
    ∧ AttendeeInfo.first_name <$> entry (py "ada@acme.io") d = Some [].
Proof.
  destruct (longer_organization_replaces_the_record
              [(py "ada@acme.io",
                info_of (py "ada@acme.io") (py "Acme") (py "Ada") (py "A"))]
              (text_row "ada@acme.io" "Acme Corp" " " "")
              (info_of (py "ada@acme.io") (py "Acme") (py "Ada") (py "A"))
              (py "ada@acme.io") (py "Acme") (py "Acme Corp") [] [])
    as (d & Hd & _ & Hentry).
  - reflexivity.
  - reflexivity.
  - reflexivity.
  - discriminate.
  - reflexivity.
  - reflexivity.
  - reflexivity.
  - vm_compute. lia.
  - exists d. split; [exact Hd|]. rewrite Hentry. reflexivity.
Defined.

(** The fenced answer of batch 0 of the sample world. *)
Lemma fenced_text_witness :
  clean_json_text (py "```json" ++ [10%N] ++ sample_text ++ [10%N] ++ py "```")
  = clean_json_text sample_text.
Proof.
  apply (fenced_text_is_unwrapped true [] [10%N] sample_text [10%N] []).
  - repeat constructor.
  - discriminate.
  - apply (bool_decide_unpack _). vm_compute. exact I.
Defined.

Lemma decoded_value_witness :
  ∃ notes returned,
    process_batch_with_crew 0 = (notes, returned)
    ∧ extend [] returned = [sample_record].
Proof.
  destruct (decoded_value_is_walked (H:=sample_world) 0
              (py "```json" ++ [10%N] ++ sample_text ++ [10%N] ++ py "```")
              (JList [sample_record]) [] [] eq_refl eq_refl eq_refl)
    as (notes & returned & Hcrew & _ & Hext & _).
  exists notes, returned. split; [exact Hcrew|exact Hext].
Defined.

Lemma no_recovery_witness :
  decode_results (py "not json")
  = ([Decoding (py "not json"); ParseError (py "Expecting value");
      Decoding (py "not json"); Skipped],
     Returns (JList [])).
Proof.
  apply (proj1 (recovery_needs_a_removed_character (H:=sample_world)
                  (py "not json")) (py "Expecting value"));
    reflexivity.
Defined.

Lemma processed_once_witness :
  ∃ f,
    run_schedule sample_processor (take 2 seven) [0; 0; 0; 1; 1; 1]
      (fanout_init sample_processor (take 2 seven)) = Some f
    ∧ processed f = 2 ∧ permits f = 1.
Proof.
  destruct (run_schedule sample_processor (take 2 seven) [0; 0; 0; 1; 1; 1]
              (fanout_init sample_processor (take 2 seven))) as [f|] eqn:Hrun;
    [|vm_compute in Hrun; discriminate].
  destruct (each_attendee_is_processed_once sample_processor (take 2 seven) f
              (run_schedule_reachable _ _ _ _ _ Hrun)) as (_ & _ & Hend).
  assert (∃ outs, process_attendees sample_processor (take 2 seven) f
                  = Some (Returns outs)) as [outs Houts].
  { vm_compute in Hrun. injection Hrun as <-. eexists. reflexivity. }
  destruct (Hend outs Houts) as (Hs & Hp & _).
  exists f. split; [reflexivity|]. split; [exact Hs|exact Hp].
Defined.

(** Batch 1 absorbed before batch 0. *)
Lemma growth_witness :
  ∃ s order,
    run_pool sample_crew 2 (batch_actions 1 3 ++ batch_actions 0 3)
      (pool_init 3) = Some s
    ∧ NoDup order
    ∧ all_results s = concat (map (delivered_by s) order).
Proof.
  destruct (run_pool sample_crew 2 (batch_actions 1 3 ++ batch_actions 0 3)
              (pool_init 3)) as [s|] eqn:Hrun;
    [|vm_compute in Hrun; discriminate].
  assert (pool_reachable sample_crew s) as Hreach.
  { split; [discriminate|]. exists 3, 2. split; [reflexivity|].
    by eapply run_pool_steps. }
  destruct (all_results_grows_batch_by_batch sample_crew s Hreach)
    as [(order & Hnodup & _ & Hall) _].
  exists s, order. split; [reflexivity|]. split; [exact Hnodup|exact Hall].
Defined.

(** Batch 0 completed and not yet absorbed. *)
Lemma extend_witness :
  ∃ s records,
    run_pool sample_crew 2 (removelast (batch_actions 0 3)) (pool_init 3)
    = Some s
    ∧ all_results <$> pool_step sample_crew 2 (Absorb 0) s
      = Some (all_results s ++ records).
Proof.
  destruct (run_pool sample_crew 2 (removelast (batch_actions 0 3))
              (pool_init 3)) as [s|] eqn:Hrun;
    [|vm_compute in Hrun; discriminate].
  assert (pool_reachable sample_crew s) as Hreach.
  { split; [discriminate|]. exists 3, 2. split; [reflexivity|].
    by eapply run_pool_steps. }
  assert (∃ notes v, batches s !! 0 = Some (Completed notes v))
    as (notes & v & Hb).
  { vm_compute in Hrun. injection Hrun as <-. eexists _, _. reflexivity. }
  destruct (batch_results_can_be_extended sample_crew s 0 notes v Hreach Hb)
    as (records & _ & Hstep).
  exists s, records. split; [reflexivity|]. by rewrite Hstep.
Defined.

Lemma crew_mode_witness :
  ∃ s,
    run_pool sync_crew 3 [Work 0 Enter; Work 1 Enter; Work 0 Finish]
      (pool_init 3) = Some s
    ∧ total_in_flight s = 0.
Proof.
  destruct (run_pool sync_crew 3 [Work 0 Enter; Work 1 Enter; Work 0 Finish]
              (pool_init 3)) as [s|] eqn:Hrun;
    [|vm_compute in Hrun; discriminate].
  assert (pool_reachable sync_crew s) as Hreach.
  { split; [discriminate|]. exists 3, 3. split; [reflexivity|].
    by eapply run_pool_steps. }
  destruct (crew_mode_makes_no_search sync_crew s eq_refl Hreach) as [Hzero _].
  exists s. split; [reflexivity|exact Hzero].
Defined.

Lemma out_of_range_witness :
  preprocess_attendees seven 3 3 = Returns []
  ∧ preprocess_attendees seven 3 2 = Returns (drop 6 seven).
Proof.
  destruct (batch_is_a_window seven 3 3 ltac:(reflexivity)
              ltac:(vm_compute; discriminate)) as [H3 _].
  destruct (batch_is_a_window seven 3 2 ltac:(reflexivity)
              ltac:(vm_compute; discriminate)) as [H2 _].
  split; [exact H3|exact H2].
Defined.

Lemma negative_batch_size_witness :
  (∀ s, analyze negative_crew s = Some [])
  ∨ (length (PharmaCrew.attendees negative_crew) = 1
     ∧ (PharmaCrew.batch_size negative_crew < 0)%Z
     ∧ (0 < PharmaCrew.max_workers negative_crew)%Z
     ∧ plan negative_crew = Returns (1, 1)
     ∧ preprocess_attendees (PharmaCrew.attendees negative_crew)
         (PharmaCrew.batch_size negative_crew) 0 = Returns []).
Proof.
  apply (sizes_must_be_positive (H:=sample_world) negative_crew).
  left. vm_compute. discriminate.
Defined.

(** A text that is not JSON is its own query. *)
Lemma text_query_witness :
  ∃ s, InStr (py "not json") = InStr s
    ∧ ∀ entries, json_loads s ≠ Parsed (JDict entries).
Proof.
  destruct (proj1 (search_needs_a_query (H:=sample_world)
                     (InStr (py "not json")))
              (Query (JStr (py "not json"))) eq_refl)
    as [(entries & [Hdict|(s & Hs & Hloads)] & _)
       |[(s & Hs & _ & Hnot)|[Hother _]]].
  - discriminate Hdict.
  - injection Hs as <-. vm_compute in Hloads. discriminate Hloads.
  - exists s. split; [exact Hs|exact Hnot].
  - discriminate Hother.
Defined.

Lemma export_witness :
  ∃ rows,
    written (export_to_csv true sample_results)
    = Some ([JStr (py "name")] :: rows)
    ∧ length rows = 1
    ∧ reported (export_to_csv true sample_results) = true.
Proof.
  destruct (export_stops_at_the_first_misfit sample_record
              (tail sample_results) [py "name"] eq_refl)
    as (_ & n & rows & Hfile & Hn & Hlen & _ & _ & Hfit & Hlast).
  exists rows. split; [exact Hfile|].
  assert (n = 1) as ->.
  { destruct n as [|[|n]]; [lia|reflexivity|exfalso].
    specialize (Hfit 1 _ ltac:(lia) eq_refl). vm_compute in Hfit.
    discriminate Hfit. }
  split; [exact Hlen|].
  change (sample_record :: tail sample_results) with sample_results in Hlast.
  destruct (reported (export_to_csv true sample_results)); [reflexivity|].
  vm_compute in Hlast. discriminate Hlast.
Defined.

Lemma run_of_main_witness :
  Forall has_mail sample_attendees
  ∧ ∃ s' results,
      rtc (pool_next (main_crew sample_attendees 3 5 false) 1) (pool_init 1) s'
      ∧ analyze (main_crew sample_attendees 3 5 false) s' = Some results.
Proof.
  assert (pool_reachable (H:=sample_world)
            (main_crew sample_attendees 3 5 false) (pool_init 1)) as Hreach.
  { split; [discriminate|]. exists 1, 1. split; [reflexivity|apply rtc_refl]. }
  destruct (run_of_main (H:=sample_world) sample_rows sample_attendees 3 5 false
              (pool_init 1) sample_rows_processed eq_refl eq_refl Hreach)
    as (Hmail & total_batches & workers & Hplan & _ & _ & _ & _ & Hend & _).
  split; [exact Hmail|].
  assert (workers = 1) as -> by (by injection Hplan as _ <-).
  exact Hend.
Defined.

Lemma outcome_fields_witness :
  ∃ o, process_attendee (execute_async (λ _, Raises (py "timeout")))
         (person "Ada" "A" "ada@acme.io" "") = Returns o
    ∧ person_name o = py "Ada A"
    ∧ organization o = py "Unknown"
    ∧ company_domain o = py "acme.io"
    ∧ search_result o = py "Error performing web search: timeout".
Proof.
  destruct (outcome_fields_are_filled (λ _, Raises (py "timeout"))
              (person "Ada" "A" "ada@acme.io" "") (py "ada@acme.io") eq_refl)
    as (o & Ho & _ & _ & _ & Hname & _ & _ & _ & _ & Horg & _ & _ & Hhost
        & _ & _ & _ & Hres).
  exists o. split; [exact Ho|]. split_and!.
  - by apply Hname.
  - apply Horg. by right.
  - apply (Hhost (py "ada") (py "acme.io")); [reflexivity| |discriminate].
    apply (bool_decide_unpack _). vm_compute. exact I.
  - rewrite Hres. reflexivity.
Defined.

Lemma none_email_witness :
  ∃ f e,
    run_schedule (processor_of sample_crew 0) [nobody] [0; 0; 0]
      (fanout_init (processor_of sample_crew 0) [nobody]) = Some f
    ∧ process_attendees (processor_of sample_crew 0) [nobody] f
      = Some (Raises e)
    ∧ process_batch_async 0 (Raises e) = ([BatchError e], JList []).
Proof.
  destruct (run_schedule (processor_of sample_crew 0) [nobody] [0; 0; 0]
              (fanout_init (processor_of sample_crew 0) [nobody]))
    as [f|] eqn:Hrun; [|vm_compute in Hrun; discriminate].
  assert (∃ r, process_attendees (processor_of sample_crew 0) [nobody] f
               = Some r) as [r Hr].
  { vm_compute in Hrun. injection Hrun as <-. eexists. reflexivity. }
  destruct (none_email_loses_the_batch (H:=sample_world) sample_crew 0 0
              [nobody] nobody f r eq_refl eq_refl
              (run_schedule_reachable _ _ _ _ _ Hrun) Hr)
    as (_ & e & -> & Hbatch).
  exists f, e. split; [reflexivity|]. split; [exact Hr|exact Hbatch].
Defined.

Lemma one_row_witness :
  Forall (λ a, get a "organization" ≠ PyStr []) sample_attendees.
Proof.
  eapply Forall_impl;
    [exact (each_attendee_is_one_row sample_rows sample_attendees
              sample_rows_processed)|].
  intros a (r & org_text & first & last & _ & _ & _ & _ & _ & _ & _ & Hne).
  exact Hne.
Defined.

Lemma no_permit_witness :
  process_attendees stuck_processor (take 2 seven)
    (fanout_init stuck_processor (take 2 seven)) = None.
Proof.
  destruct (no_permit_no_progress stuck_processor (take 2 seven)
              (fanout_init stuck_processor (take 2 seven)) eq_refl
              ltac:(discriminate) (rtc_refl _ _)) as (_ & Hnone & _).
  exact Hnone.
Defined.
